(** * Pixie SDK: buffer pool and queue, backplane roles, error codes,
      list-mode save worker and the legacy crate

    A shallow embedding of

      - [sdk/src/pixie_error.cpp] together with the [enum struct code] of
        [error.hpp]: the result-code table, [api_result],
        [api_result_text], [check_code_match], the return codes;
      - [sdk/src/pixie_buffer.cpp]: [pool] and [queue];
      - [sdk/src/pixie/pixie16/backplane.cpp]: [role] and the sync-wait
        bookkeeping;
      - [test_api.cpp]: [list_save_worker::worker], [module_threads], the
        table of commands with [find_command], [switch_option],
        [process_commands], [module_check], the handlers [boot], [crate],
        [export], [help] and [import], and the exit value of [main];
      - [sdk/src/pixie_crate.cpp]: the legacy [crate];
      - [utilities/src/pixie.cpp]: the test data of the system test.

    Exceptions are values of [exn]; a function that can throw returns an
    [outcome].  Mutable objects are threaded explicitly: an operation takes
    the object and returns the object it leaves behind, also when it throws
    after having written to it. *)

From Stdlib Require Import ZArith Lia String Ascii DecimalString Sorted.
From stdpp Require Import gmap list.

Local Open Scope Z_scope.

(* ===================================================================== *)
(** ** Error codes ([error.hpp], [pixie_error.cpp])                       *)
(* ===================================================================== *)

Module Error.

(** [enum struct code]: only [success] is numbered, every other
    enumerator is its predecessor plus one; [last] is the size marker. *)
Inductive code : Set :=
  | success
  | crate_already_open | crate_not_ready | crate_invalid_param
  | module_number_invalid | module_total_invalid | module_already_open
  | module_close_failure | module_offline | module_info_failure
  | module_invalid_operation | module_invalid_firmware
  | module_initialize_failure | module_invalid_param | module_invalid_var
  | module_param_disabled | module_param_readonly | module_param_writeonly
  | module_task_timeout | module_invalid_slot | module_not_found
  | module_test_invalid
  | channel_number_invalid | channel_invalid_param | channel_invalid_var
  | channel_invalid_index | channel_param_disabled | channel_param_readonly
  | channel_param_writeonly
  | device_load_failure | device_boot_failure | device_initialize_failure
  | device_copy_failure | device_image_failure | device_hw_failure
  | device_dma_failure | device_dma_busy | device_fifo_failure
  | device_eeprom_failure | device_eeprom_bad_type | device_eeprom_not_found
  | config_invalid_param | config_param_not_found | config_json_error
  | file_not_found | file_open_failure | file_read_failure
  | file_size_invalid | file_create_failure
  | no_memory | slot_map_invalid | invalid_value | not_supported
  | buffer_pool_empty | buffer_pool_not_empty | buffer_pool_busy
  | buffer_pool_not_enough
  | unknown_error | internal_failure | bad_allocation | bad_error_code
  | last.

(** Every enumerator in declaration order. *)
Definition enumerators : list code :=
  [ success;
    crate_already_open; crate_not_ready; crate_invalid_param;
    module_number_invalid; module_total_invalid; module_already_open;
    module_close_failure; module_offline; module_info_failure;
    module_invalid_operation; module_invalid_firmware;
    module_initialize_failure; module_invalid_param; module_invalid_var;
    module_param_disabled; module_param_readonly; module_param_writeonly;
    module_task_timeout; module_invalid_slot; module_not_found;
    module_test_invalid;
    channel_number_invalid; channel_invalid_param; channel_invalid_var;
    channel_invalid_index; channel_param_disabled; channel_param_readonly;
    channel_param_writeonly;
    device_load_failure; device_boot_failure; device_initialize_failure;
    device_copy_failure; device_image_failure; device_hw_failure;
    device_dma_failure; device_dma_busy; device_fifo_failure;
    device_eeprom_failure; device_eeprom_bad_type; device_eeprom_not_found;
    config_invalid_param; config_param_not_found; config_json_error;
    file_not_found; file_open_failure; file_read_failure;
    file_size_invalid; file_create_failure;
    no_memory; slot_map_invalid; invalid_value; not_supported;
    buffer_pool_empty; buffer_pool_not_empty; buffer_pool_busy;
    buffer_pool_not_enough;
    unknown_error; internal_failure; bad_allocation; bad_error_code;
    last ].

#[global] Instance code_eq_dec : EqDecision code.
Proof. solve_decision. Defined.

(** The integer an enumerator stands for: its position in the
    declaration, [success] being 0. *)
Fixpoint index_of (c : code) (l : list code) (n : nat) : nat :=
  match l with
  | [] => n
  | d :: l' => if decide (c = d) then n else index_of c l' (S n)
  end.

Definition code_value (c : code) : nat := index_of c enumerators 0.

Definition code_of_value (n : nat) : code :=
  nth n enumerators last.

#[global] Instance code_countable : Countable code :=
  inj_countable' code_value code_of_value
    ltac:(intros c; destruct c; reflexivity).

(** [struct result_code]. *)
Record result_code : Set := mk_result_code {
  result : Z;
  text : string
}.

(** Exceptions the modelled code throws or lets through. *)
Inductive exn : Set :=
  | sdk_error (type : code) (what : string)   (* xia::pixie::error::error *)
  | runtime_error (what : string)             (* std::runtime_error *)
  | crate_error (what : string)               (* xia::pixie::crate::error *)
  | out_of_range.                             (* std::out_of_range *)

(** What a call does: it returns, it throws, or it has no defined
    behaviour (an access outside an array or to the front of an empty
    container). *)
Inductive outcome (A : Type) : Type :=
  | Ok (a : A)
  | Throw (e : exn)
  | Undefined.
Arguments Ok {A} a.
Arguments Throw {A} e.
Arguments Undefined {A}.

(** [std::to_string] of an integer. *)
Definition to_string (z : Z) : string := NilZero.string_of_int (Z.to_int z).

(** [s.find(sub) != npos]. *)
Fixpoint contains (sub s : string) : bool :=
  String.prefix sub s ||
  match s with
  | EmptyString => false
  | String _ s' => contains sub s'
  end.

Local Open Scope string_scope.

(** The initializer list of [result_codes], in source order. *)
Definition result_codes_init : list (code * result_code) :=
  [ (success,                   mk_result_code 0 "success");
    (crate_already_open,        mk_result_code 100 "crate already open");
    (crate_not_ready,           mk_result_code 101 "crate not ready");
    (crate_invalid_param,       mk_result_code 102 "invalid system parameter");
    (module_number_invalid,     mk_result_code 200 "invalid module number");
    (module_total_invalid,      mk_result_code 201 "invalid module count");
    (module_already_open,       mk_result_code 202 "module already open");
    (module_close_failure,      mk_result_code 203 "module failed to close");
    (module_offline,            mk_result_code 204 "module offline");
    (module_info_failure,       mk_result_code 205 "module information failure");
    (module_invalid_operation,  mk_result_code 206 "invalid module operation");
    (module_invalid_firmware,   mk_result_code 207 "invalid module firmware");
    (module_initialize_failure, mk_result_code 208 "module initialization failure");
    (module_invalid_param,      mk_result_code 209 "invalid module parameter");
    (module_invalid_var,        mk_result_code 210 "invalid module variable");
    (module_param_disabled,     mk_result_code 211 "module parameter disabled");
    (module_param_readonly,     mk_result_code 212 "module parameter is readonly");
    (module_param_writeonly,    mk_result_code 213 "module parameter is writeonly");
    (module_task_timeout,       mk_result_code 214 "module task timeout");
    (module_invalid_slot,       mk_result_code 215 "invalid module slot number");
    (module_not_found,          mk_result_code 216 "module not found");
    (channel_number_invalid,    mk_result_code 300 "invalid channel number");
    (channel_invalid_param,     mk_result_code 301 "invalid channel parameter");
    (channel_invalid_var,       mk_result_code 302 "invalid channel variable");
    (channel_invalid_index,     mk_result_code 303 "invalid channel variable");
    (channel_param_disabled,    mk_result_code 304 "invalid channel index");
    (channel_param_readonly,    mk_result_code 305 "channel parameter is readonly");
    (channel_param_writeonly,   mk_result_code 306 "channel parameter is writeonly");
    (device_load_failure,       mk_result_code 500 "device failed to load");
    (device_boot_failure,       mk_result_code 501 "device failed to boot");
    (device_initialize_failure, mk_result_code 502 "device failed to initialize");
    (device_copy_failure,       mk_result_code 503 "device variable copy failed");
    (device_image_failure,      mk_result_code 504 "device image failure");
    (device_hw_failure,         mk_result_code 505 "device hardware failure");
    (device_dma_failure,        mk_result_code 506 "device dma failure");
    (device_dma_busy,           mk_result_code 507 "device dma busy");
    (device_fifo_failure,       mk_result_code 508 "device fifo failure");
    (device_eeprom_failure,     mk_result_code 509 "device eeprom failure");
    (device_eeprom_bad_type,    mk_result_code 510 "device eeprom bad type");
    (device_eeprom_not_found,   mk_result_code 511 "device eeprom tag not found");
    (config_invalid_param,      mk_result_code 600 "invalid config parameter");
    (config_param_not_found,    mk_result_code 601 "config parameter not found");
    (config_json_error,         mk_result_code 602 "config json error");
    (file_not_found,            mk_result_code 700 "file not found");
    (file_open_failure,         mk_result_code 701 "file open failure");
    (file_read_failure,         mk_result_code 702 "file read failure");
    (file_size_invalid,         mk_result_code 703 "invalid file size");
    (file_create_failure,       mk_result_code 704 "file create failure");
    (no_memory,                 mk_result_code 800 "no memory");
    (slot_map_invalid,          mk_result_code 801 "invalid slot map");
    (invalid_value,             mk_result_code 802 "invalid number");
    (not_supported,             mk_result_code 803 "not supported");
    (buffer_pool_empty,         mk_result_code 804 "buffer pool empty");
    (buffer_pool_not_empty,     mk_result_code 805 "buffer pool not empty");
    (buffer_pool_busy,          mk_result_code 806 "buffer pool bust");
    (buffer_pool_not_enough,    mk_result_code 807 "buffer pool not enough");
    (unknown_error,             mk_result_code 900 "unknown error");
    (internal_failure,          mk_result_code 901 "internal failure");
    (bad_error_code,            mk_result_code 990 "bad error code") ].

(** Construction of a [std::map] from an initializer list inserts the
    pairs one after the other; an insertion under a key already present
    does nothing. *)
Definition map_insert_new (m : gmap code result_code)
    (kv : code * result_code) : gmap code result_code :=
  match m !! kv.1 with
  | Some _ => m
  | None => <[kv.1 := kv.2]> m
  end.

Definition result_codes : gmap code result_code :=
  foldl map_insert_new ∅ result_codes_init.

(** [std::map::at]. *)
Definition map_at (m : gmap code result_code) (k : code) : outcome result_code :=
  match m !! k with
  | Some rc => Ok rc
  | None => Throw out_of_range
  end.

Definition api_result (type : code) : outcome Z :=
  match result_codes !! type with
  | None =>
      match map_at result_codes bad_error_code with
      | Ok rc => Ok (result rc)
      | Throw e => Throw e
      | Undefined => Undefined
      end
  | Some rc => Ok (result rc)
  end.

Definition api_result_text (type : code) : outcome string :=
  match result_codes !! type with
  | None =>
      match map_at result_codes bad_error_code with
      | Ok rc => Ok (text rc)
      | Throw e => Throw e
      | Undefined => Undefined
      end
  | Some rc => Ok (text rc)
  end.

End Error.

(* ===================================================================== *)
(** ** Buffer pool and queue ([pixie_buffer.cpp])                         *)
(* ===================================================================== *)

Module Buffer.
Import Error.

(** [size_t] counters are 64 bits wide and wrap around. *)
Definition size_t_bits : Z := 64.
Definition wrap (z : Z) : Z := z mod 2 ^ size_t_bits.

(** [buffer] is a [std::vector<uint32_t>]: its words and its capacity.
    A vector keeps [size() <= capacity()] ([buffer_wf]), so
    [capacity() - size()] never wraps and is computed on [nat]. *)
Record buffer : Set := mk_buffer {
  data : list Z;
  capacity : nat
}.

Definition buffer_size (b : buffer) : nat := length (data b).

Definition buffer_wf (b : buffer) : Prop :=
  (buffer_size b <= capacity b)%nat.

(** [new buffer; buf->reserve(size)]. *)
Definition new_buffer (size_ : nat) : buffer :=
  {| data := []; capacity := size_ |}.

(** [clear()] keeps the capacity. *)
Definition clear (b : buffer) : buffer :=
  {| data := []; capacity := capacity b |}.

(** [to->insert(to->end(), first, last)]: the storage grows only when the
    new size exceeds the capacity. *)
Definition insert_end (b : buffer) (ws : list Z) : buffer :=
  {| data := data b ++ ws;
     capacity := Nat.max (capacity b) (length (data b ++ ws)) |}.

(** [from->erase(from->begin(), from->begin() + n)], which is also what
    [std::move(begin + n, end, begin)] followed by [resize(size - n)]
    leaves. *)
Definition erase_front (n : nat) (b : buffer) : buffer :=
  {| data := drop n (data b); capacity := capacity b |}.

(** A [handle] is a shared pointer to a buffer whose deleter gives the
    buffer back to its pool.  Every handle of the model owns its buffer
    alone, so a handle is the buffer it points to and dropping it is
    [pool.release]. *)
Abbreviation handle := buffer (only parsing).

(** *** pool *)
Module pool.

Record t : Set := mk {
  number : Z;
  size : Z;
  count_ : Z;
  buffers : list buffer
}.

(** [pool::pool()]. *)
Definition new : t :=
  {| number := 0; size := 0; count_ := 0; buffers := [] |}.

(** Modelled from the spec: [pool::empty()] is defined in the header, which
    is not part of the sources; the pool tracks the available count and
    [request] fails when the pool is exhausted, so [empty] is "no buffer
    available". *)
Definition empty (p : t) : bool := count_ p =? 0.

(** The [for] loop of [create]: [n] times [buffers.push_front(buf)]. *)
Fixpoint push_fresh (n : nat) (size_ : nat) (bufs : list buffer) : list buffer :=
  match n with
  | O => bufs
  | S n' => push_fresh n' size_ (new_buffer size_ :: bufs)
  end.

Definition create (number_ size_ : nat) (p : t) : outcome t :=
  if negb (number p =? 0) then
    Throw (sdk_error buffer_pool_not_empty "pool is already created")
  else
    Ok {| number := Z.of_nat number_;
          size := Z.of_nat size_;
          count_ := Z.of_nat number_;
          buffers := push_fresh number_ size_ (buffers p) |}.

Definition destroy (p : t) : outcome t :=
  if 0 <? number p then
    if negb (count_ p =? number p) then
      Throw (sdk_error buffer_pool_busy "pool destroy made while busy")
    else Ok {| number := 0; size := 0; count_ := 0; buffers := [] |}
  else Ok p.

Definition request (p : t) : outcome (handle * t) :=
  if empty p then
    Throw (sdk_error buffer_pool_empty "no buffers avaliable")
  else
    match buffers p with
    | [] => Undefined
    | buf :: rest =>
        Ok (buf, {| number := number p;
                    size := size p;
                    count_ := wrap (count_ p - 1);
                    buffers := rest |})
    end.

Definition release (buf : buffer) (p : t) : t :=
  {| number := number p;
     size := size p;
     count_ := wrap (count_ p + 1);
     buffers := clear buf :: buffers p |}.

(** [k] calls of [request] in a row, no release in between; the handles
    are listed in the order they were handed out. *)
Fixpoint request_n (k : nat) (p : t) : outcome (list handle * t) :=
  match k with
  | O => Ok ([], p)
  | S k' =>
      match request p with
      | Ok (h, p') =>
          match request_n k' p' with
          | Ok (hs, p'') => Ok (h :: hs, p'')
          | Throw e => Throw e
          | Undefined => Undefined
          end
      | Throw e => Throw e
      | Undefined => Undefined
      end
  end.

End pool.

(** A pool whose counter is the length of its free list. *)
Definition pool_inv (p : pool.t) : Prop :=
  pool.count_ p = Z.of_nat (length (pool.buffers p)) /\ pool.count_ p < 2 ^ 64.

(** *** queue *)
Module queue.

Record t : Set := mk {
  buffers : list handle;
  size_ : Z;
  count_ : Z
}.

(** [queue::queue()]. *)
Definition new : t := {| buffers := []; size_ := 0; count_ := 0 |}.

(** Modelled from the spec: [queue::size()] and [queue::count()] are
    defined in the header, which is not part of the sources; the queue
    "tracks total words and buffer count", and [output] prints them next
    to the two counters. *)
Definition size (q : t) : Z := size_ q.
Definition count (q : t) : Z := count_ q.

Definition push (buf : handle) (q : t) : t :=
  if (0 <? buffer_size buf)%nat then
    {| buffers := buffers q ++ [buf];
       size_ := wrap (size_ q + Z.of_nat (buffer_size buf));
       count_ := wrap (count_ q + 1) |}
  else q.

Definition pop (q : t) : outcome (handle * t) :=
  match buffers q with
  | [] => Undefined
  | buf :: rest =>
      Ok (buf, {| buffers := rest;
                  size_ := wrap (size_ q - Z.of_nat (buffer_size buf));
                  count_ := wrap (count_ q - 1) |})
  end.

(** The destination of [copy] is raw memory, a list of bytes; a word lies
    in it with its least significant byte first. *)
Definition word_bytes (w : Z) : list Z :=
  [ Z.land w 255;
    Z.land (Z.shiftr w 8) 255;
    Z.land (Z.shiftr w 16) 255;
    Z.land (Z.shiftr w 24) 255 ].

Definition words_bytes (ws : list Z) : list Z := flat_map word_bytes ws.

Definition sizeof_word : nat := 4.

(** [std::memcpy(to, src, n)], [to] counted in words from the start of
    the destination, [n] in bytes.  Reading past the source or writing
    past the destination is undefined. *)
Definition memcpy (mem : list Z) (to : nat) (src : list Z) (n : nat)
  : option (list Z) :=
  let off := (to * sizeof_word)%nat in
  if (off + n <=? length mem)%nat && (n <=? length src)%nat then
    Some (take off mem ++ take n src ++ drop (off + n) mem)
  else None.

(** The local state of [copy_unprotected]'s loop together with the two
    counters of the queue it updates. *)
Record copy_state : Set := mk_copy_state {
  cs_mem : list Z;
  cs_to : nat;
  cs_to_move : nat;
  cs_size_ : Z;
  cs_count_ : Z
}.

(** [while (to_move > 0 && from_bi != buffers.end())]: the argument is
    the range from [from_bi] to the end; the result is the range the loop
    has walked over, the handles as it leaves them, the range it has not
    reached, and the state. *)
Fixpoint copy_loop (from_bi : list handle) (st : copy_state)
  : option (list handle * list handle * copy_state) :=
  match from_bi with
  | [] => Some ([], [], st)
  | from :: rest =>
      if (0 <? cs_to_move st)%nat then
        if (buffer_size from <=? cs_to_move st)%nat then
          match memcpy (cs_mem st) (cs_to st) (words_bytes (data from))
                       (buffer_size from * sizeof_word) with
          | None => None
          | Some mem' =>
              let st' :=
                {| cs_mem := mem';
                   cs_to := cs_to st + buffer_size from;
                   cs_to_move := cs_to_move st - buffer_size from;
                   cs_size_ := wrap (cs_size_ st - Z.of_nat (buffer_size from));
                   cs_count_ := wrap (cs_count_ st - 1) |} in
              match copy_loop rest st' with
              | None => None
              | Some (walked, ahead, st'') =>
                  Some (clear from :: walked, ahead, st'')
              end
          end
        else
          match memcpy (cs_mem st) (cs_to st) (words_bytes (data from))
                       (cs_to_move st) with
          | None => None
          | Some mem' =>
              let from' := erase_front (cs_to_move st) from in
              let st' :=
                {| cs_mem := mem';
                   cs_to := cs_to st + buffer_size from';
                   cs_to_move := 0;
                   cs_size_ := wrap (cs_size_ st - Z.of_nat 0);
                   cs_count_ := cs_count_ st |} in
              match copy_loop rest st' with
              | None => None
              | Some (walked, ahead, st'') =>
                  Some (from' :: walked, ahead, st'')
              end
          end
      else Some ([], from_bi, st)
  end.

(** What [copy] hands back: the destination memory, the queue, and the
    handles the final [buffers.erase(buffers.begin(), from_bi)] has
    dropped. *)
Record copied : Set := mk_copied {
  to_mem : list Z;
  after : t;
  erased : list handle
}.

Definition copy_unprotected (to : list Z) (count : nat) (q : t)
  : outcome copied :=
  if Z.of_nat count >? size_ q then
    Throw (sdk_error buffer_pool_not_enough "not enough data in queue")
  else
    match copy_loop (buffers q)
            {| cs_mem := to; cs_to := 0; cs_to_move := count;
               cs_size_ := size_ q; cs_count_ := count_ q |} with
    | None => Undefined
    | Some (walked, ahead, st) =>
        Ok {| to_mem := cs_mem st;
              after := {| buffers := ahead;
                          size_ := cs_size_ st;
                          count_ := cs_count_ st |};
              erased := walked |}
    end.

(** [queue::copy(buffer_value_ptr to, const size_t count)]. *)
Definition copy (to : list Z) (count : nat) (q : t) : outcome copied :=
  copy_unprotected to count q.

(** The inner loop of [compact],
    [while (to_move > 0 && from_bi != buffers.end())], started at
    [from_bi = to_bi + 1].  The buffers it merges whole are the ones right
    behind [to]; they make up the range from [erase_from] to [erase_to].
    The result is [to], that range (the handles as they are left), the
    range from [erase_to] to the end, and [count_]. *)
Fixpoint compact_fill (to_move : nat) (to : handle) (from_bi : list handle)
    (cnt : Z) : handle * list handle * list handle * Z :=
  match from_bi with
  | [] => (to, [], [], cnt)
  | from :: rest =>
      if (0 <? to_move)%nat then
        if (buffer_size from <=? to_move)%nat then
          let '(to', erase_range, ahead, cnt') :=
            compact_fill (to_move - buffer_size from)
                         (insert_end to (data from)) rest
                         (wrap (cnt - 1)) in
          (to', clear from :: erase_range, ahead, cnt')
        else
          (insert_end to (take to_move (data from)), [],
           erase_front to_move from :: rest, cnt)
      else (to, [], from_bi, cnt)
  end.

(** One run of [while (to_bi != buffers.end())]: [before] is the range in
    front of [to_bi], the third argument the range from [to_bi] on.  The
    run ends with [rerun] set as soon as an erase has happened.  [n]
    bounds the number of iterations; [None] says the bound was too
    small. *)
Fixpoint compact_pass (n : nat) (before to_bi : list handle) (cnt : Z)
  : option (list handle * Z * bool) :=
  match to_bi with
  | [] => Some (before, cnt, false)
  | to :: rest =>
      match n with
      | O => None
      | S n' =>
          if (0 <? capacity to - buffer_size to)%nat then
            let '(to', erase_range, ahead, cnt') :=
              compact_fill (capacity to - buffer_size to) to rest cnt in
            match erase_range with
            | [] => compact_pass n' (before ++ [to']) ahead cnt'
            | _ :: _ => Some (before ++ to' :: ahead, cnt', true)
            end
          else compact_pass n' (before ++ [to]) rest cnt
      end
  end.

(** [while (rerun)], bounded by [n] runs. *)
Fixpoint compact_loop (n : nat) (bufs : list handle) (cnt : Z)
  : option (list handle * Z) :=
  match n with
  | O => None
  | S n' =>
      match compact_pass (length bufs) [] bufs cnt with
      | None => None
      | Some (bufs', cnt', rerun) =>
          if rerun then compact_loop n' bufs' cnt' else Some (bufs', cnt')
      end
  end.

(** [queue::compact]; every run but the last erases a buffer, so one run
    more than there are buffers is enough ([compact_returns]). *)
Definition compact (q : t) : option t :=
  match compact_loop (S (length (buffers q))) (buffers q) (count_ q) with
  | None => None
  | Some (bufs', cnt') =>
      Some {| buffers := bufs'; size_ := size_ q; count_ := cnt' |}
  end.

Definition flush (q : t) : t :=
  {| buffers := []; size_ := size_ q; count_ := count_ q |}.

(** The words the handles of the queue hold, front first. *)
Definition held_words (q : t) : list Z := flat_map data (buffers q).

(** The sum of the sizes of the handles the queue holds. *)
Definition held_size (q : t) : Z :=
  Z.of_nat (length (held_words q)).

(** The invariant of the two counters. *)
Definition inv (q : t) : Prop :=
  size q = held_size q /\ count q = Z.of_nat (length (buffers q)).

(** The two counters are [size_t] values. *)
Definition in_range (q : t) : Prop :=
  0 <= size_ q < 2 ^ 64 /\ 0 <= count_ q < 2 ^ 64.

(** The number of words in a range of handles. *)
Definition words_in (bufs : list handle) : nat :=
  length (flat_map data bufs).

(** A buffer of [n] sentinel words [lo], [lo + 1], ... *)
Definition sentinels (lo n : nat) : list Z := map Z.of_nat (seq lo n).

(** Scenario S4: three buffers of 100, 50 and 30 sentinel words. *)
Definition s4_queue : t :=
  push (mk_buffer (sentinels 150 30) 1024)
    (push (mk_buffer (sentinels 100 50) 1024)
       (push (mk_buffer (sentinels 0 100) 1024) new)).

(** [count_--], [k] times. *)
Definition dec (k : nat) (cnt : Z) : Z :=
  Nat.iter k (fun c => wrap (c - 1)) cnt.

(** A buffer without room, and a list of buffers in which only the last
    may have room: what [compact] leaves. *)
Definition full (b : buffer) : Prop := (capacity b - buffer_size b = 0)%nat.

Fixpoint settled (bufs : list handle) : Prop :=
  match bufs with
  | [] => True
  | b :: rest => (rest = [] \/ full b) /\ settled rest
  end.

End queue.
End Buffer.

(* ===================================================================== *)
(** ** Backplane ([backplane.cpp])                                        *)
(* ===================================================================== *)

Module Backplane.
Import Error.

(** Of a [module::module] the backplane reads the [number] only. *)
Record module : Set := mk_module { number : Z }.

(** Modelled from the spec: the constant [released] is declared in the
    header, which is not part of the sources; the spec gives the sentinel
    as -1, the value the constructor of [role] stores in [leader]. *)
Definition released : Z := -1.

Record role : Set := mk_role {
  leader : Z;
  label : string
}.

(** [role::role(label_)]. *)
Definition role_new (label_ : string) : role :=
  {| leader := -1; label := label_ |}.

(** [std::atomic<int>::compare_exchange_strong(expected, desired)] on the
    value [obj]: the value left in the atomic and whether it was
    exchanged. *)
Definition compare_exchange_strong (obj expected desired : Z) : Z * bool :=
  if obj =? expected then (desired, true) else (obj, false).

Definition request (r : role) (mod_ : module) : role * bool :=
  let expected := released in
  let desired := number mod_ in
  let '(l, requested) := compare_exchange_strong (leader r) expected desired in
  ({| leader := l; label := label r |}, requested).

Definition release (r : role) (mod_ : module) : role * bool :=
  let expected := number mod_ in
  let desired := released in
  let '(l, released_) := compare_exchange_strong (leader r) expected desired in
  ({| leader := l; label := label r |}, released_).

(** [sync_waits] is an atomic [int]: 32 bits, two's complement. *)
Definition wrap_int (z : Z) : Z := (z + 2 ^ 31) mod 2 ^ 32 - 2 ^ 31.

(** The conversion of an [int] to [size_t] in a mixed comparison. *)
Definition to_size_t (z : Z) : Z := z mod 2 ^ 64.

Record t : Set := mk {
  wired_or_triggers_pullup : role;
  run : role;
  director : role;
  sync_waits : Z;
  sync_waiters : list bool
}.

(** [backplane::backplane()]; [sync_waiters] is an array of [max_slots]
    flags (the constant is declared in a header that is not part of the
    sources, so it is an argument here), all [false]. *)
Definition new (max_slots : nat) : t :=
  {| wired_or_triggers_pullup := role_new "wired-or-triggers"%string;
     run := role_new "run"%string;
     director := role_new "director"%string;
     sync_waits := 0;
     sync_waiters := replicate max_slots false |}.

Definition set_sync (sw : Z) (waiters : list bool) (b : t) : t :=
  {| wired_or_triggers_pullup := wired_or_triggers_pullup b;
     run := run b;
     director := director b;
     sync_waits := sw;
     sync_waiters := waiters |}.

(** [backplane::sync_wait]: the backplane it leaves and how the call
    ends.  [sync_waiters[mod.number]] outside the array is undefined. *)
Definition sync_wait (mod_ : module) (synch_wait : Z) (b : t)
  : t * outcome unit :=
  let synch_wait_active := synch_wait =? 1 in
  if number mod_ <? 0 then (b, Undefined) else
  match sync_waiters b !! Z.to_nat (number mod_) with
  | None => (b, Undefined)
  | Some waiting =>
      if negb (Bool.eqb synch_wait_active waiting) then
        let sw :=
          if synch_wait_active then wrap_int (sync_waits b + 1)
          else wrap_int (sync_waits b - 1) in
        let b' :=
          set_sync sw
            (<[Z.to_nat (number mod_) := synch_wait_active]> (sync_waiters b))
            b in
        if (sw <? 0) || (to_size_t sw >? Z.of_nat (length (sync_waiters b)))
        then
          (b', Throw (sdk_error internal_failure
                        ("module: " ++ to_string (number mod_) ++
                         ": invalid backplane sync_wait value: " ++
                         to_string sw)%string))
        else (b', Ok tt)
      else (b, Ok tt)
  end.

Definition sync_wait_valid (b : t) : outcome unit :=
  let waits := sync_waits b in
  if negb (waits =? 0) &&
     negb (to_size_t waits =? Z.of_nat (length (sync_waiters b)))
  then
    Throw (sdk_error module_invalid_operation
             "sync wait mode enabled and not all modules in the sync wait state"%string)
  else Ok tt.

(** The number of flags set in [sync_waiters]. *)
Definition popcount (waiters : list bool) : Z :=
  Z.of_nat (length (filter (fun w => w = true) waiters)).

(** A run of [sync_wait] calls, each a module and the value it writes;
    the run stops at the first call that does not return. *)
Fixpoint sync_wait_all (calls : list (module * Z)) (b : t) : t * outcome unit :=
  match calls with
  | [] => (b, Ok tt)
  | (mod_, v) :: calls' =>
      match sync_wait mod_ v b with
      | (b', Ok _) => sync_wait_all calls' b'
      | (b', stop) => (b', stop)
      end
  end.

(** The invariant of the sync-wait bookkeeping. *)
Definition sync_inv (b : t) : Prop :=
  sync_waits b = popcount (sync_waiters b) /\
  0 <= sync_waits b <= Z.of_nat (length (sync_waiters b)).

(** A module whose number is a position of [sync_waiters], writing 0
    or 1. *)
Definition slot_call (b : t) (c : module * Z) : Prop :=
  0 <= number c.1 < Z.of_nat (length (sync_waiters b)) /\
  (c.2 = 0 \/ c.2 = 1).

(** Calls on a role, and a run of them with what each returned. *)
Inductive role_call : Set :=
  | call_request (m : module)
  | call_release (m : module).

Definition caller (c : role_call) : module :=
  match c with call_request m => m | call_release m => m end.

Definition do_call (c : role_call) (r : role) : role * bool :=
  match c with
  | call_request m => request r m
  | call_release m => release r m
  end.

Fixpoint do_calls (cs : list role_call) (r : role) : role * list bool :=
  match cs with
  | [] => (r, [])
  | c :: cs' =>
      let '(r', ok) := do_call c r in
      let '(r'', oks) := do_calls cs' r' in
      (r'', ok :: oks)
  end.

End Backplane.

(* ===================================================================== *)
(** ** List-mode save worker and its thread ([test_api.cpp])              *)
(* ===================================================================== *)

Module TestApi.
Import Error.

(** The fields of [module.run_stats] the worker reads ([in] and [out] in
    the source). *)
Record run_stats : Set := mk_run_stats {
  hw_overflows : Z;
  overflows : Z;
  fifo_in : Z;
  fifo_out : Z
}.

(** The operations of [module::module] the worker calls.  The module is
    implemented outside the sources at hand, so it is an interface here:
    each operation takes the module and returns the module it leaves, or
    throws.  [read_list_mode] yields the words it has appended to the
    (emptied) vector it is given; its return value is their number. *)
Record module_api (M : Type) : Type := mk_module_api {
  number : M -> Z;
  start_listmode : M -> outcome M;
  read_list_mode : M -> outcome (list Z * M);
  run_end : M -> outcome M;
  stats : M -> run_stats
}.
Arguments number {M} _ _.
Arguments start_listmode {M} _ _.
Arguments read_list_mode {M} _ _.
Arguments run_end {M} _ _.
Arguments stats {M} _ _.

(** [struct list_save_worker] with the fields of its base the worker and
    its thread write. *)
Record list_save_worker : Set := mk_worker {
  name : string;
  seconds : Z;
  run_task : bool;
  running : bool;
  total : Z
}.

Section Worker.
Context {M : Type} (api : module_api M).

(** What the worker acts on: the module, itself, and the words written
    to the output file so far. *)
Record world : Type := mk_world {
  the_module : M;
  self : list_save_worker;
  out : list Z
}.

(** State and exceptions. *)
Definition act (A : Type) : Type := world -> world * outcome A.

Definition ret {A} (a : A) : act A := fun w => (w, Ok a).
Definition throw {A} (e : exn) : act A := fun w => (w, Throw e).
Definition bind {A B} (m : act A) (k : A -> act B) : act B :=
  fun w =>
    match m w with
    | (w', Ok a) => k a w'
    | (w', Throw e) => (w', Throw e)
    | (w', Undefined) => (w', Undefined)
    end.

Notation "x <- m ;; k" := (bind m (fun x => k))
  (at level 100, m at next level, right associativity).
Notation "m ;;; k" := (bind m (fun _ => k))
  (at level 100, right associativity).

(** A call of a module operation. *)
Definition on_module {A} (op : M -> outcome (A * M)) : act A :=
  fun w =>
    match op (the_module w) with
    | Ok (a, m') =>
        ({| the_module := m'; self := self w; out := out w |}, Ok a)
    | Throw e => (w, Throw e)
    | Undefined => (w, Undefined)
    end.

Definition unit_op (op : M -> outcome M) (m : M) : outcome (unit * M) :=
  match op m with
  | Ok m' => Ok (tt, m')
  | Throw e => Throw e
  | Undefined => Undefined
  end.

Definition set_total (v : Z) : act unit :=
  fun w =>
    ({| the_module := the_module w;
        self := {| name := name (self w); seconds := seconds (self w);
                   run_task := run_task (self w);
                   running := running (self w); total := v |};
        out := out w |}, Ok tt).

Definition set_name (s : string) : act unit :=
  fun w =>
    ({| the_module := the_module w;
        self := {| name := s; seconds := seconds (self w);
                   run_task := run_task (self w);
                   running := running (self w); total := total (self w) |};
        out := out w |}, Ok tt).

Definition set_running (v : bool) (w : world) : world :=
  {| the_module := the_module w;
     self := {| name := name (self w); seconds := seconds (self w);
                run_task := run_task (self w);
                running := v; total := total (self w) |};
     out := out w |}.

(** [total += lm.size(); out.write(lm.data(), ...)]. *)
Definition save (lm : list Z) : act unit :=
  fun w =>
    ({| the_module := the_module w;
        self := {| name := name (self w); seconds := seconds (self w);
                   run_task := run_task (self w);
                   running := running (self w);
                   total := (total (self w) + Z.of_nat (length lm))
                              mod 2 ^ 64 |};
        out := out w ++ lm |}, Ok tt).

(** [lm.clear(); if (module.read_list_mode(lm) > 0) { ... }]; in the poll
    loop the other branch waits, which the model does not see. *)
Definition drain : act unit :=
  lm <- on_module (read_list_mode api) ;;
  if (0 <? length lm)%nat then save lm else ret tt.

(** [while (period.secs() < seconds)]: the clock is outside the model;
    [polls] is the number of times the test holds before the deadline. *)
Fixpoint poll_loop (polls : nat) : act unit :=
  match polls with
  | O => ret tt
  | S polls' => drain ;;; poll_loop polls'
  end.

(** The three checks of the run statistics at the end of a run task. *)
Definition check_stats : act unit :=
  fun w =>
    let st := stats api (the_module w) in
    if negb (hw_overflows st =? 0) then
      (w, Throw (runtime_error
                   "list mode: EXT FIFO overflow (check workflow config)"))
    else if negb (overflows st =? 0) then
      (w, Throw (runtime_error
                   "list mode: data FIFO overflow (check buffer sizes)"))
    else if negb (fifo_in st =? fifo_out st) then
      (w, Throw (runtime_error "list mode: data left in data FIFO"))
    else (w, Ok tt).

(** [list_save_worker::worker] up to the end of the poll loop.  [opened]
    says whether the output file could be opened, [strerror] is the text
    of [errno] if not; [task] is the worker's [run_task]. *)
Definition list_mode_run (opened : bool) (strerror : string) (polls : nat)
    (task : bool) : act unit :=
  fun w =>
    let name' :=
      (name (self w) ++ "-" ++ to_string (number api (the_module w))
         ++ ".lmd")%string in
    (set_name name' ;;;
     if negb opened then
       throw (runtime_error
                ("list mode file open: " ++ name' ++ ": " ++ strerror)%string)
     else
       (if task
        then on_module (unit_op (start_listmode api))
        else ret tt) ;;;
       set_total 0 ;;;
       poll_loop polls) w.

(** The end of a run task: [run_end], one more read, the checks. *)
Definition list_mode_exit : act unit :=
  on_module (unit_op (run_end api)) ;;;
  drain ;;;
  check_stats.

(** [list_save_worker::worker]. *)
Definition worker (opened : bool) (strerror : string) (polls : nat)
  : act unit :=
  fun w =>
    (list_mode_run opened strerror polls (run_task (self w)) ;;;
     if run_task (self w) then list_mode_exit else ret tt) w.

(** What the thread of [module_threads] leaves in its promise. *)
Inductive promise : Set :=
  | set_value (c : code)
  | set_exception (e : exn).

(** The body of the thread: the world it leaves and the promise; a run
    without defined behaviour sets no promise. *)
Definition thread_body (opened : bool) (strerror : string) (polls : nat)
    (w : world) : world * option promise :=
  match worker opened strerror polls (set_running true w) with
  | (w', Ok _) => (set_running false w', Some (set_value success))
  | (w', Throw (sdk_error type _)) =>
      (set_running false w', Some (set_value type))
  | (w', Throw e) => (set_running false w', Some (set_exception e))
  | (w', Undefined) => (w', None)
  end.

(** [future.get()]. *)
Definition future_get (p : promise) : outcome code :=
  match p with
  | set_value c => Ok c
  | set_exception e => Throw e
  end.

(** A module none of whose operations throws. *)
Definition never_fails : Prop :=
  (forall m : M, exists m' : M, start_listmode api m = Ok m') /\
  (forall m : M, exists (lm : list Z) (m' : M),
     read_list_mode api m = Ok (lm, m')) /\
  (forall m : M, exists m' : M, run_end api m = Ok m').

(** The statistics pass the three checks. *)
Definition clean (st : run_stats) : Prop :=
  hw_overflows st = 0 /\ overflows st = 0 /\ fifo_in st = fifo_out st.

End Worker.

(** A simulated module: the chunks of words its FIFO will hand out, one
    per read, and its run statistics; no operation fails. *)
Record sim_module : Set := mk_sim {
  sim_number : Z;
  sim_fifo : list (list Z);
  sim_stats : run_stats
}.

Definition sim_read (m : sim_module) : outcome (list Z * sim_module) :=
  match sim_fifo m with
  | [] => Ok ([], m)
  | chunk :: rest =>
      Ok (chunk, {| sim_number := sim_number m; sim_fifo := rest;
                    sim_stats := sim_stats m |})
  end.

Definition sim_api : module_api sim_module :=
  {| number := sim_number;
     start_listmode := fun m => Ok m;
     read_list_mode := sim_read;
     run_end := fun m => Ok m;
     stats := sim_stats |}.

(** A run task on a simulated module whose FIFO hands out four chunks
    and whose statistics are [st]. *)
Definition sim_world (st : run_stats) : world :=
  {| the_module :=
       {| sim_number := 3;
          sim_fifo := [[1; 2]; []; [3]; [4; 5; 6]];
          sim_stats := st |};
     self := {| name := "out"; seconds := 5; run_task := true;
                running := false; total := 0 |};
     out := [] |}.

End TestApi.

(* ===================================================================== *)
(** ** The legacy crate ([pixie_crate.cpp])                               *)
(* ===================================================================== *)

Module LegacyCrate.
Import Error.

Section Crate.
(** The PCI layer is not part of the sources: the device handle of a
    module, the handle of a default-constructed module, the search (it
    fills in the handle it is given) and the two accessors. *)
Context {device : Type} (fresh : device)
        (pci_find_module : nat -> device -> bool * device)
        (pci_bus pci_slot : device -> Z).

(** [module::module] as far as the crate reads it. *)
Record module : Type := mk_module { module_device : device }.

Record crate : Type := mk_crate {
  num_modules : nat;
  modules : list module
}.

(** [crate::crate(size_t num_modules_)]. *)
Definition crate_new (num_modules_ : nat) : outcome crate :=
  if negb (num_modules_ =? 0)%nat then
    Throw (crate_error "crate already initialised")
  else Ok {| num_modules := num_modules_; modules := [] |}.

(** The predicate of the [std::find_if] scan. *)
Definition same_place (a b : module) : bool :=
  (pci_bus (module_device a) =? pci_bus (module_device b)) &&
  (pci_slot (module_device a) =? pci_slot (module_device b)).

(** [std::find_if(modules.begin(), modules.end(), ...)]: the position
    found, [None] for [modules.end()]. *)
Fixpoint find_if (p : module -> bool) (l : list module) : option nat :=
  match l with
  | [] => None
  | m :: l' => if p m then Some O
               else match find_if p l' with
                    | Some i => Some (S i)
                    | None => None
                    end
  end.

Definition found_of (what : string) (size_ num : nat) : string :=
  (what ++ " (found " ++ to_string (Z.of_nat size_) ++ " of " ++
   to_string (Z.of_nat num) ++ ")")%string.

(** The [for] loop of [initialize]: [todo] devices are left to visit,
    [device_number] is the next; the result is [modules] and how the loop
    ends. *)
Fixpoint scan (num : nat) (todo : nat) (device_number : nat)
    (mods : list module) : list module * outcome unit :=
  match todo with
  | O => (mods, Ok tt)
  | S todo' =>
      let '(found, dev) := pci_find_module device_number fresh in
      let module_ := {| module_device := dev |} in
      let mods' := mods ++ [module_] in
      if negb found then (mods', Ok tt)
      else
        match find_if (fun m => same_place m module_) mods' with
        | Some _ =>
            (mods', Throw (crate_error
               (found_of "duplicate Pixie16 module found"
                         (length mods') num)))
        | None => scan num todo' (S device_number) mods'
        end
  end.

(** [crate::initialize]. *)
Definition initialize (c : crate) : crate * outcome unit :=
  match scan (num_modules c) (num_modules c) 0 (modules c) with
  | (mods, Ok _) =>
      let c' := {| num_modules := num_modules c; modules := mods |} in
      if negb (length mods =? num_modules c)%nat then
        (c', Throw (crate_error
           (found_of "Pixie16 module(s) not found"
                     (length mods) (num_modules c))))
      else (c', Ok tt)
  | (mods, stop) =>
      ({| num_modules := num_modules c; modules := mods |}, stop)
  end.

End Crate.
End LegacyCrate.

(* ===================================================================== *)
(** ** Result codes at the API boundary ([pixie_error.cpp])               *)
(* ===================================================================== *)

Module ErrorApi.
Import Error.

(** Arithmetic on [int]. *)
Definition to_int (z : Z) : Z := (z + 2 ^ 31) mod 2 ^ 32 - 2 ^ 31.

(** [return_code(int result)]. *)
Definition return_code (result : Z) : Z := to_int (0 - result).

(** [error::result()] and [error::return_code()] of an error of the type
    [type]. *)
Definition error_result (type : code) : outcome Z := api_result type.

Definition error_return_code (type : code) : outcome Z :=
  match error_result type with
  | Ok r => Ok (to_int (0 - r))
  | Throw e => Throw e
  | Undefined => Undefined
  end.

Definition api_result_unknown_error : outcome Z := api_result unknown_error.

Definition api_result_not_supported : outcome Z := api_result not_supported.

(** The result of a code, read off [api_result]. *)
Definition result_of (c : code) : Z :=
  match api_result c with Ok r => r | _ => -1 end.

(** The first code of the table, in the order of the enumeration, with
    the result [r]. *)
Definition code_with (r : Z) : option code :=
  head (filter (fun c => bool_decide (is_Some (result_codes !! c))
                         && (result_of c =? r) = true)
               enumerators).

End ErrorApi.

(* ===================================================================== *)
(** ** Test data of the system test utility ([utilities/src/pixie.cpp])   *)
(* ===================================================================== *)

Module SystemTest.

(** Arithmetic on [unsigned int]. *)
Definition uint (z : Z) : Z := z mod 2 ^ 32.

Inductive DATA_PATTERN : Set :=
  | HI_LO | FLIP_FLOP | RAMP_UP | RAMP_DOWN | CONSTANT | EVEN_BITS
  | ODD_BITS | ZERO.

Definition convert_string_to_data_pattern (input : string) : DATA_PATTERN :=
  if (input =? "HI_LO")%string then HI_LO
  else if (input =? "FLIP_FLOP")%string then FLIP_FLOP
  else if (input =? "RAMP_UP")%string then RAMP_UP
  else if (input =? "RAMP_DOWN")%string then RAMP_DOWN
  else if (input =? "CONSTANT")%string then CONSTANT
  else if (input =? "EVEN_BITS")%string then EVEN_BITS
  else if (input =? "ODD_BITS")%string then ODD_BITS
  else ZERO.

Definition verify_power_of_two (value : Z) : bool :=
  negb (value =? 0) && (Z.land value (uint (value - 1)) =? 0).

(** The two words one turn of the loop of [prepare_data_to_write]
    appends. *)
Definition emplace_pair (data_pattern : DATA_PATTERN) (size entry : Z)
  : list Z :=
  match data_pattern with
  | HI_LO => [0xAAAA5555; 0x5555AAAA]
  | FLIP_FLOP => [0xA0500A05; 0x50A0050A]
  | RAMP_UP => [entry; uint (entry + 1)]
  | RAMP_DOWN => [uint (size - entry); uint (size - entry - 1)]
  | CONSTANT => [0x50f750fa; 0x50f750fa]
  | EVEN_BITS => [0xA5A5A5A5; 0xA5A5A5A5]
  | ODD_BITS => [0x5A5A5A5A; 0x5A5A5A5A]
  | ZERO => [0; 0]
  end.

(** [for (entry = 0; entry < size; entry += 2)], at most [n] turns;
    [None] says [n] turns were not enough. *)
Fixpoint data_loop (n : nat) (data_pattern : DATA_PATTERN) (size entry : Z)
  : option (list Z) :=
  if entry <? size then
    match n with
    | O => None
    | S n' =>
        match data_loop n' data_pattern size (uint (entry + 2)) with
        | Some data => Some (emplace_pair data_pattern size entry ++ data)
        | None => None
        end
    end
  else Some [].

(** What [prepare_data_to_write] does: it throws [std::invalid_argument]
    or returns the data. *)
Inductive prepared : Set :=
  | invalid_argument (what : string)
  | data_of (data : list Z)
  | no_end.

Definition prepare_data_to_write (data_pattern : DATA_PATTERN) (size : Z)
  : prepared :=
  if negb (verify_power_of_two size) then
    invalid_argument "Test data must have a size that's a power of 2!!"
  else
    match data_loop (Z.to_nat size) data_pattern size 0 with
    | Some data => data_of data
    | None => no_end
    end.

(** [verify_api_return_value]: its result; the text it prints is left
    out. *)
Definition verify_api_return_value (val : Z) : bool := negb (val <? 0).

(** The loop of [verify_data_read] from [idx] on, [n] turns: the number of
    positions at which the arrays differ; [None] for a read outside an
    array. *)
Fixpoint count_errors (n idx : nat) (expected returned : list Z)
    (error_count : Z) : option Z :=
  match n with
  | O => Some error_count
  | S n' =>
      match expected !! idx, returned !! idx with
      | Some e, Some r =>
          count_errors n' (S idx) expected returned
            (if negb (e =? r) then uint (error_count + 1) else error_count)
      | _, _ => None
      end
  end.

(** [verify_data_read]; the [unsigned] count is returned as an [int]. *)
Definition verify_data_read (expected returned : list Z) (size : nat)
  : option Z :=
  match count_errors size 0 expected returned 0 with
  | Some error_count => Some (ErrorApi.to_int error_count)
  | None => None
  end.

End SystemTest.

(* ===================================================================== *)
(** ** Users of the pool and the queue ([pixie_buffer.cpp])               *)
(* ===================================================================== *)

Module BufferUse.
Import Error Buffer.

(** What a user does with a pool: ask for a buffer, write words into a
    buffer it holds, give a buffer it holds back.  The buffers held are
    numbered in the order they were handed out. *)
Inductive pool_op : Set :=
  | op_request
  | op_fill (i : nat) (ws : list Z)
  | op_release (i : nat).

(** [buf->insert(buf->end(), ...)] by the holder of the handle. *)
Definition fill (ws : list Z) (b : buffer) : buffer := insert_end b ws.

(** One step: the pool and the handles held afterwards.  A request on an
    exhausted pool throws and changes nothing; steps that name a handle
    not held do nothing. *)
Definition pool_step (op : pool_op) (st : pool.t * list handle)
  : pool.t * list handle :=
  let '(p, held) := st in
  match op with
  | op_request =>
      match pool.request p with
      | Ok (h, p') => (p', held ++ [h])
      | _ => (p, held)
      end
  | op_fill i ws =>
      match held !! i with
      | Some h => (p, <[i := fill ws h]> held)
      | None => (p, held)
      end
  | op_release i =>
      match held !! i with
      | Some h => (pool.release h p, delete i held)
      | None => (p, held)
      end
  end.

Definition pool_run (ops : list pool_op) (st : pool.t * list handle)
  : pool.t * list handle :=
  foldl (fun st op => pool_step op st) st ops.

(** The accounting of a pool of [N] buffers of capacity [C]. *)
Definition accounted (N C : nat) (st : pool.t * list handle) : Prop :=
  pool.number st.1 = Z.of_nat N /\
  pool.size st.1 = Z.of_nat C /\
  pool.count_ st.1 = Z.of_nat (length (pool.buffers st.1)) /\
  (length (pool.buffers st.1) + length st.2 = N)%nat /\
  Forall (fun b => data b = [] /\ (C <= capacity b)%nat) (pool.buffers st.1) /\
  Forall (fun b => (C <= capacity b)%nat) st.2.

(** [queue.push] of each buffer in turn, and [k] times [queue.pop]. *)
Definition push_all (bufs : list handle) (q : queue.t) : queue.t :=
  foldl (fun q b => queue.push b q) q bufs.

Fixpoint pop_n (k : nat) (q : queue.t) : outcome (list handle * queue.t) :=
  match k with
  | O => Ok ([], q)
  | S k' =>
      match queue.pop q with
      | Ok (h, q') =>
          match pop_n k' q' with
          | Ok (hs, q'') => Ok (h :: hs, q'')
          | Throw e => Throw e
          | Undefined => Undefined
          end
      | Throw e => Throw e
      | Undefined => Undefined
      end
  end.

(** Words read back from memory, least significant byte first. *)
Fixpoint bytes_words (bytes : list Z) : list Z :=
  match bytes with
  | b0 :: b1 :: b2 :: b3 :: rest =>
      Z.lor b0 (Z.lor (Z.shiftl b1 8) (Z.lor (Z.shiftl b2 16) (Z.shiftl b3 24)))
        :: bytes_words rest
  | _ => []
  end.

(** [to.resize(count)]: new words are 0. *)
Definition resize (count : nat) (b : buffer) : buffer :=
  {| data := take count (data b) ++ replicate (count - buffer_size b) 0;
     capacity := Nat.max (capacity b) count |}.

(** [queue::copy(buffer& to)]: [to] as it is left, the queue, and the
    handles erased.  The memory [to.data()] points to is the words of
    [to]. *)
Definition copy_to (to : buffer) (q : queue.t)
  : outcome (buffer * queue.t * list handle) :=
  let count := buffer_size to in
  let '(count, to) :=
    if (count =? 0)%nat
    then (Z.to_nat (queue.size_ q), resize (Z.to_nat (queue.size_ q)) to)
    else (count, to) in
  match queue.copy_unprotected (queue.words_bytes (data to)) count q with
  | Ok r =>
      Ok ({| data := bytes_words (queue.to_mem r); capacity := capacity to |},
          queue.after r, queue.erased r)
  | Throw e => Throw e
  | Undefined => Undefined
  end.

(** A word of 32 bits. *)
Definition is_word (w : Z) : Prop := 0 <= w < 2 ^ 32.

(** A buffer as [compact] likes it: within its capacity [C] and not
    empty. *)
Definition packed_in (C : nat) (b : buffer) : Prop :=
  capacity b = C /\ (0 < buffer_size b <= C)%nat.

End BufferUse.

(* ===================================================================== *)
(** ** The command line of the test tool ([test_api.cpp])                 *)
(* ===================================================================== *)

Module TestCommands.
Import Error.
Local Open Scope string_scope.

(** The handlers: a [command] names its handler by a function pointer. *)
Module handler.
Inductive t : Set :=
  | adc_acq | adc_save | adj_off | bl_acq | bl_save | boot
  | crate_report | export_ | help | hist_resume | hist_save
  | hist_start | import | list_mode | list_resume | list_save
  | list_start | lset_import | lset_load | lset_report | par_read
  | par_write | report | run_active | run_end | set_dacs | stats | test
  | var_read | var_write | wait.
End handler.

Module command.
Record t : Set := mk {
  name : string;
  call : handler.t;
  aliases : list string;
  boot : string;
  help : string;
  help_cmd : string
}.
End command.

Definition adc_acq_cmd : command.t :=
  command.mk "adc-acq" handler.adc_acq [] "init,probe"
    "Acquire a module's ADC trace"
    "adc-acq [modules(s)]".

Definition adc_save_cmd : command.t :=
  command.mk "adc-save" handler.adc_save [] "init,probe"
    "Save a module's ADC trace to a file"
    "adc-save [modules(s) [channel(s) [length]]]".

Definition adj_off_cmd : command.t :=
  command.mk "adj-off" handler.adj_off [] "init,probe"
    "Adjust the module's offsets"
    "adj-off [modules(s)]".

Definition bl_acq_cmd : command.t :=
  command.mk "bl-acq" handler.bl_acq [] "init,probe"
    "Acquire module baselines"
    "bl-acq [module(s)]".

Definition bl_save_cmd : command.t :=
  command.mk "bl-save" handler.bl_save [] "init,probe"
    "Save the module's baselines"
    "bl-save [module(s) [channel(s)]]".

Definition boot_cmd : command.t :=
  command.mk "boot" handler.boot ["b"] "init,probe"
    "Boots the module(s)"
    "boot".

Definition crate_cmd : command.t :=
  command.mk "crate" handler.crate_report [] "init,probe"
    "Report the crate"
    "crate".

Definition export_cmd : command.t :=
  command.mk "export" handler.export_ [] "init,probe"
    "Export a configuration to a JSON file"
    "export file".

Definition help_cmd : command.t :=
  command.mk "help" handler.help [] "init,probe"
    "Command specific help"
    "help [command]".

Definition hist_resume_cmd : command.t :=
  command.mk "hist-resume" handler.hist_resume ["hr"] "init,probe"
    "Resume module histograms"
    "hist-resume [module(s)]".

Definition hist_save_cmd : command.t :=
  command.mk "hist-save" handler.hist_save ["hv"] "init,probe"
    "Save a module's histogram to a file"
    "hist-save [-b bins] [module(s) [channel(s)]]".

Definition hist_start_cmd : command.t :=
  command.mk "hist-start" handler.hist_start ["hs"] "init,probe"
    "Start module histograms"
    "hist-start [module(s)]".

Definition import_cmd : command.t :=
  command.mk "import" handler.import [] "init,probe"
    "Import a JSON configuration file"
    "import file".

Definition list_mode_cmd : command.t :=
  command.mk "list-mode" handler.list_mode ["lm"] "init,probe"
    "Run list mode saving the data to a file"
    "list-mode module(s) secs file".

Definition list_resume_cmd : command.t :=
  command.mk "list-resume" handler.list_resume ["lr"] "init,probe"
    "Resume module list mode"
    "list-resume [module(s)]".

Definition list_save_cmd : command.t :=
  command.mk "list-save" handler.list_save ["ls"] "init,probe"
    "Save a module's list-mode data to a file"
    "list-save module(s) secs file".

Definition list_start_cmd : command.t :=
  command.mk "list-start" handler.list_start [] "init,probe"
    "Start module list mode"
    "list-start [module(s)]".

Definition lset_import_cmd : command.t :=
  command.mk "lset-import" handler.lset_import ["lsi"] "init,probe"
    "Import a legacy settings file to a module"
    "lset-import module(s) file [flush/sync]".

Definition lset_load_cmd : command.t :=
  command.mk "lset-load" handler.lset_load ["lsl"] "init,probe"
    "Load a legacy settings file to a module's DSP memory"
    "lset-load module(s) file [flush/sync]".

Definition lset_report_cmd : command.t :=
  command.mk "lset-report" handler.lset_report ["lsr"] "init,probe"
    "Output a legacy settings file in a readable format"
    "lset-report module(s) file".

Definition par_read_cmd : command.t :=
  command.mk "par-read" handler.par_read ["pr"] "init,probe"
    "Read module/channel parameter"
    "par-read module(s) param [channel(s)]".

Definition par_write_cmd : command.t :=
  command.mk "par-write" handler.par_write [] "init,probe"
    "Write module/channel parameter"
    "par-write module(s) param [channel(s)] value".

Definition report_cmd : command.t :=
  command.mk "report" handler.report ["re"] "init,probe"
    "Report the crate's configuration"
    "report file".

Definition run_active_cmd : command.t :=
  command.mk "run-active" handler.run_active ["ra"] "init,probe"
    "Does the module have an active run?"
    "run-active [module(s)]".

Definition run_end_cmd : command.t :=
  command.mk "run-end" handler.run_end ["re"] "init,probe"
    "End module run's"
    "run-end [module(s)]".

Definition set_dacs_cmd : command.t :=
  command.mk "set-dacs" handler.set_dacs [] "init,probe"
    "Set the module's DACs"
    "set-dacs [modules(s)]".

Definition stats_cmd : command.t :=
  command.mk "stats" handler.stats ["st"] "init,probe"
    "Module/channel stats"
    "stats [-s stat (pe/ocr/rt/lt)] [module(s) [channel(s)]]".

Definition test_cmd : command.t :=
  command.mk "test" handler.test [] "init,probe"
    "Test control, default mode is 'off'"
    "test [-m mode (off/lmfifo)] [module(s)]".

Definition var_read_cmd : command.t :=
  command.mk "var-read" handler.var_read [] "init,probe"
    "Read module/channel variable"
    "var-read module(s) param [channel(s) [offset(s)]]".

Definition var_write_cmd : command.t :=
  command.mk "var-write" handler.var_write [] "init,probe"
    "Write module/channel variable"
    "var-write module(s) param [channel(s) [offset(s)]] value".

Definition wait_cmd : command.t :=
  command.mk "wait" handler.wait [] "none"
    "wait a number of msecs"
    "wait msecs".

Abbreviation args_command := string (only parsing).

(** An iterator of [std::map<std::string, const command&>] is the entry it
    points to, [None] for [commands.end()]. *)
Definition command_map : Set := list (string * command.t).

(** [commands], as the map is iterated: in the order of its keys, which
    is the order of the initializer. *)
Definition commands : command_map :=
  [("adc-acq", adc_acq_cmd);
   ("adc-save", adc_save_cmd);
   ("adj-off", adj_off_cmd);
   ("bl-acq", bl_acq_cmd);
   ("bl-save", bl_save_cmd);
   ("boot", boot_cmd);
   ("crate", crate_cmd);
   ("export", export_cmd);
   ("help", help_cmd);
   ("hist-resume", hist_resume_cmd);
   ("hist-save", hist_save_cmd);
   ("hist-start", hist_start_cmd);
   ("import", import_cmd);
   ("list-mode", list_mode_cmd);
   ("list-resume", list_resume_cmd);
   ("list-save", list_save_cmd);
   ("list-start", list_start_cmd);
   ("lset-import", lset_import_cmd);
   ("lset-load", lset_load_cmd);
   ("lset-report", lset_report_cmd);
   ("par-read", par_read_cmd);
   ("par-write", par_write_cmd);
   ("report", report_cmd);
   ("run-active", run_active_cmd);
   ("run-end", run_end_cmd);
   ("set-dacs", set_dacs_cmd);
   ("stats", stats_cmd);
   ("test", test_cmd);
   ("var-read", var_read_cmd);
   ("var-write", var_write_cmd);
   ("wait", wait_cmd)].

(** [starts_with]. *)
Definition starts_with (s1 s2 : string) : bool :=
  (String.length s2 <=? String.length s1)%nat &&
  (substring 0 (String.length s2) s1 =? s2).

(** The arguments from [ci] to [ce] are the list of those left. *)
Definition args_count (ci : list args_command) : nat := length ci.

(** The loop of [find_command] from the iterator [ci] on. *)
Fixpoint find_from (ci : command_map) (opt : args_command)
  : option (string * command.t) :=
  match ci with
  | [] => None
  | e :: ci' =>
      let cmd := e.2 in
      if command.name cmd =? opt then Some e
      else if existsb (fun alias => alias =? opt) (command.aliases cmd)
           then Some e
           else find_from ci' opt
  end.

Definition find_command (opt : args_command) : option (string * command.t) :=
  find_from commands opt.

Definition valid_command (ci : option (string * command.t)) : bool :=
  match ci with Some _ => true | None => false end.

Definition valid_option (ci : list args_command) (count : nat) : bool :=
  if (args_count ci <? count)%nat then false
  else forallb (fun opt => negb (valid_command (find_command opt)))
               (take count ci).

Definition bind {A B} (m : outcome A) (k : A -> outcome B) : outcome B :=
  match m with
  | Ok a => k a
  | Throw e => Throw e
  | Undefined => Undefined
  end.

Local Notation "x <- m ;; k" := (bind m (fun x => k))
  (at level 100, m at next level, right associativity).

(** [switch_option]: the option and the iterator [ci] as it is left. *)
Definition switch_option (opt_switch : string) (ci : list args_command)
    (has_opt : bool) : outcome (args_command * list args_command) :=
  match ci with
  | [] => Ok ("", ci)
  | opt :: ci1 =>
      if negb (valid_command (find_command opt)) &&
         starts_with opt opt_switch
      then
        r <- (if opt =? opt_switch then
                if has_opt then
                  match ci1 with
                  | [] => Throw (runtime_error
                                   ("no option with switch: " ++ opt_switch))
                  | sopt :: ci2 => Ok (sopt, ci2)
                  end
                else Ok ("", ci1)
              else
                let sopt :=
                  substring (String.length opt_switch)
                    (String.length opt - String.length opt_switch) opt in
                if has_opt && (sopt =? "") then
                  Throw (runtime_error
                           ("no option with switch: " ++ opt_switch))
                else Ok (sopt, ci1)) ;;
        if negb has_opt && (r.1 =? "") then Ok ("true", r.2) else Ok r
      else Ok ("", ci)
  end.

Section Crate.
(** The crate class is not part of the sources.  Of a crate the tool
    uses the calls below, the number of modules and, of each module of
    [crate.modules], [online()]. *)
Context {crate : Type}
        (crate_initialize : bool -> crate -> outcome crate)
        (crate_assign : list (Z * Z) -> crate -> outcome crate)
        (crate_set_firmware : crate -> outcome crate)
        (crate_probe : crate -> outcome crate)
        (num_modules_of : crate -> nat)
        (modules_online : crate -> list bool).

(** The handlers by their names: the iterator [ci] and the crate as the
    handler leaves them. *)
Context (call : handler.t -> list args_command -> crate ->
                outcome (list args_command * crate)).

Definition initialize (num_modules : nat) (slot_map : list (Z * Z))
    (reg_trace : bool) (c : crate) : outcome crate :=
  c <- crate_initialize reg_trace c ;;
  if negb (num_modules =? 0)%nat &&
     negb (num_modules_of c =? num_modules)%nat
  then Throw (runtime_error
                ("invalid number of modules detected: found " ++
                 to_string (Z.of_nat (num_modules_of c))))
  else
    match slot_map with
    | [] => Ok c
    | _ => crate_assign slot_map c
    end.

Definition probe (c : crate) : outcome crate :=
  c <- crate_set_firmware c ;;
  crate_probe c.

(** The loop of [process_commands]; [None] when the steps allowed are
    used up. *)
Fixpoint process_loop (steps : nat) (num_modules : nat)
    (slot_map : list (Z * Z)) (reg_trace : bool)
    (ci : list args_command) (init_done probe_done : bool) (c : crate)
  : option (outcome crate) :=
  match steps with
  | O => None
  | S steps' =>
      match ci with
      | [] => Some (Ok c)
      | opt :: ci =>
          match find_command opt with
          | Some fci =>
              let cmd := fci.2 in
              let booted :=
                s1 <- (if negb init_done && contains "init" (command.boot cmd)
                       then c <- initialize num_modules slot_map reg_trace c ;;
                            Ok (c, true)
                       else Ok (c, init_done)) ;;
                s2 <- (if negb s1.2 && contains "probe" (command.boot cmd)
                       then c <- probe s1.1 ;; Ok (c, true)
                       else Ok (s1.1, probe_done)) ;;
                r <- call (command.call cmd) ci s2.1 ;;
                Ok (r, s1.2, s2.2) in
              match booted with
              | Ok (ci', c', init_done', probe_done') =>
                  process_loop steps' num_modules slot_map reg_trace
                    ci' init_done' probe_done' c'
              | Throw e => Some (Throw e)
              | Undefined => Some Undefined
              end
          | None => Some (Throw (runtime_error ("invalid command: " ++ opt)))
          end
      end
  end.

(** [process_commands]: every turn of the loop takes an argument, so
    one step more than there are arguments is enough when no handler moves
    [ci] back. *)
Definition process_commands (opts : list args_command) (num_modules : nat)
    (slot_map : list (Z * Z)) (reg_trace : bool) (c : crate)
  : option (outcome crate) :=
  process_loop (S (length opts)) num_modules slot_map reg_trace
    opts false false c.

(** A handler leaves [ci] where it was or further on. *)
Definition moves_on : Prop :=
  forall (h : handler.t) (ci ci' : list args_command) (c c' : crate),
    call h ci c = Ok (ci', c') -> (length ci' <= length ci)%nat.

(** [module_check]. *)
Fixpoint module_check (c : crate) (mod_nums : list nat) : outcome unit :=
  match mod_nums with
  | [] => Ok tt
  | mod_num :: rest =>
      if (num_modules_of c <? mod_num)%nat then
        Throw (runtime_error
                 ("invalid module number: " ++ to_string (Z.of_nat mod_num)))
      else
        match modules_online c !! mod_num with
        | None => Undefined
        | Some online =>
            if negb online then
              Throw (runtime_error
                       ("module offline: " ++ to_string (Z.of_nat mod_num)))
            else module_check c rest
        end
  end.

Definition EXIT_SUCCESS : Z := 0.

(** [main] from its second [try] on: [body] is how the block ends, the
    result is what [main] returns. *)
Definition main_try (body : outcome crate) : outcome Z :=
  match body with
  | Ok _ => Ok EXIT_SUCCESS
  | Throw (sdk_error type _) => ErrorApi.error_return_code type
  | Throw _ => ErrorApi.api_result_unknown_error
  | Undefined => Undefined
  end.

End Crate.

End TestCommands.


(* ===================================================================== *)
(** ** The supervisor of the module threads ([test_api.cpp])              *)
(* ===================================================================== *)

Module ModuleThreads.
Import Error TestApi.

(** A thread as the loop of [module_threads] sees it: the pass of the
    loop in which its future is first found ready, what its promise holds
    by then, and whether the future is still valid. *)
Record thread : Set := mk_thread {
  ready_at : nat;
  held : promise;
  valid : bool
}.

(** After [future.get()] the future is not valid. *)
Definition got (th : thread) : thread :=
  {| ready_at := ready_at th; held := held th; valid := false |}.

(** The threads in the pass [pass], none of which threw in [get()]
    before: the futures that were ready earlier have been taken. *)
Definition at_pass (pass : nat) (ws : list (nat * promise)) : list thread :=
  map (fun w => {| ready_at := w.1; held := w.2;
                   valid := (pass <=? w.1)%nat |}) ws.

(** How [module_threads] ends.  An exception that leaves [future.get()]
    unwinds past [threads], whose thread [t] is not joined yet, and the
    destructor of a joinable [std::thread] calls [std::terminate]. *)
Inductive ending : Set :=
  | returns
  | throws (e : exn)
  | terminates
  | undefined.

(** The [for] loop over the threads, from the thread at the head of [ts]
    on; [None] when [future.get()] threw. *)
Fixpoint poll (pass : nat) (ts : list thread) (first_error : code)
    (finished : Z) : option (list thread * code * Z) :=
  match ts with
  | [] => Some ([], first_error, finished)
  | th :: rest =>
      if valid th then
        if (ready_at th <=? pass)%nat then
          match future_get (held th) with
          | Ok e =>
              let first_error :=
                if bool_decide (first_error = success) then e
                else first_error in
              match poll pass rest first_error finished with
              | Some (rest', fe, fin) => Some (got th :: rest', fe, fin)
              | None => None
              end
          | _ => None
          end
        else
          match poll pass rest first_error (Buffer.wrap (finished - 1)) with
          | Some (rest', fe, fin) => Some (th :: rest', fe, fin)
          | None => None
          end
      else
        match poll pass rest first_error finished with
        | Some (rest', fe, fin) => Some (th :: rest', fe, fin)
        | None => None
        end
  end.

(** The [while] loop: [None] when the passes allowed are used up,
    [Some None] when [future.get()] threw, and else [first_error] at the
    end of the loop. *)
Fixpoint supervise (passes pass : nat) (ts : list thread)
    (first_error : code) (finished : Z) : option (option code) :=
  match passes with
  | O => None
  | S passes' =>
      if finished =? Z.of_nat (length ts) then Some (Some first_error)
      else
        match poll pass ts first_error (Z.of_nat (length ts)) with
        | Some (ts', fe, fin) => supervise passes' (S pass) ts' fe fin
        | None => Some None
        end
  end.

(** The last pass in which a future turns ready. *)
Definition last_ready (ws : list (nat * promise)) : nat :=
  foldr Nat.max 0%nat (map fst ws).

(** [module_threads] on a crate of [modules_count] modules, with a
    worker for each module number; [ws] is what the thread of each worker
    does.  Every future turns ready, so two passes more than [last_ready]
    are enough. *)
Definition module_threads (modules_count : nat) (mod_nums : list nat)
    (ws : list (nat * promise)) (error_message : string) : option ending :=
  if negb (length ws =? length mod_nums)%nat then
    Some (throws (runtime_error "workers and modules counts mismatch"))
  else if negb (forallb (fun n => n <? modules_count)%nat mod_nums) then
    Some undefined
  else
    match supervise (2 + last_ready ws) 0 (at_pass 0 ws) success 0 with
    | None => None
    | Some None => Some terminates
    | Some (Some first_error) =>
        if bool_decide (first_error = success) then Some returns
        else Some (throws (sdk_error first_error error_message))
    end.

End ModuleThreads.


(* ===================================================================== *)
(** ** Handlers of the test tool ([test_api.cpp])                         *)
(* ===================================================================== *)

Module TestHandlers.
Import Error TestCommands.
Local Open Scope string_scope.

Local Notation "x <- m ;; k" := (bind m (fun x => k))
  (at level 100, m at next level, right associativity).

Section Handlers.
(** The calls on the crate, which is not part of the sources, and the
    handlers that are not modelled. *)
Context {crate : Type}
        (crate_boot : crate -> outcome crate)
        (crate_export_config : string -> crate -> outcome crate)
        (crate_import_config : string -> crate -> outcome crate)
        (crate_initialize_afe : crate -> outcome crate)
        (other : handler.t -> list string -> crate ->
                 outcome (list string * crate)).

(** A handler gives the iterator [ci] and the crate as it leaves them;
    what it prints is left out. *)
Definition boot (ci : list string) (c : crate)
  : outcome (list string * crate) :=
  c <- crate_boot c ;; Ok (ci, c).

Definition crate_report (ci : list string) (c : crate)
  : outcome (list string * crate) :=
  Ok (ci, c).

Definition export_ (ci : list string) (c : crate)
  : outcome (list string * crate) :=
  if negb (valid_option ci 1) then
    Throw (runtime_error "export: not enough options")
  else
    match ci with
    | file_opt :: ci => c <- crate_export_config file_opt c ;; Ok (ci, c)
    | [] => Undefined
    end.

Definition import (ci : list string) (c : crate)
  : outcome (list string * crate) :=
  if negb (valid_option ci 1) then
    Throw (runtime_error "import: not enough options")
  else
    match ci with
    | path_opt :: ci =>
        c <- crate_import_config path_opt c ;;
        c <- crate_initialize_afe c ;;
        Ok (ci, c)
    | [] => Undefined
    end.

(** [std::endl] and [std::left << std::setw(w) << s] on [std::cout]. *)
Definition endl : string := String (ascii_of_nat 10) "".

Definition setw_left (w : nat) (s : string) : string :=
  s ++ string_of_list_ascii (repeat " "%char (w - String.length s)).

(** The size of the key [std::max_element] finds in [help]. *)
Definition max_key_size : nat :=
  foldr Nat.max 0%nat (map (fun e => String.length e.1) commands).

(** The loop of [help] over [cmds]: what it prints.  It reads the
    command through the iterator [find_command] gives, which is
    [commands.end()] for a name that is no command. *)
Fixpoint help_lines (long_opt : string) (cmds : list string)
  : outcome string :=
  match cmds with
  | [] => Ok ""
  | c :: cmds =>
      match find_command c with
      | None => Undefined
      | Some e =>
          let cmd := e.2 in
          let line :=
            if long_opt =? "true" then
              command.name cmd ++ " : " ++
              foldr (fun a s => a ++ " " ++ s) "" (command.aliases cmd) ++
              endl ++ " " ++ command.help cmd ++ endl ++
              "  # " ++ command.help_cmd cmd ++ endl
            else
              setw_left (max_key_size + 1) (command.name cmd) ++
              " - " ++ command.help cmd ++ endl in
          rest <- help_lines long_opt cmds ;;
          Ok (line ++ rest)
      end
  end.

(** [help]: the iterator [ci] as it is left and what was printed. *)
Definition help (ci : list string) : outcome (list string * string) :=
  r <- switch_option "-l" ci false ;;
  let long_opt := r.1 in
  let taken :=
    match r.2 with
    | help_opt :: ci => (help_opt, ci)
    | [] => ("", [])
    end in
  let cmds :=
    if negb (taken.1 =? "") then [taken.1] else map fst commands in
  out <- help_lines long_opt cmds ;;
  Ok (taken.2, "Command help:" ++ endl ++ out).

(** [cmd.call] of [process_commands]. *)
Definition call (h : handler.t) : list string -> crate ->
                                  outcome (list string * crate) :=
  match h with
  | handler.boot => boot
  | handler.crate_report => crate_report
  | handler.export_ => export_
  | handler.help => fun ci c => r <- help ci ;; Ok (r.1, c)
  | handler.import => import
  | _ => other h
  end.

End Handlers.
End TestHandlers.


(* ===================================================================== *)
(** ** The table of the generation of [error.hpp]                         *)
(* ===================================================================== *)

Module ErrorTable.
Import Error.

(** [api_result], [api_result_text] and [check_code_match] of
    [pixie_error.cpp], as functions of the table [codes] they read. *)
Definition api_result (codes : gmap code result_code) (type : code)
  : outcome Z :=
  match codes !! type with
  | None =>
      match map_at codes bad_error_code with
      | Ok rc => Ok (result rc)
      | Throw e => Throw e
      | Undefined => Undefined
      end
  | Some rc => Ok (result rc)
  end.

Definition api_result_text (codes : gmap code result_code) (type : code)
  : outcome string :=
  match codes !! type with
  | None =>
      match map_at codes bad_error_code with
      | Ok rc => Ok (text rc)
      | Throw e => Throw e
      | Undefined => Undefined
      end
  | Some rc => Ok (text rc)
  end.


(** Modelled from the spec: the table that goes with the enumeration of
    [error.hpp] is in [error.cpp], which is not part of the sources; the
    table under src/ is that of the legacy [pixie_error.cpp], written for
    a header that is not part of the sources either, and it has no entry
    for the two enumerators [error.hpp] has added, [module_test_invalid]
    and [bad_allocation].  The spec gives every code a stable integer code
    and text: the entries of the codes that the table under src/ has are
    taken from it as they are, and the entries of the two others are
    arguments. *)
Definition result_codes (module_test_invalid_entry
                         bad_allocation_entry : result_code)
  : gmap code result_code :=
  foldl map_insert_new Error.result_codes
    [(module_test_invalid, module_test_invalid_entry);
     (bad_allocation, bad_allocation_entry)].


End ErrorTable.


(* ===================================================================== *)
(** * Properties                                                          *)
(* ===================================================================== *)

(** ** Error codes *)
Section ErrorCodes.
Import Error.

(** A code the table lacks is answered with the entry of
    [bad_error_code]. *)
Lemma api_result_absent (c : code) :
  result_codes !! c = None ->
  api_result c = Ok 990 /\ api_result_text c = Ok "bad error code"%string.
Proof.
  intros H. unfold api_result, api_result_text. rewrite H.
  split; vm_compute; reflexivity.
Qed.


(** A code of the table is answered with its own entry. *)
Lemma api_result_present (c : code) (rc : result_code) :
  result_codes !! c = Some rc ->
  api_result c = Ok (result rc) /\ api_result_text c = Ok (text rc).
Proof.
  intros H. unfold api_result, api_result_text. rewrite H. auto.
Qed.













End ErrorCodes.

(** ** Backplane roles *)
Section Roles.
Import Backplane.

Lemma request_spec (r : role) (m : module) :
  request r m =
    if leader r =? released
    then ({| leader := number m; label := label r |}, true)
    else (r, false).
Proof.
  unfold request, compare_exchange_strong.
  destruct (leader r =? released); [reflexivity |].
  destruct r; reflexivity.
Qed.

Lemma release_spec (r : role) (m : module) :
  release r m =
    if leader r =? number m
    then ({| leader := released; label := label r |}, true)
    else (r, false).
Proof.
  unfold release, compare_exchange_strong.
  destruct (leader r =? number m); [reflexivity |].
  destruct r; reflexivity.
Qed.

(** While [m] holds the role, no call by another module changes it or
    succeeds. *)
Lemma held_role_ignores_others (m : module) (cs : list role_call) (r : role) :
  0 <= number m ->
  leader r = number m ->
  Forall (fun c => number (caller c) <> number m) cs ->
  do_calls cs r = (r, replicate (length cs) false).
Proof.
  intros Hm Hr Hcs. induction Hcs as [| c cs Hc _ IH]; [reflexivity |].
  cbn [do_calls length replicate].
  assert (do_call c r = (r, false)) as ->.
  { destruct c as [m' | m']; cbn [do_call caller] in *.
    - rewrite request_spec.
      destruct (Z.eqb_spec (leader r) released) as [E | _]; [| reflexivity].
      unfold released in E. lia.
    - rewrite release_spec.
      destruct (Z.eqb_spec (leader r) (number m')) as [E | _]; [| reflexivity].
      congruence. }
  rewrite IH. reflexivity.
Qed.

(** C3.  On any role and for a module [m] of the crate (its number is a
    position in the crate, so not negative): [request] succeeds exactly
    when the leader is [released] and then makes [m] the leader, a failed
    request changes nothing; once [m] has the role, requests and releases
    by modules of another number fail and leave the role with [m], however
    many of them there are; [release] succeeds exactly for the holder and
    gives the role back to [released].  The three roles of a new backplane
    are released. *)
Theorem role_request_release (r : role) (m : module) :
  0 <= number m ->
  ((request r m).2 = true <-> leader r = released) /\
  ((request r m).2 = true -> leader (request r m).1 = number m) /\
  ((request r m).2 = false -> (request r m).1 = r) /\
  (forall m' : module,
     (request r m).2 = true -> number m' <> number m ->
     request (request r m).1 m' = ((request r m).1, false)) /\
  (forall cs : list role_call,
     (request r m).2 = true ->
     Forall (fun c => number (caller c) <> number m) cs ->
     do_calls cs (request r m).1
       = ((request r m).1, replicate (length cs) false)) /\
  ((release r m).2 = true <-> leader r = number m) /\
  ((release r m).2 = true -> leader (release r m).1 = released) /\
  ((release r m).2 = false -> (release r m).1 = r) /\
  ((request r m).2 = true ->
     release (request r m).1 m
       = ({| leader := released; label := label r |}, true)) /\
  (forall max_slots : nat,
     leader (wired_or_triggers_pullup (new max_slots)) = released /\
     leader (run (new max_slots)) = released /\
     leader (director (new max_slots)) = released).
Proof.
  intros Hm.
  rewrite request_spec, release_spec.
  destruct (Z.eqb_spec (leader r) released) as [Hrel | Hrel];
    destruct (Z.eqb_spec (leader r) (number m)) as [Hown | Hown];
    cbn [fst snd leader label];
    repeat match goal with |- _ /\ _ => split end;
    try (intros; first [discriminate | reflexivity | congruence | tauto]).
  all: try (intros; unfold released in *; lia).
  all: try (intros m' _ Hne; rewrite request_spec; cbn [leader];
            destruct (Z.eqb_spec (number m) released) as [E | _];
            [unfold released in E; lia | reflexivity]).
  all: try (intros cs _ Hcs; apply (held_role_ignores_others m); auto).
  all: try (intros _; rewrite release_spec; cbn [leader label];
            rewrite Z.eqb_refl; reflexivity).
Qed.

Lemma role_request_release_witness :
  0 <= number (mk_module 0) /\
  ((request (role_new "run") (mk_module 0)).2 = true <->
   leader (role_new "run") = released).
Proof.
  split; [cbn; lia |].
  exact (proj1 (role_request_release (role_new "run") (mk_module 0)
                  ltac:(cbn; lia))).
Defined.

End Roles.

(** ** Sync-wait bookkeeping *)
Section SyncWait.
Import Error Backplane.

Lemma popcount_bounds (l : list bool) : 0 <= popcount l <= Z.of_nat (length l).
Proof.
  unfold popcount. pose proof (length_filter (fun w => w = true) l). lia.
Qed.

Lemma popcount_cons (w : bool) (l : list bool) :
  popcount (w :: l) = (if w then 1 else 0) + popcount l.
Proof.
  unfold popcount. destruct w.
  - rewrite filter_cons_True by reflexivity. cbn [length]. lia.
  - rewrite filter_cons_False by discriminate. lia.
Qed.

(** Writing one flag moves the number of set flags by the difference of
    the new and the old flag. *)
Lemma popcount_insert (l : list bool) (i : nat) (old new : bool) :
  l !! i = Some old ->
  popcount (<[i := new]> l)
    = popcount l + (if new then 1 else 0) - (if old then 1 else 0).
Proof.
  revert i. induction l as [| w l IH]; intros i H; [discriminate H |].
  destruct i as [| i].
  - cbn in H. injection H as ->.
    change (<[0%nat := new]> (old :: l)) with (new :: l).
    rewrite !popcount_cons. lia.
  - cbn in H. change (<[S i := new]> (w :: l)) with (w :: <[i := new]> l).
    rewrite !popcount_cons, (IH i H). lia.
Qed.

Lemma wrap_int_small (z : Z) : - 2 ^ 31 <= z < 2 ^ 31 -> wrap_int z = z.
Proof.
  intros H. unfold wrap_int.
  rewrite Z.mod_small by lia. lia.
Qed.

Lemma to_size_t_small (z : Z) : 0 <= z < 2 ^ 64 -> to_size_t z = z.
Proof. intros H. unfold to_size_t. apply Z.mod_small. lia. Qed.

(** A flag that is clear, in a list that satisfies the invariant, leaves
    room for one more. *)
Lemma popcount_clear_lt (l : list bool) (i : nat) :
  l !! i = Some false -> popcount l < Z.of_nat (length l).
Proof.
  revert i. induction l as [| w l IH]; intros i H; [discriminate H |].
  rewrite popcount_cons. cbn [length].
  destruct i as [| i].
  - cbn in H. injection H as ->. pose proof (popcount_bounds l). lia.
  - cbn in H. specialize (IH i H). destruct w; lia.
Qed.

Lemma popcount_set_pos (l : list bool) (i : nat) :
  l !! i = Some true -> 0 < popcount l.
Proof.
  revert i. induction l as [| w l IH]; intros i H; [discriminate H |].
  rewrite popcount_cons.
  destruct i as [| i].
  - cbn in H. injection H as ->. pose proof (popcount_bounds l). lia.
  - cbn in H. specialize (IH i H). destruct w; lia.
Qed.

(** One call under the invariant: what it does, that it returns, and
    that the invariant holds afterwards. *)
Lemma sync_wait_step (b : t) (m : module) (v : Z) :
  Z.of_nat (length (sync_waiters b)) < 2 ^ 31 ->
  sync_inv b ->
  slot_call b (m, v) ->
  exists waiting : bool,
    sync_waiters b !! Z.to_nat (number m) = Some waiting /\
    sync_wait m v b =
      (if Bool.eqb (v =? 1) waiting then b
       else set_sync (sync_waits b + (if v =? 1 then 1 else -1))
              (<[Z.to_nat (number m) := (v =? 1)]> (sync_waiters b)) b,
       Ok tt) /\
    sync_inv (sync_wait m v b).1 /\
    length (sync_waiters (sync_wait m v b).1) = length (sync_waiters b).
Proof.
  intros Hlen [Hpop Hrange] [Hm Hv]. cbn [fst snd] in Hm, Hv.
  destruct (lookup_lt_is_Some_2 (sync_waiters b) (Z.to_nat (number m)))
    as [waiting Hw]; [lia |].
  exists waiting. split; [exact Hw |].
  unfold sync_wait.
  destruct (Z.ltb_spec (number m) 0) as [? | _]; [lia |].
  rewrite Hw.
  pose proof (popcount_insert _ _ _ (v =? 1) Hw) as Hins.
  destruct (Bool.eqb (v =? 1) waiting) eqn:Heq; cbn [negb].
  { cbn [fst]. repeat split; auto. all: unfold sync_inv in *; lia. }
  assert (- 2 ^ 31 <= sync_waits b + (if v =? 1 then 1 else -1) < 2 ^ 31
          /\ 0 <= sync_waits b + (if v =? 1 then 1 else -1)
               <= Z.of_nat (length (sync_waiters b))) as [Hsmall Hin].
  { destruct (v =? 1), waiting; try discriminate Heq.
    - pose proof (popcount_clear_lt _ _ Hw). lia.
    - pose proof (popcount_set_pos _ _ Hw). lia. }
  assert ((if v =? 1 then wrap_int (sync_waits b + 1)
           else wrap_int (sync_waits b - 1))
          = sync_waits b + (if v =? 1 then 1 else -1)) as ->.
  { destruct (v =? 1); rewrite wrap_int_small; lia. }
  rewrite to_size_t_small by lia.
  destruct (Z.ltb_spec (sync_waits b + (if v =? 1 then 1 else -1)) 0);
    [lia |].
  destruct (Z.gtb_spec (sync_waits b + (if v =? 1 then 1 else -1))
              (Z.of_nat (length (sync_waiters b)))); [lia |].
  cbn [orb fst].
  split; [reflexivity |].
  unfold sync_inv, set_sync. cbn [sync_waits sync_waiters].
  rewrite length_insert. split; [| reflexivity].
  split; [| lia].
  rewrite Hins, Hpop.
  destruct (v =? 1), waiting; try discriminate Heq; lia.
Qed.

(** Any run of calls under the invariant returns and keeps it. *)
Lemma sync_wait_all_inv (calls : list (module * Z)) (b : t) :
  Z.of_nat (length (sync_waiters b)) < 2 ^ 31 ->
  sync_inv b ->
  Forall (slot_call b) calls ->
  exists b' : t,
    sync_wait_all calls b = (b', Ok tt) /\ sync_inv b' /\
    length (sync_waiters b') = length (sync_waiters b).
Proof.
  revert b. induction calls as [| [m v] calls IH]; intros b Hlen Hinv Hcalls.
  - exists b. auto.
  - inversion Hcalls as [| ? ? Hc Hcs]; subst.
    destruct (sync_wait_step b m v Hlen Hinv Hc)
      as (waiting & _ & Hstep & Hinv' & Hlen').
    cbn [sync_wait_all]. rewrite Hstep in *. cbn [fst] in *.
    set (b1 := if Bool.eqb (v =? 1) waiting then b else _) in *.
    destruct (IH b1) as (b' & Hrun & Hinv'' & Hlen'').
    + lia.
    + exact Hinv'.
    + eapply Forall_impl; [exact Hcs |].
      intros c Hcall. unfold slot_call in *. rewrite Hlen'. exact Hcall.
    + exists b'. rewrite Hrun. repeat split; try apply Hinv''. lia.
Qed.

(** A call that moves the counter out of the range throws
    [internal_failure], whatever the backplane was. *)
Lemma sync_wait_out_of_range (b : t) (m : module) (v : Z) (waiting : bool) :
  0 <= number m ->
  sync_waiters b !! Z.to_nat (number m) = Some waiting ->
  Bool.eqb (v =? 1) waiting = false ->
  let sw := wrap_int (sync_waits b + (if v =? 1 then 1 else -1)) in
  sw < 0 \/ to_size_t sw > Z.of_nat (length (sync_waiters b)) ->
  exists what : string,
    (sync_wait m v b).2 = Throw (sdk_error internal_failure what).
Proof.
  intros Hm Hw Heq sw Hout. unfold sync_wait.
  destruct (Z.ltb_spec (number m) 0) as [? | _]; [lia |].
  rewrite Hw, Heq. cbn [negb].
  assert ((if v =? 1 then wrap_int (sync_waits b + 1)
           else wrap_int (sync_waits b - 1)) = sw) as ->.
  { subst sw. destruct (v =? 1); reflexivity. }
  assert ((sw <? 0) || (to_size_t sw >? Z.of_nat (length (sync_waiters b)))
          = true) as ->.
  { apply orb_true_iff. destruct Hout; [left | right]; lia. }
  eexists. reflexivity.
Qed.

Lemma new_sync_inv (max_slots : nat) : sync_inv (new max_slots).
Proof.
  unfold sync_inv, new. cbn [sync_waits sync_waiters].
  assert (popcount (replicate max_slots false) = 0) as ->.
  { induction max_slots as [| n IH]; [reflexivity |].
    cbn [replicate]. rewrite popcount_cons, IH. reflexivity. }
  split; [reflexivity | lia].
Qed.

(** C5.  From a backplane that satisfies the invariant
    [sync_waits == popcount(sync_waiters)], [0 <= sync_waits <=
    |sync_waiters|] (a new backplane does), every run of [sync_wait]
    calls by modules whose numbers are positions of [sync_waiters], with
    values 0 or 1, returns and ends in a backplane that satisfies it.  A
    single such call leaves the backplane as it is when the flag of the
    module already has the value written, and otherwise writes the flag
    and moves the counter by one, up for 1 and down for 0.  On any
    backplane, a call that changes the flag and moves the counter outside
    [0, |sync_waiters|] throws [internal_failure]. *)
Theorem sync_wait_keeps_invariant (calls : list (module * Z)) (b : t) :
  Z.of_nat (length (sync_waiters b)) < 2 ^ 31 ->
  sync_inv b ->
  Forall (slot_call b) calls ->
  (exists b' : t,
     sync_wait_all calls b = (b', Ok tt) /\ sync_inv b' /\
     length (sync_waiters b') = length (sync_waiters b)) /\
  (forall (m : module) (v : Z),
     slot_call b (m, v) ->
     exists waiting : bool,
       sync_waiters b !! Z.to_nat (number m) = Some waiting /\
       sync_wait m v b =
         (if Bool.eqb (v =? 1) waiting then b
          else set_sync (sync_waits b + (if v =? 1 then 1 else -1))
                 (<[Z.to_nat (number m) := (v =? 1)]> (sync_waiters b)) b,
          Ok tt) /\
       sync_inv (sync_wait m v b).1 /\
       length (sync_waiters (sync_wait m v b).1) = length (sync_waiters b)) /\
  (forall (b0 : t) (m : module) (v : Z) (waiting : bool),
     0 <= number m ->
     sync_waiters b0 !! Z.to_nat (number m) = Some waiting ->
     Bool.eqb (v =? 1) waiting = false ->
     let sw := wrap_int (sync_waits b0 + (if v =? 1 then 1 else -1)) in
     sw < 0 \/ to_size_t sw > Z.of_nat (length (sync_waiters b0)) ->
     exists what : string,
       (sync_wait m v b0).2 = Throw (sdk_error internal_failure what)) /\
  (forall max_slots : nat, sync_inv (new max_slots)).
Proof.
  intros Hlen Hinv Hcalls.
  split; [apply sync_wait_all_inv; assumption |].
  split; [intros m v Hc; apply sync_wait_step; assumption |].
  split; [intros b0 m v waiting; apply sync_wait_out_of_range |].
  apply new_sync_inv.
Qed.

Lemma sync_wait_keeps_invariant_witness :
  Z.of_nat (length (sync_waiters (new 3))) < 2 ^ 31 /\
  sync_inv (new 3) /\
  Forall (slot_call (new 3))
    [(mk_module 0, 1); (mk_module 1, 1); (mk_module 0, 0)] /\
  exists b' : t,
    sync_wait_all [(mk_module 0, 1); (mk_module 1, 1); (mk_module 0, 0)]
      (new 3) = (b', Ok tt) /\
    sync_inv b' /\
    length (sync_waiters b') = length (sync_waiters (new 3)).
Proof.
  assert (Z.of_nat (length (sync_waiters (new 3))) < 2 ^ 31) as H1
    by (vm_compute; reflexivity).
  assert (sync_inv (new 3)) as H2
    by (split; [vm_compute; reflexivity | cbn; lia]).
  assert (Forall (slot_call (new 3))
            [(mk_module 0, 1); (mk_module 1, 1); (mk_module 0, 0)]) as H3
    by (repeat constructor; cbn; lia).
  split; [exact H1 |]. split; [exact H2 |]. split; [exact H3 |].
  exact (proj1 (sync_wait_keeps_invariant _ (new 3) H1 H2 H3)).
Defined.

(** What [sync_wait_valid] compares the counter with is the size of
    [sync_waiters]. *)
Lemma sync_wait_valid_spec (b : t) :
  - 2 ^ 31 <= sync_waits b < 2 ^ 31 ->
  Z.of_nat (length (sync_waiters b)) < 2 ^ 31 ->
  sync_wait_valid b =
    if (sync_waits b =? 0) ||
       (sync_waits b =? Z.of_nat (length (sync_waiters b)))
    then Ok tt
    else Throw (sdk_error module_invalid_operation
      "sync wait mode enabled and not all modules in the sync wait state").
Proof.
  intros Hint Hlen. unfold sync_wait_valid.
  destruct (Z.eqb_spec (sync_waits b) 0) as [E0 | E0]; cbn [negb andb orb];
    [reflexivity |].
  assert ((to_size_t (sync_waits b) =? Z.of_nat (length (sync_waiters b)))
          = (sync_waits b =? Z.of_nat (length (sync_waiters b)))) as ->.
  { destruct (Z.lt_ge_cases (sync_waits b) 0) as [Hneg | Hpos].
    - assert (to_size_t (sync_waits b) = sync_waits b + 2 ^ 64) as ->.
      { unfold to_size_t. symmetry.
        apply (Z.mod_unique_pos _ _ (-1)); lia. }
      destruct (Z.eqb_spec (sync_waits b + 2 ^ 64)
                  (Z.of_nat (length (sync_waiters b)))); [lia |].
      destruct (Z.eqb_spec (sync_waits b)
                  (Z.of_nat (length (sync_waiters b)))); [lia | reflexivity].
    - rewrite to_size_t_small by lia. reflexivity. }
  destruct (sync_waits b =? Z.of_nat (length (sync_waiters b))); reflexivity.
Qed.





End SyncWait.

(** ** Buffer pool *)
Section Pool.
Import Error Buffer.

Lemma wrap_small (z : Z) : 0 <= z < 2 ^ 64 -> wrap z = z.
Proof. intros H. unfold wrap, size_t_bits. apply Z.mod_small. exact H. Qed.

Lemma push_fresh_replicate (n size_ : nat) (bufs : list buffer) :
  pool.push_fresh n size_ bufs = replicate n (new_buffer size_) ++ bufs.
Proof.
  revert bufs. induction n as [| n IH]; intros bufs; [reflexivity |].
  cbn [pool.push_fresh]. rewrite IH.
  change (new_buffer size_ :: bufs) with ([new_buffer size_] ++ bufs).
  rewrite app_assoc. f_equal.
  change (replicate (S n) (new_buffer size_))
    with ([new_buffer size_] ++ replicate n (new_buffer size_)).
  clear. induction n as [| n IH]; [reflexivity |].
  cbn [replicate app] in *. f_equal. exact IH.
Qed.

Lemma request_nonempty (p : pool.t) (buf : buffer) (rest : list buffer) :
  pool_inv p ->
  pool.buffers p = buf :: rest ->
  pool.request p =
    Ok (buf, {| pool.number := pool.number p; pool.size := pool.size p;
                pool.count_ := pool.count_ p - 1; pool.buffers := rest |}).
Proof.
  intros [Hc Hlt] Hb. unfold pool.request, pool.empty.
  rewrite Hb in *. cbn [length] in Hc.
  destruct (Z.eqb_spec (pool.count_ p) 0) as [E | _]; [lia |].
  rewrite wrap_small by lia. reflexivity.
Qed.

Lemma request_exhausted (p : pool.t) :
  pool.count_ p = 0 ->
  pool.request p = Throw (sdk_error buffer_pool_empty "no buffers avaliable").
Proof. intros H. unfold pool.request, pool.empty. rewrite H. reflexivity. Qed.

(** [k] requests on a pool that has at least [k] buffers hand out the
    first [k] buffers of the free list and count down by [k]. *)
Lemma request_n_take (k : nat) (p : pool.t) :
  pool_inv p ->
  (k <= length (pool.buffers p))%nat ->
  pool.request_n k p =
    Ok (take k (pool.buffers p),
        {| pool.number := pool.number p; pool.size := pool.size p;
           pool.count_ := pool.count_ p - Z.of_nat k;
           pool.buffers := drop k (pool.buffers p) |}).
Proof.
  revert p. induction k as [| k IH]; intros p Hinv Hk.
  - cbn [pool.request_n take drop]. rewrite Z.sub_0_r. destruct p; reflexivity.
  - destruct (pool.buffers p) as [| buf rest] eqn:Hb; [cbn in Hk; lia |].
    cbn [pool.request_n]. rewrite (request_nonempty p buf rest Hinv Hb).
    destruct Hinv as [Hc Hlt]. rewrite Hb in Hc. cbn [length] in Hc, Hk.
    rewrite IH; cbn [pool.buffers pool.count_ pool.number pool.size].
    + cbn [take drop]. do 3 f_equal. lia.
    + split; cbn [pool.buffers pool.count_]; lia.
    + lia.
Qed.

(** One request more than the pool has buffers throws. *)
Lemma request_n_exhausts (n : nat) (p : pool.t) :
  pool_inv p ->
  length (pool.buffers p) = n ->
  pool.request_n (S n) p
    = Throw (sdk_error buffer_pool_empty "no buffers avaliable").
Proof.
  revert p. induction n as [| n IH]; intros p Hinv Hn.
  - cbn [pool.request_n]. rewrite request_exhausted; [reflexivity |].
    destruct Hinv as [Hc _]. rewrite Hc, Hn. reflexivity.
  - destruct (pool.buffers p) as [| buf rest] eqn:Hb; [discriminate Hn |].
    change (pool.request_n (S (S n)) p)
      with (match pool.request p with
            | Ok (h, p') =>
                match pool.request_n (S n) p' with
                | Ok (hs, p'') => Ok (h :: hs, p'')
                | Throw e => Throw e
                | Undefined => Undefined
                end
            | Throw e => Throw e
            | Undefined => Undefined
            end).
    rewrite (request_nonempty p buf rest Hinv Hb).
    destruct Hinv as [Hc Hlt]. rewrite Hb in Hc. cbn [length] in Hc, Hn.
    rewrite IH; [reflexivity | | cbn [pool.buffers]; lia].
    split; cbn [pool.buffers pool.count_]; lia.
Qed.

Lemma release_then_request (h : handle) (p : pool.t) :
  0 <= pool.count_ p < 2 ^ 64 - 1 ->
  pool.buffers (pool.release h p) = clear h :: pool.buffers p /\
  data (clear h) = [] /\
  pool.count_ (pool.release h p) = pool.count_ p + 1 /\
  pool.request (pool.release h p) = Ok (clear h, p).
Proof.
  intros Hc. unfold pool.release, pool.request, pool.empty.
  cbn [pool.buffers pool.count_ pool.number pool.size].
  rewrite (wrap_small (pool.count_ p + 1)) by lia.
  repeat split.
  destruct (Z.eqb_spec (pool.count_ p + 1) 0) as [E | _]; [lia |].
  rewrite wrap_small by lia.
  replace (pool.count_ p + 1 - 1) with (pool.count_ p) by lia.
  destruct p; reflexivity.
Qed.

(** C6.  A pool created with [N] buffers: for every [k <= N], [k]
    requests in a row succeed, hand out [k] empty buffers of the pool and
    leave [N - k] available, each request taking the count down by one;
    request [N + 1] throws [buffer_pool_empty].  After at least one
    request, releasing a handle puts its buffer, cleared, at the front of
    the free list, takes the count up by one, and the next request
    succeeds (it hands out that buffer). *)
Theorem pool_request_until_empty (N C : nat) :
  Z.of_nat N < 2 ^ 64 ->
  exists p : pool.t,
    pool.create N C pool.new = Ok p /\
    pool.count_ p = Z.of_nat N /\
    (forall k : nat,
       (k <= N)%nat ->
       exists (hs : list handle) (p' : pool.t),
         pool.request_n k p = Ok (hs, p') /\
         length hs = k /\
         Forall (fun h => h = new_buffer C) hs /\
         pool.count_ p' = Z.of_nat N - Z.of_nat k /\
         (forall (hs' : list handle) (p'' : pool.t),
            pool.request_n (S k) p = Ok (hs', p'') ->
            pool.count_ p'' = pool.count_ p' - 1) /\
         ((1 <= k)%nat ->
          forall h : handle,
            pool.buffers (pool.release h p') = clear h :: pool.buffers p' /\
            data (clear h) = [] /\
            pool.count_ (pool.release h p') = pool.count_ p' + 1 /\
            pool.request (pool.release h p') = Ok (clear h, p'))) /\
    pool.request_n (S N) p
      = Throw (sdk_error buffer_pool_empty "no buffers avaliable").
Proof.
  intros HN.
  eexists. split; [reflexivity |].
  set (p := {| pool.number := Z.of_nat N |}).
  assert (pool.buffers p = replicate N (new_buffer C)) as Hbufs.
  { subst p. cbn [pool.buffers pool.new].
    rewrite push_fresh_replicate. apply app_nil_r. }
  assert (pool_inv p) as Hinv.
  { split; [| exact HN]. rewrite Hbufs, length_replicate. reflexivity. }
  assert (forall k, (k <= N)%nat ->
            pool.request_n k p =
              Ok (replicate k (new_buffer C),
                  {| pool.number := pool.number p; pool.size := pool.size p;
                     pool.count_ := Z.of_nat N - Z.of_nat k;
                     pool.buffers := replicate (N - k) (new_buffer C) |}))
    as Hreq.
  { intros k Hk. rewrite request_n_take; [| exact Hinv |].
    - rewrite Hbufs, take_replicate, drop_replicate.
      rewrite Nat.min_l by lia. reflexivity.
    - rewrite Hbufs, length_replicate. exact Hk. }
  split; [reflexivity |].
  split.
  - intros k Hk. eexists _, _. split; [apply (Hreq k Hk) |].
    split; [apply length_replicate |].
    split; [apply Forall_forall; intros h Hh;
            apply elem_of_replicate in Hh; tauto |].
    split; [reflexivity |].
    split.
    + intros hs' p'' Hn.
      destruct (Nat.eq_dec k N) as [-> | Hne].
      * rewrite (request_n_exhausts N p Hinv) in Hn; [discriminate Hn |].
        rewrite Hbufs. apply length_replicate.
      * rewrite (Hreq (S k)) in Hn by lia. injection Hn as _ <-.
        cbn [pool.count_]. lia.
    + intros Hk1 h. apply release_then_request. cbn [pool.count_]. lia.
  - apply (request_n_exhausts N p Hinv).
    rewrite Hbufs. apply length_replicate.
Qed.

Lemma pool_request_until_empty_witness :
  Z.of_nat 3 < 2 ^ 64 /\
  exists p : pool.t,
    pool.create 3 1024 pool.new = Ok p /\
    pool.count_ p = Z.of_nat 3 /\
    (forall k : nat,
       (k <= 3)%nat ->
       exists (hs : list handle) (p' : pool.t),
         pool.request_n k p = Ok (hs, p') /\
         length hs = k /\
         Forall (fun h => h = new_buffer 1024) hs /\
         pool.count_ p' = Z.of_nat 3 - Z.of_nat k /\
         (forall (hs' : list handle) (p'' : pool.t),
            pool.request_n (S k) p = Ok (hs', p'') ->
            pool.count_ p'' = pool.count_ p' - 1) /\
         ((1 <= k)%nat ->
          forall h : handle,
            pool.buffers (pool.release h p') = clear h :: pool.buffers p' /\
            data (clear h) = [] /\
            pool.count_ (pool.release h p') = pool.count_ p' + 1 /\
            pool.request (pool.release h p') = Ok (clear h, p'))) /\
    pool.request_n 4 p
      = Throw (sdk_error buffer_pool_empty "no buffers avaliable").
Proof.
  split; [vm_compute; reflexivity |].
  exact (pool_request_until_empty 3 1024 ltac:(vm_compute; reflexivity)).
Defined.

(** Scenario S3 evaluated: three requests succeed, the fourth throws, and
    after one release the next request succeeds. *)
Example pool_three_buffers :
  exists (h1 h2 h3 : handle) (p0 p3 : pool.t),
    pool.create 3 1024 pool.new = Ok p0 /\
    pool.request_n 3 p0 = Ok ([h1; h2; h3], p3) /\
    pool.count_ p3 = 0 /\
    pool.request p3
      = Throw (sdk_error buffer_pool_empty "no buffers avaliable") /\
    pool.request (pool.release h2 p3) = Ok (clear h2, p3).
Proof. do 5 eexists. repeat split; vm_compute; reflexivity. Qed.

End Pool.

(** ** Queue: compact *)
Section Compact.
Import Error Buffer.

Lemma dec_succ_r (k : nat) (c : Z) :
  queue.dec (S k) c = queue.dec k (wrap (c - 1)).
Proof. unfold queue.dec. rewrite Nat.iter_succ_r. reflexivity. Qed.

Lemma dec_exact (k : nat) (c : Z) :
  0 <= c - Z.of_nat k -> c < 2 ^ 64 -> queue.dec k c = c - Z.of_nat k.
Proof.
  revert c. induction k as [| k IH]; intros c Hlo Hhi.
  - cbn. lia.
  - rewrite dec_succ_r, wrap_small by lia. rewrite IH; lia.
Qed.

Lemma dec_add (j k : nat) (c : Z) :
  queue.dec k (queue.dec j c) = queue.dec (j + k) c.
Proof.
  unfold queue.dec. rewrite Nat.add_comm. symmetry. apply Nat.iter_add.
Qed.

(** What the inner loop leaves: nothing is lost, the words keep their
    order, and the counter goes down by the number of buffers erased. *)
Lemma compact_fill_keeps (to_move : nat) (to : handle) (froms : list handle)
    (cnt : Z) :
  forall (to' : handle) (er ahead : list handle) (cnt' : Z),
    queue.compact_fill to_move to froms cnt = (to', er, ahead, cnt') ->
    (length er + length ahead = length froms)%nat /\
    data to' ++ flat_map data ahead = data to ++ flat_map data froms /\
    cnt' = queue.dec (length er) cnt.
Proof.
  revert to_move to cnt.
  induction froms as [| from rest IH]; intros to_move to cnt to' er ahead cnt' H.
  - cbn in H. injection H as <- <- <- <-. auto.
  - cbn [queue.compact_fill] in H.
    destruct (0 <? to_move)%nat.
    + destruct (buffer_size from <=? to_move)%nat.
      * destruct (queue.compact_fill (to_move - buffer_size from)
                    (insert_end to (data from)) rest (wrap (cnt - 1)))
          as [[[to1 er1] ahead1] cnt1] eqn:Hrec.
        injection H as <- <- <- <-.
        destruct (IH _ _ _ _ _ _ _ Hrec) as (Hl & Hw & Hc).
        cbn [length flat_map insert_end data] in *.
        repeat split.
        -- lia.
        -- rewrite Hw, <- app_assoc. reflexivity.
        -- rewrite dec_succ_r. exact Hc.
      * injection H as <- <- <- <-.
        cbn [length flat_map insert_end erase_front data].
        repeat split.
        rewrite <- !app_assoc, (app_assoc (take _ _)), take_drop. reflexivity.
    + injection H as <- <- <- <-. auto.
Qed.

(** When the inner loop erases nothing it has either found no buffer
    behind [to] or filled [to] up from the first one. *)
Lemma compact_fill_no_erase (to_move : nat) (to : handle)
    (froms : list handle) (cnt : Z) :
  forall (to' : handle) (ahead : list handle) (cnt' : Z),
    (0 < to_move)%nat ->
    queue.compact_fill to_move to froms cnt = (to', [], ahead, cnt') ->
    (froms = [] /\ to' = to /\ ahead = []) \/
    (exists (from : handle) (rest : list handle),
       froms = from :: rest /\ (to_move < buffer_size from)%nat /\
       to' = insert_end to (take to_move (data from)) /\
       ahead = erase_front to_move from :: rest).
Proof.
  intros to' ahead cnt' Hpos H. destruct froms as [| from rest].
  - cbn in H. injection H as <- <- <-. auto.
  - right. cbn [queue.compact_fill] in H.
    destruct (Nat.ltb_spec 0 to_move) as [_ | ?]; [| lia].
    destruct (Nat.leb_spec (buffer_size from) to_move) as [Hle | Hgt].
    + destruct (queue.compact_fill _ _ rest _) as [[[to1 er1] ahead1] cnt1].
      discriminate H.
    + injection H as <- <- <-. exists from, rest. auto.
Qed.

Lemma filled_is_full (to : handle) (ws : list Z) :
  (0 < capacity to - buffer_size to)%nat ->
  (capacity to - buffer_size to <= length ws)%nat ->
  queue.full (insert_end to (take (capacity to - buffer_size to) ws)).
Proof.
  intros Hroom Hws. unfold queue.full, insert_end, buffer_size in *.
  cbn [data capacity]. rewrite length_app, length_take. lia.
Qed.

Lemma settled_cons (b : handle) (r : list handle) :
  queue.settled (b :: r) <-> (r = [] \/ queue.full b) /\ queue.settled r.
Proof. reflexivity. Qed.

(** A run over [to_bi]: it keeps the buffers in front of [to_bi], the
    words and their order; without an erase it keeps the number of
    buffers and the counter and leaves the buffers settled, with an erase
    it leaves fewer buffers and has counted them down. *)
Lemma compact_pass_keeps (n : nat) :
  forall (before to_bi : list handle) (cnt : Z)
         (bufs' : list handle) (cnt' : Z) (rerun : bool),
    queue.compact_pass n before to_bi cnt = Some (bufs', cnt', rerun) ->
    exists r : list handle,
      bufs' = before ++ r /\
      flat_map data r = flat_map data to_bi /\
      (length r <= length to_bi)%nat /\
      cnt' = queue.dec (length to_bi - length r) cnt /\
      (rerun = false -> length r = length to_bi /\ queue.settled r) /\
      (rerun = true -> (length r < length to_bi)%nat).
Proof.
  induction n as [| n IH]; intros before to_bi cnt bufs' cnt' rerun H.
  - destruct to_bi as [| to rest]; [| discriminate H].
    cbn in H. injection H as <- <- <-. exists [].
    rewrite app_nil_r. cbn. repeat split; auto; discriminate.
  - destruct to_bi as [| to rest].
    { cbn in H. injection H as <- <- <-. exists [].
      rewrite app_nil_r. cbn. repeat split; auto; discriminate. }
    cbn [queue.compact_pass] in H.
    destruct (Nat.ltb_spec 0 (capacity to - buffer_size to)) as [Hroom | Hfull].
    + destruct (queue.compact_fill (capacity to - buffer_size to) to rest cnt)
        as [[[to' er] ahead] cnt1] eqn:Hfill.
      destruct (compact_fill_keeps _ _ _ _ _ _ _ _ Hfill) as (Hl & Hw & Hc).
      destruct er as [| e er].
      * destruct (IH _ _ _ _ _ _ H) as (r & -> & Hwr & Hlr & Hcr & Hno & Hre).
        exists (to' :: r). rewrite <- app_assoc. split; [reflexivity |].
        cbn [length] in Hl. cbn [flat_map length].
        split; [rewrite Hwr; exact Hw |].
        split; [lia |].
        split; [rewrite Hcr, Hc; cbn [length queue.dec Nat.iter];
                f_equal; lia |].
        split.
        -- intros Hr. destruct (Hno Hr) as [Hlen Hset].
           split; [lia |]. apply settled_cons. split; [| exact Hset].
           destruct (compact_fill_no_erase _ _ _ _ _ _ _ Hroom Hfill)
             as [(-> & _ & ->) | (from & rest' & -> & Hlt & -> & ->)].
           ++ left. destruct r; [reflexivity | discriminate Hlen].
           ++ right. apply filled_is_full; [exact Hroom |].
              unfold buffer_size in *. lia.
        -- intros Hr. specialize (Hre Hr). lia.
      * injection H as <- <- <-. exists (to' :: ahead).
        cbn [length] in Hl. cbn [flat_map length].
        split; [reflexivity |].
        split; [exact Hw |].
        split; [lia |].
        split; [rewrite Hc; f_equal; cbn [length]; lia |].
        split; [discriminate | intros _; lia].
    + destruct (IH _ _ _ _ _ _ H) as (r & -> & Hwr & Hlr & Hcr & Hno & Hre).
      exists (to :: r). rewrite <- app_assoc. split; [reflexivity |].
      cbn [flat_map length].
      split; [rewrite Hwr; reflexivity |].
      split; [lia |].
      split; [rewrite Hcr; f_equal; lia |].
      split.
      * intros Hr. destruct (Hno Hr) as [Hlen Hset].
        split; [lia |]. apply settled_cons. split; [| exact Hset].
        right. unfold queue.full. lia.
      * intros Hr. specialize (Hre Hr). lia.
Qed.

(** The bound of a run is enough when it is the number of buffers. *)
Lemma compact_pass_returns (n : nat) :
  forall (before to_bi : list handle) (cnt : Z),
    (length to_bi <= n)%nat ->
    is_Some (queue.compact_pass n before to_bi cnt).
Proof.
  induction n as [| n IH]; intros before to_bi cnt Hn.
  - destruct to_bi; [eexists; reflexivity | cbn in Hn; lia].
  - destruct to_bi as [| to rest]; [eexists; reflexivity |].
    cbn [queue.compact_pass]. cbn [length] in Hn.
    destruct (0 <? capacity to - buffer_size to)%nat.
    + destruct (queue.compact_fill (capacity to - buffer_size to) to rest cnt)
        as [[[to' er] ahead] cnt1] eqn:Hfill.
      destruct (compact_fill_keeps _ _ _ _ _ _ _ _ Hfill) as (Hl & _ & _).
      destruct er; [apply IH; cbn [length] in Hl; lia | eexists; reflexivity].
    + apply IH. lia.
Qed.

(** A run over settled buffers changes nothing. *)
Lemma compact_pass_settled (n : nat) :
  forall (before to_bi : list handle) (cnt : Z),
    (length to_bi <= n)%nat ->
    queue.settled to_bi ->
    queue.compact_pass n before to_bi cnt = Some (before ++ to_bi, cnt, false).
Proof.
  induction n as [| n IH]; intros before to_bi cnt Hn Hset.
  - destruct to_bi; [cbn; rewrite app_nil_r; reflexivity | cbn in Hn; lia].
  - destruct to_bi as [| to rest]; [cbn; rewrite app_nil_r; reflexivity |].
    cbn [queue.compact_pass]. cbn [length] in Hn.
    apply settled_cons in Hset. destruct Hset as [Hlast Hset].
    destruct (Nat.ltb_spec 0 (capacity to - buffer_size to)) as [Hroom | Hfull].
    + destruct Hlast as [-> | Hf]; [| unfold queue.full in Hf; lia].
      cbn [queue.compact_fill].
      destruct n; reflexivity.
    + rewrite IH by (auto; lia). rewrite <- app_assoc. reflexivity.
Qed.

(** The loop returns, with the buffers settled, the words kept and the
    counter taken down by the number of buffers erased. *)
Lemma compact_loop_returns (n : nat) :
  forall (bufs : list handle) (cnt : Z),
    (length bufs < n)%nat ->
    exists (bufs' : list handle),
      queue.compact_loop n bufs cnt
        = Some (bufs', queue.dec (length bufs - length bufs') cnt) /\
      queue.settled bufs' /\
      flat_map data bufs' = flat_map data bufs /\
      (length bufs' <= length bufs)%nat.
Proof.
  induction n as [| n IH]; intros bufs cnt Hn; [lia |].
  cbn [queue.compact_loop].
  destruct (compact_pass_returns (length bufs) [] bufs cnt (Nat.le_refl _))
    as [[[bufs1 cnt1] rerun] Hpass].
  rewrite Hpass.
  destruct (compact_pass_keeps _ _ _ _ _ _ _ Hpass)
    as (r & E & Hw & Hl & Hc & Hno & Hre).
  cbn [app] in E. subst bufs1.
  destruct rerun.
  - specialize (Hre eq_refl).
    destruct (IH r cnt1 ltac:(lia)) as (bufs' & Hloop & Hset & Hw' & Hl').
    exists bufs'. rewrite Hloop, Hc, dec_add.
    split; [do 3 f_equal; lia |].
    split; [exact Hset |]. split; [congruence | lia].
  - destruct (Hno eq_refl) as [Hlen Hset].
    exists r. rewrite Hc.
    split; [reflexivity |]. split; [exact Hset |]. split; [exact Hw | lia].
Qed.

(** [compact] always returns. *)
Lemma compact_returns (q : queue.t) :
  exists bufs' : list handle,
    queue.compact q =
      Some {| queue.buffers := bufs';
              queue.size_ := queue.size_ q;
              queue.count_ :=
                queue.dec (length (queue.buffers q) - length bufs')
                          (queue.count_ q) |} /\
    queue.settled bufs' /\
    flat_map data bufs' = flat_map data (queue.buffers q) /\
    (length bufs' <= length (queue.buffers q))%nat.
Proof.
  destruct (compact_loop_returns (S (length (queue.buffers q)))
              (queue.buffers q) (queue.count_ q) ltac:(lia))
    as (bufs' & Hloop & Hrest).
  exists bufs'. unfold queue.compact. rewrite Hloop. auto.
Qed.

(** On settled buffers [compact] is the identity. *)
Lemma compact_settled (q : queue.t) :
  queue.settled (queue.buffers q) -> queue.compact q = Some q.
Proof.
  intros Hset. unfold queue.compact. cbn [queue.compact_loop].
  rewrite compact_pass_settled by auto. cbn [app].
  destruct q; reflexivity.
Qed.

(** The vector invariant [size() <= capacity()] is kept, and no buffer
    has to grow: [to] takes no more than its room. *)
Lemma compact_fill_wf (to_move : nat) (to : handle) (froms : list handle)
    (cnt : Z) :
  forall (to' : handle) (er ahead : list handle) (cnt' : Z),
    (buffer_size to + to_move <= capacity to)%nat ->
    Forall buffer_wf froms ->
    queue.compact_fill to_move to froms cnt = (to', er, ahead, cnt') ->
    buffer_wf to' /\ capacity to' = capacity to /\ Forall buffer_wf ahead.
Proof.
  revert to_move to cnt.
  induction froms as [| from rest IH];
    intros to_move to cnt to' er ahead cnt' Hroom Hwf H.
  - cbn in H. injection H as <- <- <- <-.
    unfold buffer_wf. repeat split; [lia | constructor].
  - inversion Hwf as [| ? ? Hfrom Hrest]; subst.
    cbn [queue.compact_fill] in H.
    destruct (0 <? to_move)%nat.
    + destruct (Nat.leb_spec (buffer_size from) to_move) as [Hle | Hgt].
      * destruct (queue.compact_fill (to_move - buffer_size from)
                    (insert_end to (data from)) rest (wrap (cnt - 1)))
          as [[[to1 er1] ahead1] cnt1] eqn:Hrec.
        injection H as <- <- <- <-.
        assert (capacity (insert_end to (data from)) = capacity to) as Hcap.
        { unfold insert_end, buffer_size in *. cbn [capacity].
          rewrite length_app. lia. }
        assert (buffer_size (insert_end to (data from))
                + (to_move - buffer_size from)
                <= capacity (insert_end to (data from)))%nat as Hroom'.
        { rewrite Hcap. unfold insert_end, buffer_size in *.
          cbn [data]. rewrite length_app. lia. }
        destruct (IH _ _ _ _ _ _ _ Hroom' Hrest Hrec) as (Hw & Hc & Ha).
        split; [exact Hw |]. split; [congruence | exact Ha].
      * injection H as <- <- <- <-.
        unfold buffer_wf, insert_end, erase_front, buffer_size in *.
        cbn [data capacity]. rewrite length_app, length_take.
        split; [lia |]. split; [lia |].
        constructor; [| exact Hrest].
        cbn [data capacity]. rewrite length_drop. lia.
    + injection H as <- <- <- <-.
      unfold buffer_wf. repeat split; [lia | exact Hwf].
Qed.

Lemma compact_pass_wf (n : nat) :
  forall (before to_bi : list handle) (cnt : Z)
         (bufs' : list handle) (cnt' : Z) (rerun : bool),
    Forall buffer_wf before -> Forall buffer_wf to_bi ->
    queue.compact_pass n before to_bi cnt = Some (bufs', cnt', rerun) ->
    Forall buffer_wf bufs'.
Proof.
  induction n as [| n IH];
    intros before to_bi cnt bufs' cnt' rerun Hb Ht H.
  - destruct to_bi; [| discriminate H].
    cbn in H. injection H as <- <- <-. exact Hb.
  - destruct to_bi as [| to rest].
    { cbn in H. injection H as <- <- <-. exact Hb. }
    inversion Ht as [| ? ? Hto Hrest]; subst.
    cbn [queue.compact_pass] in H.
    destruct (0 <? capacity to - buffer_size to)%nat.
    + destruct (queue.compact_fill (capacity to - buffer_size to) to rest cnt)
        as [[[to' er] ahead] cnt1] eqn:Hfill.
      assert (buffer_size to + (capacity to - buffer_size to)
              <= capacity to)%nat as Hroom
        by (unfold buffer_wf in Hto; lia).
      destruct (compact_fill_wf _ _ _ _ _ _ _ _ Hroom Hrest Hfill)
        as (Hw & _ & Ha).
      assert (Forall buffer_wf (before ++ [to'])) as Hb'
        by (apply Forall_app; auto).
      destruct er.
      * apply (IH _ _ _ _ _ _ Hb' Ha H).
      * injection H as <- <- <-. apply Forall_app. auto.
    + assert (Forall buffer_wf (before ++ [to])) as Hb'
        by (apply Forall_app; auto).
      apply (IH _ _ _ _ _ _ Hb' Hrest H).
Qed.

Lemma compact_loop_wf (n : nat) :
  forall (bufs : list handle) (cnt : Z) (bufs' : list handle) (cnt' : Z),
    Forall buffer_wf bufs ->
    queue.compact_loop n bufs cnt = Some (bufs', cnt') ->
    Forall buffer_wf bufs'.
Proof.
  induction n as [| n IH]; intros bufs cnt bufs' cnt' Hwf H;
    [discriminate H |].
  cbn [queue.compact_loop] in H.
  destruct (queue.compact_pass (length bufs) [] bufs cnt)
    as [[[bufs1 cnt1] rerun] |] eqn:Hpass; [| discriminate H].
  pose proof (compact_pass_wf _ _ _ _ _ _ _ (Forall_nil_2 _) Hwf Hpass) as Hwf1.
  destruct rerun.
  - apply (IH _ _ _ _ Hwf1 H).
  - injection H as <- <-. exact Hwf1.
Qed.

(** C7.  On every queue [compact] returns; it leaves [size()] as it was
    and the words the queue holds in their order; and a second [compact]
    right after it returns the very queue it is given: buffers, size and
    count are unchanged.  Buffers within their capacity stay within
    it. *)
Theorem compact_idempotent (q : queue.t) :
  exists q1 : queue.t,
    queue.compact q = Some q1 /\
    queue.size q1 = queue.size q /\
    queue.held_words q1 = queue.held_words q /\
    queue.compact q1 = Some q1 /\
    (Forall buffer_wf (queue.buffers q) ->
     Forall buffer_wf (queue.buffers q1)).
Proof.
  destruct (compact_returns q) as (bufs' & Hc & Hset & Hw & _).
  eexists. split; [exact Hc |].
  split; [reflexivity |].
  split; [exact Hw |].
  split; [apply compact_settled; exact Hset |].
  intros Hwf. cbn [queue.buffers].
  unfold queue.compact in Hc.
  destruct (queue.compact_loop _ _ _) as [[bufs1 cnt1] |] eqn:Hloop;
    [| discriminate Hc].
  injection Hc as -> _.
  apply (compact_loop_wf _ _ _ _ _ Hwf Hloop).
Qed.

End Compact.

(** ** Queue: copy *)
Section Copy.
Import Error Buffer.

Lemma length_words_bytes (ws : list Z) :
  length (queue.words_bytes ws) = (length ws * queue.sizeof_word)%nat.
Proof.
  unfold queue.words_bytes.
  induction ws as [| w ws IH]; [reflexivity |].
  cbn [flat_map]. rewrite length_app, IH. reflexivity.
Qed.

Lemma words_bytes_app (a b : list Z) :
  queue.words_bytes (a ++ b) = queue.words_bytes a ++ queue.words_bytes b.
Proof. unfold queue.words_bytes. apply flat_map_app. Qed.

(** [memcpy] over the part [mid] of the destination. *)
Lemma memcpy_over (pre mid post src : list Z) (to n : nat) :
  length pre = (to * queue.sizeof_word)%nat ->
  length mid = n ->
  (n <= length src)%nat ->
  queue.memcpy (pre ++ mid ++ post) to src n = Some (pre ++ take n src ++ post).
Proof.
  intros Hpre Hmid Hsrc. unfold queue.memcpy. rewrite <- Hpre.
  rewrite !length_app.
  destruct (Nat.leb_spec (length pre + n)
              (length pre + (length mid + length post))) as [_ | ?]; [| lia].
  destruct (Nat.leb_spec n (length src)) as [_ | ?]; [| lia].
  cbn [andb]. f_equal.
  rewrite take_app_length. f_equal. f_equal.
  rewrite drop_app_add. subst n. apply drop_app_length.
Qed.

(** [count] above [size_]: the call throws before it touches anything. *)
Lemma copy_not_enough (to : list Z) (count : nat) (q : queue.t) :
  Z.of_nat count > queue.size_ q ->
  queue.copy to count q
    = Throw (sdk_error buffer_pool_not_enough "not enough data in queue").
Proof.
  intros H. unfold queue.copy, queue.copy_unprotected.
  destruct (Z.gtb_spec (Z.of_nat count) (queue.size_ q)); [reflexivity | lia].
Qed.

(** With nothing left to move the loop stops where it stands. *)
Lemma copy_loop_done (from_bi : list handle) (st : queue.copy_state) :
  queue.cs_to_move st = 0%nat ->
  queue.copy_loop from_bi st = Some ([], from_bi, st).
Proof.
  intros H. destruct from_bi; cbn [queue.copy_loop]; [reflexivity |].
  rewrite H. reflexivity.
Qed.

(** The loop over a range [front] of buffers that [to_move] covers: all
    their words arrive, in order; the buffers are emptied and walked
    over; the counters go down by the words and the buffers; the loop
    goes on behind [front] with what is left to move. *)
Lemma copy_loop_front (front : list handle) :
  forall (rest : list handle) (pre mid post : list Z) (extra : nat)
         (st : queue.copy_state),
    Forall (fun b => (0 < buffer_size b)%nat) front ->
    queue.cs_mem st = pre ++ mid ++ post ->
    length pre = (queue.cs_to st * queue.sizeof_word)%nat ->
    length mid = (queue.words_in front * queue.sizeof_word)%nat ->
    queue.cs_to_move st = (queue.words_in front + extra)%nat ->
    Z.of_nat (queue.words_in front) <= queue.cs_size_ st < 2 ^ 64 ->
    Z.of_nat (length front) <= queue.cs_count_ st < 2 ^ 64 ->
    queue.copy_loop (front ++ rest) st =
      match
        queue.copy_loop rest
          {| queue.cs_mem :=
               pre ++ queue.words_bytes (flat_map data front) ++ post;
             queue.cs_to := queue.cs_to st + queue.words_in front;
             queue.cs_to_move := extra;
             queue.cs_size_ :=
               queue.cs_size_ st - Z.of_nat (queue.words_in front);
             queue.cs_count_ :=
               queue.cs_count_ st - Z.of_nat (length front) |}
      with
      | None => None
      | Some (walked, ahead, st') => Some (map clear front ++ walked, ahead, st')
      end.
Proof.
  induction front as [| from front IH];
    intros rest pre mid post extra st Hne Hmem Hpre Hmid Hmove Hsize Hcount.
  - cbn [queue.words_in flat_map length Nat.mul Nat.add] in *.
    destruct mid; [| discriminate Hmid].
    cbn [app map queue.words_bytes flat_map]. rewrite Nat.add_0_r, !Z.sub_0_r.
    destruct st as [mem to to_move sz cnt]. cbn in *. subst.
    destruct (queue.copy_loop rest _) as [[[walked ahead] st'] |]; reflexivity.
  - inversion Hne as [| ? ? Hpos Hne']; subst.
    unfold queue.words_in in *. cbn [flat_map length] in *.
    rewrite length_app in *. fold (buffer_size from) in *.
    cbn [app queue.copy_loop]. rewrite Hmove.
    destruct (Nat.ltb_spec 0
                (buffer_size from + length (flat_map data front) + extra))
      as [_ | ?]; [| lia].
    destruct (Nat.leb_spec (buffer_size from)
                (buffer_size from + length (flat_map data front) + extra))
      as [_ | ?]; [| lia].
    rewrite <- (take_drop (buffer_size from * queue.sizeof_word) mid) in Hmem.
    rewrite <- app_assoc in Hmem. rewrite Hmem.
    rewrite (memcpy_over pre _ _ (queue.words_bytes (data from)));
      [| exact Hpre | rewrite length_take; lia
       | rewrite length_words_bytes; unfold buffer_size; lia].
    rewrite take_ge by (rewrite length_words_bytes; unfold buffer_size; lia).
    rewrite (IH rest (pre ++ queue.words_bytes (data from))
               (drop (buffer_size from * queue.sizeof_word) mid) post extra);
      cbn [queue.cs_mem queue.cs_to queue.cs_to_move queue.cs_size_
             queue.cs_count_].
    + rewrite !wrap_small by lia.
      replace (pre ++ queue.words_bytes (data from ++ flat_map data front)
                   ++ post)
        with ((pre ++ queue.words_bytes (data from)) ++
              queue.words_bytes (flat_map data front) ++ post)
        by (rewrite words_bytes_app, <- !app_assoc; reflexivity).
      replace (queue.cs_to st
               + (buffer_size from + length (flat_map data front)))%nat
        with (queue.cs_to st + buffer_size from
              + length (flat_map data front))%nat by lia.
      replace (queue.cs_size_ st
               - Z.of_nat (buffer_size from + length (flat_map data front)))
        with (queue.cs_size_ st - Z.of_nat (buffer_size from)
              - Z.of_nat (length (flat_map data front))) by lia.
      replace (queue.cs_count_ st - Z.of_nat (S (length front)))
        with (queue.cs_count_ st - 1 - Z.of_nat (length front)) by lia.
      destruct (queue.copy_loop rest _) as [[[walked ahead] st'] |];
        reflexivity.
    + exact Hne'.
    + rewrite <- app_assoc. reflexivity.
    + rewrite length_app, length_words_bytes. unfold buffer_size. lia.
    + rewrite length_drop. lia.
    + lia.
    + rewrite wrap_small by lia. lia.
    + rewrite wrap_small by lia. lia.
Qed.

(** A drain that ends on a buffer boundary does what the claim says, and
    keeps the invariant of the counters. *)
Lemma copy_whole_buffers (front back : list handle) (mid post : list Z)
    (q : queue.t) :
  queue.buffers q = front ++ back ->
  Forall (fun b => (0 < buffer_size b)%nat) front ->
  queue.inv q -> queue.in_range q ->
  length mid = (queue.words_in front * queue.sizeof_word)%nat ->
  queue.copy (mid ++ post) (queue.words_in front) q =
    Ok {| queue.to_mem := queue.words_bytes (flat_map data front) ++ post;
          queue.after :=
            {| queue.buffers := back;
               queue.size_ := queue.size_ q - Z.of_nat (queue.words_in front);
               queue.count_ := queue.count_ q - Z.of_nat (length front) |};
          queue.erased := map clear front |} /\
  queue.inv
    {| queue.buffers := back;
       queue.size_ := queue.size_ q - Z.of_nat (queue.words_in front);
       queue.count_ := queue.count_ q - Z.of_nat (length front) |}.
Proof.
  intros Hb Hne [Hsz Hcn] [Hrs Hrc] Hmid.
  unfold queue.size, queue.count, queue.held_size, queue.held_words in *.
  rewrite Hb in *. rewrite flat_map_app, length_app in Hsz.
  rewrite length_app in Hcn.
  split.
  - unfold queue.copy, queue.copy_unprotected.
    destruct (Z.gtb_spec (Z.of_nat (queue.words_in front)) (queue.size_ q));
      [unfold queue.words_in in *; lia |].
    rewrite Hb.
    rewrite (copy_loop_front front back [] mid post 0);
      cbn [queue.cs_mem queue.cs_to queue.cs_to_move queue.cs_size_
             queue.cs_count_ app length]; auto;
      unfold queue.words_in in *; try lia.
    rewrite copy_loop_done by reflexivity.
    rewrite app_nil_r. reflexivity.
  - unfold queue.inv, queue.size, queue.count, queue.held_size,
      queue.held_words, queue.words_in.
    cbn [queue.buffers queue.size_ queue.count_].
    lia.
Qed.

(** A drain that ends inside a buffer: [from] has more than the [k > 0]
    words still to move.  The first [k] bytes of [from] arrive, not its
    first [k] words; [size_] does not go down by [k]; and the erase at the
    end drops [from] with the words left in it, while [count_] still
    counts it. *)
Lemma copy_into_buffer (front back : list handle) (from : handle) (k : nat)
    (mid part post : list Z) (q : queue.t) :
  queue.buffers q = front ++ from :: back ->
  Forall (fun b => (0 < buffer_size b)%nat) front ->
  queue.inv q -> queue.in_range q ->
  (0 < k < buffer_size from)%nat ->
  length mid = (queue.words_in front * queue.sizeof_word)%nat ->
  length part = k ->
  queue.copy (mid ++ part ++ post) (queue.words_in front + k) q =
    Ok {| queue.to_mem :=
            queue.words_bytes (flat_map data front) ++
            take k (queue.words_bytes (data from)) ++ post;
          queue.after :=
            {| queue.buffers := back;
               queue.size_ := queue.size_ q - Z.of_nat (queue.words_in front);
               queue.count_ := queue.count_ q - Z.of_nat (length front) |};
          queue.erased := map clear front ++ [erase_front k from] |}.
Proof.
  intros Hb Hne [Hsz Hcn] [Hrs Hrc] Hk Hmid Hpart.
  unfold queue.size, queue.count, queue.held_size, queue.held_words in *.
  rewrite Hb in *. rewrite flat_map_app, length_app in Hsz.
  cbn [flat_map] in Hsz. rewrite !length_app in Hsz.
  rewrite length_app in Hcn. cbn [length] in Hcn.
  fold (buffer_size from) in Hsz.
  unfold queue.copy, queue.copy_unprotected.
  destruct (Z.gtb_spec (Z.of_nat (queue.words_in front + k)) (queue.size_ q));
    [unfold queue.words_in in *; lia |].
  rewrite Hb.
  rewrite (copy_loop_front front (from :: back) [] mid (part ++ post) k);
    cbn [queue.cs_mem queue.cs_to queue.cs_to_move queue.cs_size_
           queue.cs_count_ app length]; auto;
    unfold queue.words_in in *; try lia.
  cbn [queue.copy_loop queue.cs_to_move queue.cs_mem queue.cs_to
         queue.cs_size_ queue.cs_count_ Nat.add].
  destruct (Nat.ltb_spec 0 k) as [_ | ?]; [| lia].
  destruct (Nat.leb_spec (buffer_size from) k) as [? | _]; [lia |].
  rewrite (memcpy_over (queue.words_bytes (flat_map data front)) part post);
    [| rewrite length_words_bytes; reflexivity | exact Hpart
     | rewrite length_words_bytes; unfold buffer_size, queue.sizeof_word in *;
       lia].
  rewrite copy_loop_done by reflexivity.
  cbn [queue.cs_mem queue.cs_size_ queue.cs_count_].
  rewrite Z.sub_0_r, wrap_small by lia.
  reflexivity.
Qed.

End Copy.

(** ** Queue: the counters *)
Section Counters.
Import Error Buffer.

Lemma new_inv : queue.inv queue.new /\ queue.in_range queue.new.
Proof. repeat split; cbn; lia. Qed.

Lemma push_inv (buf : handle) (q : queue.t) :
  queue.inv q -> queue.in_range q ->
  queue.size_ q + Z.of_nat (buffer_size buf) < 2 ^ 64 ->
  queue.count_ q + 1 < 2 ^ 64 ->
  queue.inv (queue.push buf q) /\ queue.in_range (queue.push buf q).
Proof.
  intros [Hs Hc] [Hrs Hrc] Hbs Hbc. unfold queue.push.
  destruct (0 <? buffer_size buf)%nat; [| repeat split; auto; lia].
  unfold queue.inv, queue.in_range, queue.size, queue.count,
    queue.held_size, queue.held_words in *.
  cbn [queue.buffers queue.size_ queue.count_].
  rewrite !wrap_small by lia.
  rewrite flat_map_app, !length_app. cbn [flat_map length].
  rewrite app_nil_r. fold (buffer_size buf). lia.
Qed.

Lemma pop_inv (buf : handle) (q q' : queue.t) :
  queue.inv q -> queue.in_range q ->
  queue.pop q = Ok (buf, q') ->
  queue.inv q' /\ queue.in_range q'.
Proof.
  intros [Hs Hc] [Hrs Hrc] H. unfold queue.pop in H.
  destruct (queue.buffers q) as [| b rest] eqn:Hb; [discriminate H |].
  injection H as <- <-.
  unfold queue.inv, queue.in_range, queue.size, queue.count,
    queue.held_size, queue.held_words in *.
  rewrite Hb in *. cbn [flat_map length] in *.
  rewrite length_app in Hs. fold (buffer_size b) in Hs.
  cbn [queue.buffers queue.size_ queue.count_].
  rewrite !wrap_small by lia. lia.
Qed.

Lemma compact_inv (q q' : queue.t) :
  queue.inv q -> queue.in_range q ->
  queue.compact q = Some q' ->
  queue.inv q' /\ queue.in_range q'.
Proof.
  intros [Hs Hc] [Hrs Hrc] H.
  destruct (compact_returns q) as (bufs' & Hq & _ & Hw & Hl).
  rewrite Hq in H. injection H as <-.
  unfold queue.inv, queue.in_range, queue.size, queue.count,
    queue.held_size, queue.held_words in *.
  cbn [queue.buffers queue.size_ queue.count_].
  rewrite dec_exact by lia. rewrite Hw. lia.
Qed.

(** C1 (the code departs from the claim).  Scenario S4: the queue holds
    buffers of 100, 50 and 30 words, [size()] is 180.  [copy(to, 130)]
    empties the first buffer into the destination but of the second only
    the first 30 bytes arrive; the 20 words left are moved to the front of
    the second buffer, which is then erased with the first; [size()] is 80
    afterwards, [count()] is 2, and the one handle left holds 30 words,
    not 50.  It is so for every drain that ends inside a buffer: of that
    buffer as many bytes arrive as words were asked for, [size_] is not
    taken down by them, and the buffer is erased with what is left in
    it.  A drain that ends on a buffer boundary moves exactly the words
    of the buffers it empties, in order, and a count above [size_] throws
    [buffer_pool_not_enough]. *)
Theorem copy_ends_inside_a_buffer :
  queue.inv queue.s4_queue /\
  queue.size queue.s4_queue = 180 /\
  queue.count queue.s4_queue = 3 /\
  queue.copy (replicate 520 0) 130 queue.s4_queue =
    Ok {| queue.to_mem :=
            queue.words_bytes (queue.sentinels 0 100) ++
            take 30 (queue.words_bytes (queue.sentinels 100 50)) ++
            replicate 90 0;
          queue.after :=
            {| queue.buffers := [mk_buffer (queue.sentinels 150 30) 1024];
               queue.size_ := 80;
               queue.count_ := 2 |};
          queue.erased :=
            [mk_buffer [] 1024; mk_buffer (queue.sentinels 130 20) 1024] |} /\
  queue.held_size
    {| queue.buffers := [mk_buffer (queue.sentinels 150 30) 1024];
       queue.size_ := 80;
       queue.count_ := 2 |} = 30 /\
  (forall (front back : list handle) (from : handle) (k : nat)
          (mid part post : list Z) (q : queue.t),
     queue.buffers q = front ++ from :: back ->
     Forall (fun b => (0 < buffer_size b)%nat) front ->
     queue.inv q -> queue.in_range q ->
     (0 < k < buffer_size from)%nat ->
     length mid = (queue.words_in front * queue.sizeof_word)%nat ->
     length part = k ->
     queue.copy (mid ++ part ++ post) (queue.words_in front + k) q =
       Ok {| queue.to_mem :=
               queue.words_bytes (flat_map data front) ++
               take k (queue.words_bytes (data from)) ++ post;
             queue.after :=
               {| queue.buffers := back;
                  queue.size_ :=
                    queue.size_ q - Z.of_nat (queue.words_in front);
                  queue.count_ :=
                    queue.count_ q - Z.of_nat (length front) |};
             queue.erased := map clear front ++ [erase_front k from] |}) /\
  (forall (front back : list handle) (mid post : list Z) (q : queue.t),
     queue.buffers q = front ++ back ->
     Forall (fun b => (0 < buffer_size b)%nat) front ->
     queue.inv q -> queue.in_range q ->
     length mid = (queue.words_in front * queue.sizeof_word)%nat ->
     queue.copy (mid ++ post) (queue.words_in front) q =
       Ok {| queue.to_mem :=
               queue.words_bytes (flat_map data front) ++ post;
             queue.after :=
               {| queue.buffers := back;
                  queue.size_ :=
                    queue.size_ q - Z.of_nat (queue.words_in front);
                  queue.count_ :=
                    queue.count_ q - Z.of_nat (length front) |};
             queue.erased := map clear front |}) /\
  (forall (to : list Z) (count : nat) (q : queue.t),
     Z.of_nat count > queue.size_ q ->
     queue.copy to count q
       = Throw (sdk_error buffer_pool_not_enough "not enough data in queue")).
Proof.
  do 5 (split; [repeat split; vm_compute; reflexivity |]).
  split; [intros front back from k mid part post q; apply copy_into_buffer |].
  split; [| exact copy_not_enough].
  intros front back mid post q Hb Hne Hinv Hr Hmid.
  apply (copy_whole_buffers front back mid post q Hb Hne Hinv Hr Hmid).
Qed.

(** C2 (the code departs from the claim).  [flush] drops the handles and
    leaves both counters as they were: after one push of a one-word
    buffer, where the invariant holds, and a flush, [size()] and [count()]
    are 1 and the queue holds nothing.  The copy of scenario S4, which
    ends inside a buffer, leaves [size()] at 80 and [count()] at 2 over
    one handle of 30 words.  A new queue satisfies the invariant, and
    push, pop and compact keep it (as does a copy that ends on a buffer
    boundary, [copy_whole_buffers]). *)
Theorem flush_keeps_the_counters :
  (forall q : queue.t,
     queue.buffers (queue.flush q) = [] /\
     queue.size (queue.flush q) = queue.size q /\
     queue.count (queue.flush q) = queue.count q) /\
  queue.inv (queue.push (mk_buffer [7] 4) queue.new) /\
  queue.size (queue.flush (queue.push (mk_buffer [7] 4) queue.new)) = 1 /\
  queue.count (queue.flush (queue.push (mk_buffer [7] 4) queue.new)) = 1 /\
  queue.held_size (queue.flush (queue.push (mk_buffer [7] 4) queue.new)) = 0 /\
  length (queue.buffers
            (queue.flush (queue.push (mk_buffer [7] 4) queue.new))) = 0%nat /\
  (exists r : queue.copied,
     queue.copy (replicate 520 0) 130 queue.s4_queue = Ok r /\
     queue.size (queue.after r) = 80 /\
     queue.held_size (queue.after r) = 30 /\
     queue.count (queue.after r) = 2 /\
     length (queue.buffers (queue.after r)) = 1%nat) /\
  (queue.inv queue.new /\ queue.in_range queue.new) /\
  (forall (buf : handle) (q : queue.t),
     queue.inv q -> queue.in_range q ->
     queue.size_ q + Z.of_nat (buffer_size buf) < 2 ^ 64 ->
     queue.count_ q + 1 < 2 ^ 64 ->
     queue.inv (queue.push buf q) /\ queue.in_range (queue.push buf q)) /\
  (forall (buf : handle) (q q' : queue.t),
     queue.inv q -> queue.in_range q ->
     queue.pop q = Ok (buf, q') ->
     queue.inv q' /\ queue.in_range q') /\
  (forall q q' : queue.t,
     queue.inv q -> queue.in_range q ->
     queue.compact q = Some q' ->
     queue.inv q' /\ queue.in_range q').
Proof.
  split; [intros q; repeat split |].
  split; [split; vm_compute; reflexivity |].
  do 4 (split; [vm_compute; reflexivity |]).
  split.
  { eexists. split; [vm_compute; reflexivity |].
    repeat split; vm_compute; reflexivity. }
  split; [exact new_inv |].
  split; [exact push_inv |].
  split; [exact pop_inv | exact compact_inv].
Qed.

End Counters.

(** ** List-mode save worker *)
Section SaveWorker.
Import Error TestApi.
Context {M : Type} (api : module_api M).

Lemma drain_returns (w : world) :
  never_fails api ->
  exists (lm : list Z) (m' : M) (w' : world),
    read_list_mode api (the_module w) = Ok (lm, m') /\
    drain api w = (w', Ok tt) /\
    the_module w' = m' /\
    out w' = out w ++ lm /\
    run_task (self w') = run_task (self w).
Proof.
  intros (_ & Hread & _). destruct (Hread (the_module w)) as (lm & m' & Hr).
  exists lm, m'. unfold drain, bind, on_module. rewrite Hr.
  destruct (0 <? length lm)%nat eqn:Hlen.
  - eexists. split; [reflexivity |]. split; [reflexivity |]. auto.
  - eexists. split; [reflexivity |]. split; [reflexivity |].
    cbn [the_module out self]. repeat split.
    destruct lm; [rewrite app_nil_r; reflexivity | discriminate Hlen].
Qed.

Lemma poll_loop_returns (polls : nat) (w : world) :
  never_fails api ->
  exists w' : world,
    poll_loop api polls w = (w', Ok tt) /\
    run_task (self w') = run_task (self w).
Proof.
  intros Hnf. revert w. induction polls as [| polls IH]; intros w.
  - exists w. auto.
  - destruct (drain_returns w Hnf) as (lm & m' & w1 & _ & Hd & _ & _ & Ht).
    destruct (IH w1) as (w' & Hp & Ht').
    exists w'. cbn [poll_loop]. unfold bind at 1. rewrite Hd, Hp.
    split; [reflexivity | congruence].
Qed.

Lemma list_mode_run_returns (strerror : string) (polls : nat) (task : bool)
    (w : world) :
  never_fails api ->
  exists w1 : world,
    list_mode_run api true strerror polls task w = (w1, Ok tt) /\
    run_task (self w1) = run_task (self w).
Proof.
  intros Hnf. unfold list_mode_run. cbn [negb].
  unfold bind at 1. cbn [set_name].
  set (w0 := {| the_module := the_module w |}).
  assert (exists w0' : world,
            (if task then on_module (unit_op (start_listmode api))
             else ret tt) w0 = (w0', Ok tt) /\
            run_task (self w0') = run_task (self w)) as (w0' & Hs & Ht0).
  { destruct task.
    - destruct Hnf as (Hstart & _ & _).
      destruct (Hstart (the_module w0)) as (m' & Hm).
      unfold on_module, unit_op. rewrite Hm. eexists. split; reflexivity.
    - exists w0. split; reflexivity. }
  unfold bind at 1. rewrite Hs.
  unfold bind at 1. cbn [set_total].
  match goal with |- context [poll_loop api polls ?x] =>
    destruct (poll_loop_returns polls x Hnf) as (w1 & Hp & Ht1) end.
  exists w1. split; [exact Hp |].
  rewrite Ht1. cbn [self run_task]. exact Ht0.
Qed.

(** The end of a run task: after the run, [run_end] and a last read
    whose words go to the file, the outcome is decided by the statistics
    of the module; each failed check is a [std::runtime_error]. *)
Lemma worker_exit_checks (strerror : string) (polls : nat) (w : world) :
  never_fails api ->
  run_task (self w) = true ->
  exists (w1 : world) (m1 : M) (lm : list Z) (m2 : M),
    list_mode_run api true strerror polls true w = (w1, Ok tt) /\
    run_end api (the_module w1) = Ok m1 /\
    read_list_mode api m1 = Ok (lm, m2) /\
    the_module (worker api true strerror polls w).1 = m2 /\
    out (worker api true strerror polls w).1 = out w1 ++ lm /\
    (worker api true strerror polls w).2 =
      (if negb (hw_overflows (stats api m2) =? 0) then
         Throw (runtime_error
                  "list mode: EXT FIFO overflow (check workflow config)")
       else if negb (overflows (stats api m2) =? 0) then
         Throw (runtime_error
                  "list mode: data FIFO overflow (check buffer sizes)")
       else if negb (fifo_in (stats api m2) =? fifo_out (stats api m2)) then
         Throw (runtime_error "list mode: data left in data FIFO")
       else Ok tt).
Proof.
  intros Hnf Htask.
  destruct (list_mode_run_returns strerror polls true w Hnf)
    as (w1 & Hrun & Ht1).
  pose proof Hnf as (_ & _ & Hend).
  destruct (Hend (the_module w1)) as (m1 & Hm1).
  destruct (drain_returns
              {| the_module := m1; self := self w1; out := out w1 |} Hnf)
    as (lm & m2 & wd & Hm2 & Hd & Hmod & Hout & _).
  cbn [the_module out] in Hm2, Hout.
  exists w1, m1, lm, m2.
  split; [exact Hrun |]. split; [exact Hm1 |]. split; [exact Hm2 |].
  assert (worker api true strerror polls w = check_stats api wd) as ->.
  { unfold worker. rewrite Htask. unfold bind at 1. rewrite Hrun.
    unfold list_mode_exit. unfold bind at 1.
    unfold on_module, unit_op. rewrite Hm1.
    unfold bind at 1. rewrite Hd. reflexivity. }
  unfold check_stats. rewrite Hmod.
  destruct (negb (hw_overflows (stats api m2) =? 0));
    destruct (negb (overflows (stats api m2) =? 0));
    destruct (negb (fifo_in (stats api m2) =? fifo_out (stats api m2)));
    cbn [fst snd]; auto.
Qed.

(** C8 (amended).  A run task whose module operations do not throw and
    whose output file opens: at the end the worker calls [run_end], reads
    the list-mode FIFO once more and writes what it gets to the file, and
    then checks the statistics of the module.  If [hw_overflows] is not 0,
    or [overflows] is not 0, or [in] differs from [out], the worker throws
    a [std::runtime_error]; it never throws an error of the type
    [module_invalid_operation], and the thread stores the exception in its
    promise, so that [future.get()] throws it again.  With clean
    statistics the worker returns and the promise holds [success]. *)
Theorem list_save_worker_exit_checks (strerror : string) (polls : nat)
    (w : world) :
  never_fails api ->
  run_task (self w) = true ->
  exists (w1 : world) (m1 : M) (lm : list Z) (m2 : M),
    list_mode_run api true strerror polls true (set_running true w)
      = (w1, Ok tt) /\
    run_end api (the_module w1) = Ok m1 /\
    read_list_mode api m1 = Ok (lm, m2) /\
    the_module (worker api true strerror polls (set_running true w)).1 = m2 /\
    out (worker api true strerror polls (set_running true w)).1
      = out w1 ++ lm /\
    (~ clean (stats api m2) ->
     exists what : string,
       (worker api true strerror polls (set_running true w)).2
         = Throw (runtime_error what) /\
       (thread_body api true strerror polls w).2
         = Some (set_exception (runtime_error what)) /\
       future_get (set_exception (runtime_error what))
         = Throw (runtime_error what)) /\
    (clean (stats api m2) ->
     (worker api true strerror polls (set_running true w)).2 = Ok tt /\
     (thread_body api true strerror polls w).2 = Some (set_value success)) /\
    (forall what : string,
       (worker api true strerror polls (set_running true w)).2
         <> Throw (sdk_error module_invalid_operation what)).
Proof.
  intros Hnf Htask.
  destruct (worker_exit_checks strerror polls (set_running true w) Hnf)
    as (w1 & m1 & lm & m2 & Hrun & Hm1 & Hm2 & Hmod & Hout & Hres);
    [exact Htask |].
  exists w1, m1, lm, m2.
  do 5 (split; [assumption |]).
  unfold thread_body.
  destruct (worker api true strerror polls (set_running true w))
    as [w2 res]. cbn [fst snd] in *. subst res.
  unfold clean.
  destruct (Z.eqb_spec (hw_overflows (stats api m2)) 0) as [Hhw | Hhw];
    cbn [negb];
    [destruct (Z.eqb_spec (overflows (stats api m2)) 0) as [Hov | Hov];
     cbn [negb];
     [destruct (Z.eqb_spec (fifo_in (stats api m2)) (fifo_out (stats api m2)))
        as [Hio | Hio]; cbn [negb] | ] | ].
  all: split; [intros Hbad; try (exfalso; apply Hbad; auto; fail);
               eexists; repeat split |].
  all: split; [intros (H1 & H2 & H3); try contradiction; auto |].
  all: intros what; discriminate.
Qed.

End SaveWorker.

Section SaveWorkerSim.
Import Error TestApi.

Lemma sim_never_fails : never_fails sim_api.
Proof.
  repeat split; intros m; cbn; eauto.
  unfold sim_read. destruct (sim_fifo m); eauto.
Qed.

Lemma list_save_worker_exit_checks_witness :
  never_fails sim_api /\
  run_task (self (sim_world (mk_run_stats 1 0 10 10))) = true /\
  exists (w1 : world) (m1 : sim_module) (lm : list Z) (m2 : sim_module),
    list_mode_run sim_api true "" 3 true
      (set_running true (sim_world (mk_run_stats 1 0 10 10))) = (w1, Ok tt) /\
    run_end sim_api (the_module w1) = Ok m1 /\
    read_list_mode sim_api m1 = Ok (lm, m2) /\
    the_module
      (worker sim_api true "" 3
         (set_running true (sim_world (mk_run_stats 1 0 10 10)))).1 = m2 /\
    out (worker sim_api true "" 3
           (set_running true (sim_world (mk_run_stats 1 0 10 10)))).1
      = out w1 ++ lm /\
    (~ clean (stats sim_api m2) ->
     exists what : string,
       (worker sim_api true "" 3
          (set_running true (sim_world (mk_run_stats 1 0 10 10)))).2
         = Throw (runtime_error what) /\
       (thread_body sim_api true "" 3 (sim_world (mk_run_stats 1 0 10 10))).2
         = Some (set_exception (runtime_error what)) /\
       future_get (set_exception (runtime_error what))
         = Throw (runtime_error what)) /\
    (clean (stats sim_api m2) ->
     (worker sim_api true "" 3
        (set_running true (sim_world (mk_run_stats 1 0 10 10)))).2 = Ok tt /\
     (thread_body sim_api true "" 3 (sim_world (mk_run_stats 1 0 10 10))).2
       = Some (set_value success)) /\
    (forall what : string,
       (worker sim_api true "" 3
          (set_running true (sim_world (mk_run_stats 1 0 10 10)))).2
         <> Throw (sdk_error module_invalid_operation what)).
Proof.
  split; [exact sim_never_fails |].
  split; [reflexivity |].
  exact (list_save_worker_exit_checks sim_api "" 3
           (sim_world (mk_run_stats 1 0 10 10)) sim_never_fails eq_refl).
Defined.

(** C8 (as stated it fails).  A run task on the simulated module with
    [hw_overflows = 1]: the worker throws a [std::runtime_error], which
    has no error type; the promise of its thread holds the exception, not
    [module_invalid_operation]. *)
Lemma list_save_worker_overflow_counterexample :
  hw_overflows
    (stats sim_api
       (the_module
          (worker sim_api true "" 3 (sim_world (mk_run_stats 1 0 10 10))).1))
    = 1 /\
  (worker sim_api true "" 3 (sim_world (mk_run_stats 1 0 10 10))).2
    = Throw (runtime_error
               "list mode: EXT FIFO overflow (check workflow config)") /\
  (thread_body sim_api true "" 3 (sim_world (mk_run_stats 1 0 10 10))).2
    = Some (set_exception
              (runtime_error
                 "list mode: EXT FIFO overflow (check workflow config)")) /\
  (thread_body sim_api true "" 3 (sim_world (mk_run_stats 1 0 10 10))).2
    <> Some (set_value module_invalid_operation).
Proof.
  split; [vm_compute; reflexivity |].
  split; [vm_compute; reflexivity |].
  split; [vm_compute; reflexivity |].
  vm_compute. discriminate.
Qed.

End SaveWorkerSim.

(** ** The legacy crate *)
Section LegacyCrateProperties.
Import Error LegacyCrate.
Context {device : Type} (fresh : device)
        (pci_find_module : nat -> device -> bool * device)
        (pci_bus pci_slot : device -> Z).

Lemma same_place_refl (m : module) : same_place pci_bus pci_slot m m = true.
Proof. unfold same_place. rewrite !Z.eqb_refl. reflexivity. Qed.

(** The scan runs over the module just pushed, so it finds a place, the
    last at the latest. *)
Lemma find_if_finds_itself (mods : list module) (m : module) :
  exists i : nat,
    find_if (fun m' => same_place pci_bus pci_slot m' m) (mods ++ [m])
      = Some i /\
    (i <= length mods)%nat.
Proof.
  induction mods as [| m0 mods IH]; cbn [app find_if length].
  - rewrite same_place_refl. exists 0%nat. auto.
  - destruct (same_place pci_bus pci_slot m0 m).
    + exists 0%nat. split; [reflexivity | lia].
    + destruct IH as (i & -> & Hi). exists (S i). split; [reflexivity | lia].
Qed.

(** A device that is found ends the loop with the duplicate error. *)
Lemma scan_found (num todo device_number : nat) (mods : list module) :
  (pci_find_module device_number fresh).1 = true ->
  scan fresh pci_find_module pci_bus pci_slot num (S todo) device_number mods
    = (mods ++ [mk_module (pci_find_module device_number fresh).2],
       Throw (crate_error
                (found_of "duplicate Pixie16 module found"
                          (S (length mods)) num))).
Proof.
  intros Hfound. cbn [scan].
  destruct (pci_find_module device_number fresh) as [found dev].
  cbn [fst snd] in *. subst found. cbn [negb].
  destruct (find_if_finds_itself mods (mk_module dev)) as (i & -> & _).
  rewrite length_app. cbn [length]. rewrite Nat.add_1_r. reflexivity.
Qed.

Lemma initialize_found (c : crate) :
  (0 < num_modules c)%nat ->
  (pci_find_module 0 fresh).1 = true ->
  (initialize fresh pci_find_module pci_bus pci_slot c).2
    = Throw (crate_error
               (found_of "duplicate Pixie16 module found"
                         (S (length (modules c))) (num_modules c))).
Proof.
  intros Hnum Hfound. unfold initialize.
  destruct (num_modules c) as [| n] eqn:Hn; [lia |].
  rewrite (scan_found (S n) n 0 (modules c) Hfound). reflexivity.
Qed.

(** Where [initialize] returns, no device was found. *)
Lemma initialize_returns_nothing_found (c c' : crate) :
  initialize fresh pci_find_module pci_bus pci_slot c = (c', Ok tt) ->
  num_modules c = 0%nat \/ (pci_find_module 0 fresh).1 = false.
Proof.
  intros H. destruct (num_modules c) as [| n] eqn:Hn; [left; reflexivity |].
  right. destruct (pci_find_module 0 fresh).1 eqn:Hfound; [| reflexivity].
  pose proof (initialize_found c ltac:(lia) Hfound) as Hthrow.
  rewrite H in Hthrow. discriminate Hthrow.
Qed.

(** C10.  The constructor throws for every module count but 0.  In
    [initialize], a device that [pci_find_module] finds ends the loop
    with the "duplicate Pixie16 module found" error, whatever the crate
    holds, because the scan for a duplicate runs over the module just
    pushed and stops at it at the latest.  So a crate that could be
    constructed has [num_modules] 0, and [initialize] returns on it with
    no module found; on any crate a return of [initialize] means that no
    device was found. *)
Theorem legacy_crate_finds_no_module :
  (forall n : nat,
     n <> 0%nat ->
     crate_new (device := device) n
       = Throw (crate_error "crate already initialised")) /\
  crate_new (device := device) 0
    = Ok {| num_modules := 0; modules := [] |} /\
  (forall (mods : list module) (m : module),
     exists i : nat,
       find_if (fun m' => same_place pci_bus pci_slot m' m) (mods ++ [m])
         = Some i /\
       (i <= length mods)%nat) /\
  (forall (num todo device_number : nat) (mods : list module),
     (pci_find_module device_number fresh).1 = true ->
     scan fresh pci_find_module pci_bus pci_slot num (S todo) device_number
          mods
       = (mods ++ [mk_module (pci_find_module device_number fresh).2],
          Throw (crate_error
                   (found_of "duplicate Pixie16 module found"
                             (S (length mods)) num)))) /\
  (forall c : crate,
     (0 < num_modules c)%nat ->
     (pci_find_module 0 fresh).1 = true ->
     (initialize fresh pci_find_module pci_bus pci_slot c).2
       = Throw (crate_error
                  (found_of "duplicate Pixie16 module found"
                            (S (length (modules c))) (num_modules c)))) /\
  (forall c c' : crate,
     initialize fresh pci_find_module pci_bus pci_slot c = (c', Ok tt) ->
     num_modules c = 0%nat \/ (pci_find_module 0 fresh).1 = false) /\
  (forall (n : nat) (c : crate),
     crate_new n = Ok c ->
     n = 0%nat /\
     initialize fresh pci_find_module pci_bus pci_slot c
       = ({| num_modules := 0; modules := [] |}, Ok tt)).
Proof.
  split.
  { intros n Hn. unfold crate_new.
    destruct (Nat.eqb_spec n 0); [contradiction | reflexivity]. }
  split; [reflexivity |].
  split; [apply find_if_finds_itself |].
  split; [apply scan_found |].
  split; [apply initialize_found |].
  split; [apply initialize_returns_nothing_found |].
  intros n c H. unfold crate_new in H.
  destruct (Nat.eqb_spec n 0) as [-> | Hn]; [| discriminate H].
  injection H as <-. split; reflexivity.
Qed.

End LegacyCrateProperties.

(** The legacy crate on a bus with two devices in slots 2 and 3: a crate
    cannot be made for them, and [initialize] on a crate state with
    [num_modules = 2] stops at the first with the duplicate error. *)
Example legacy_crate_two_devices :
  LegacyCrate.crate_new (device := Z) 2
    = Error.Throw (Error.crate_error "crate already initialised") /\
  LegacyCrate.initialize 0 (fun n _ => (true, 2 + Z.of_nat n))
      (fun _ => 1) (fun d => d)
      {| LegacyCrate.num_modules := 2; LegacyCrate.modules := [] |}
    = ({| LegacyCrate.num_modules := 2;
          LegacyCrate.modules := [LegacyCrate.mk_module 2] |},
       Error.Throw
         (Error.crate_error
            "duplicate Pixie16 module found (found 1 of 2)")).
Proof. split; vm_compute; reflexivity. Qed.

(** A crate state with [num_modules = 1] is not what the constructor
    yields; on it, with no device on the bus, the loop pushes one module
    and stops, the sizes agree, and [initialize] returns. *)
Example legacy_crate_state_of_one :
  LegacyCrate.initialize 0 (fun _ d => (false, d)) (fun _ => 0) (fun d => d)
      {| LegacyCrate.num_modules := 1; LegacyCrate.modules := [] |}
    = ({| LegacyCrate.num_modules := 1;
          LegacyCrate.modules := [LegacyCrate.mk_module 0] |},
       Error.Ok tt).
Proof. vm_compute. reflexivity. Qed.

(* ===================================================================== *)
(** * Further properties                                                  *)
(* ===================================================================== *)

(** ** Result codes at the API boundary *)
Section ResultCodes.
Import Error ErrorApi.

Lemma to_int_small (z : Z) : - 2 ^ 31 <= z < 2 ^ 31 -> to_int z = z.
Proof. intros H. unfold to_int. rewrite Z.mod_small by lia. lia. Qed.

Lemma api_result_result_of (c : code) : api_result c = Ok (result_of c).
Proof. destruct c; vm_compute; reflexivity. Qed.

Lemma code_with_result_of (c : code) :
  is_Some (result_codes !! c) -> code_with (result_of c) = Some c.
Proof.
  intros [rc H].
  destruct c; try (vm_compute; reflexivity); vm_compute in H; discriminate H.
Qed.

(** X1.  Two codes of the table never share a result: [api_result] is
    one-to-one on the codes that have an entry. *)
Theorem api_result_one_to_one (c1 c2 : code) :
  is_Some (result_codes !! c1) ->
  is_Some (result_codes !! c2) ->
  api_result c1 = api_result c2 ->
  c1 = c2.
Proof.
  intros H1 H2 H.
  rewrite !api_result_result_of in H.
  assert (result_of c1 = result_of c2) as E by congruence.
  pose proof (code_with_result_of c1 H1) as E1.
  pose proof (code_with_result_of c2 H2) as E2.
  rewrite E in E1. congruence.
Qed.

Lemma api_result_one_to_one_witness :
  is_Some (result_codes !! module_offline) /\
  api_result module_offline = api_result module_offline /\
  module_offline = module_offline.
Proof.
  assert (is_Some (result_codes !! module_offline)) as H
    by (eexists; vm_compute; reflexivity).
  split; [exact H |]. split; [reflexivity |].
  exact (api_result_one_to_one module_offline module_offline H H eq_refl).
Defined.

(** The result and the return code of every code. *)
Lemma result_and_return_code (c : code) :
  exists r : Z,
    api_result c = Ok r /\
    0 <= r <= 990 /\
    (r = 0 <-> c = success) /\
    error_return_code c = Ok (- r) /\
    return_code r = - r /\
    (c <> success -> - r < 0).
Proof.
  exists (result_of c).
  split; [apply api_result_result_of |].
  unfold error_return_code, error_result, return_code.
  rewrite api_result_result_of.
  destruct c; vm_compute; repeat split; intros; congruence.
Qed.

(** X2.  For every code, in the table or not, [api_result] returns (the
    lookup of [bad_error_code] never throws), the result is between 0 and
    990 and is 0 for [success] only; [error::return_code()] is its
    negation, so it is negative for every code but [success]. *)
Theorem return_code_negative_but_for_success (c : code) :
  exists r : Z,
    api_result c = Ok r /\
    0 <= r <= 990 /\
    (r = 0 <-> c = success) /\
    error_return_code c = Ok (- r) /\
    return_code r = - r /\
    (c <> success -> - r < 0).
Proof. exact (result_and_return_code c). Qed.

End ResultCodes.

(** ** Test data of the system test utility *)
Section TestData.
Import SystemTest.

Lemma uint_small (z : Z) : 0 <= z < 2 ^ 32 -> uint z = z.
Proof. intros H. unfold uint. apply Z.mod_small. exact H. Qed.

Lemma land_pow2_pred (k : Z) : 0 <= k -> Z.land (2 ^ k) (2 ^ k - 1) = 0.
Proof.
  intros Hk. apply Z.bits_inj'. intros n Hn.
  rewrite Z.land_spec, Z.bits_0, Z.pow2_bits_eqb by lia.
  destruct (Z.eqb_spec k n) as [-> | Hne]; [| reflexivity].
  cbn [andb]. replace (2 ^ n - 1) with (Z.ones n)
    by (rewrite Z.ones_equiv; lia).
  apply Z.ones_spec_high. lia.
Qed.

Lemma land_pred_zero_pow2 (v : Z) :
  0 < v -> Z.land v (v - 1) = 0 -> v = 2 ^ Z.log2 v.
Proof.
  intros Hv Hland.
  destruct (Z.log2_spec v Hv) as [Hlo Hhi].
  destruct (Z.eq_dec v (2 ^ Z.log2 v)) as [E | Hne]; [exact E | exfalso].
  assert (Z.log2 (v - 1) = Z.log2 v) as Hlog.
  { apply Z.log2_unique; [apply Z.log2_nonneg | lia]. }
  assert (Z.testbit (Z.land v (v - 1)) (Z.log2 v) = true) as Hbit.
  { rewrite Z.land_spec, (Z.bit_log2 v Hv).
    rewrite <- Hlog. rewrite Z.bit_log2; [reflexivity | ].
    pose proof (Z.pow_pos_nonneg 2 (Z.log2 v) ltac:(lia) (Z.log2_nonneg v)).
    lia. }
  rewrite Hland, Z.bits_0 in Hbit. discriminate Hbit.
Qed.

(** The bit test of [verify_power_of_two]. *)
Lemma power_of_two_test (value : Z) :
  0 <= value < 2 ^ 32 ->
  (verify_power_of_two value = true <->
   exists k : Z, 0 <= k < 32 /\ value = 2 ^ k).
Proof.
  intros Hv. unfold verify_power_of_two. split.
  - intros H. apply andb_true_iff in H as [Hnz Hland].
    apply negb_true_iff, Z.eqb_neq in Hnz. apply Z.eqb_eq in Hland.
    rewrite uint_small in Hland by lia.
    exists (Z.log2 value).
    split; [| apply land_pred_zero_pow2; [lia | exact Hland]].
    split; [apply Z.log2_nonneg |].
    apply Z.log2_lt_pow2; lia.
  - intros (k & Hk & ->).
    assert (0 < 2 ^ k) by (apply Z.pow_pos_nonneg; lia).
    rewrite uint_small by lia.
    rewrite land_pow2_pred by lia.
    destruct (Z.eqb_spec (2 ^ k) 0); [lia | reflexivity].
Qed.

(** X3.  On [unsigned int] values [verify_power_of_two] holds exactly for
    the powers of two 1, 2, 4, ..., 2^31; it is false for 0. *)
Theorem verify_power_of_two_spec (value : Z) :
  0 <= value < 2 ^ 32 ->
  (verify_power_of_two value = true <->
   exists k : Z, 0 <= k < 32 /\ value = 2 ^ k).
Proof. exact (power_of_two_test value). Qed.

Lemma verify_power_of_two_spec_witness :
  0 <= 1024 < 2 ^ 32 /\
  (verify_power_of_two 1024 = true <->
   exists k : Z, 0 <= k < 32 /\ 1024 = 2 ^ k).
Proof.
  assert (0 <= 1024 < 2 ^ 32) as H by lia.
  split; [exact H |].
  exact (verify_power_of_two_spec 1024 H).
Defined.

(** The loop from an even [entry] on, for an even [size]. *)
Lemma data_loop_even (data_pattern : DATA_PATTERN) (m : nat) :
  forall (n j : nat),
    (m <= n)%nat ->
    2 * Z.of_nat (j + m) < 2 ^ 32 ->
    data_loop n data_pattern (2 * Z.of_nat (j + m)) (2 * Z.of_nat j) =
      Some (flat_map
              (fun i => emplace_pair data_pattern (2 * Z.of_nat (j + m))
                          (2 * Z.of_nat i))
              (seq j m)).
Proof.
  induction m as [| m IH]; intros n j Hn Hsize.
  - rewrite Nat.add_0_r.
    destruct n; cbn [data_loop seq flat_map];
      rewrite Z.ltb_irrefl; reflexivity.
  - destruct n as [| n]; [lia |].
    cbn [data_loop seq flat_map].
    destruct (Z.ltb_spec (2 * Z.of_nat j) (2 * Z.of_nat (j + S m)));
      [| lia].
    rewrite uint_small by lia.
    replace (2 * Z.of_nat j + 2) with (2 * Z.of_nat (S j)) by lia.
    replace (j + S m)%nat with (S j + m)%nat by lia.
    rewrite IH by lia. reflexivity.
Qed.

Lemma length_emplace_pairs (data_pattern : DATA_PATTERN) (size : Z)
    (l : list nat) :
  length (flat_map (fun i => emplace_pair data_pattern size (2 * Z.of_nat i)) l)
    = (2 * length l)%nat.
Proof.
  induction l as [| i l IH]; [reflexivity |].
  cbn [flat_map]. rewrite length_app, IH.
  destruct data_pattern; cbn [emplace_pair length]; lia.
Qed.

Lemma ramp_up_pairs (size : Z) (m : nat) :
  forall j : nat,
    2 * Z.of_nat (j + m) < 2 ^ 32 ->
    flat_map (fun i => emplace_pair RAMP_UP size (2 * Z.of_nat i)) (seq j m)
      = map Z.of_nat (seq (2 * j) (2 * m)).
Proof.
  induction m as [| m IH]; intros j Hj; [reflexivity |].
  replace (2 * S m)%nat with (S (S (2 * m))) by lia.
  cbn [seq flat_map map emplace_pair app].
  rewrite uint_small by lia.
  rewrite IH by lia.
  replace (S (S (2 * j))) with (2 * S j)%nat by lia.
  f_equal; [lia |]. f_equal. lia.
Qed.

Lemma ramp_down_pairs (size : Z) (m : nat) :
  forall j : nat,
    2 * Z.of_nat (j + m) <= size < 2 ^ 32 ->
    flat_map (fun i => emplace_pair RAMP_DOWN size (2 * Z.of_nat i)) (seq j m)
      = map (fun i => size - Z.of_nat i) (seq (2 * j) (2 * m)).
Proof.
  induction m as [| m IH]; intros j Hj; [reflexivity |].
  replace (2 * S m)%nat with (S (S (2 * m))) by lia.
  cbn [seq flat_map map emplace_pair app].
  rewrite !uint_small by lia.
  rewrite IH by lia.
  replace (S (S (2 * j))) with (2 * S j)%nat by lia.
  f_equal; [lia |]. f_equal. lia.
Qed.

(** X4.  For a size that is a power of two from 2 to 2^31,
    [prepare_data_to_write] returns exactly [size] words: the ramp 0, 1,
    ..., [size - 1] for RAMP_UP and [size], [size - 1], ..., 1 for
    RAMP_DOWN.  For the size 1, a power of two as well, it returns two
    words; for a size in the [unsigned int] range that is no power of two
    it throws [std::invalid_argument]. *)
Theorem prepare_data_to_write_spec (data_pattern : DATA_PATTERN) (k : Z) :
  1 <= k < 32 ->
  (exists data : list Z,
     prepare_data_to_write data_pattern (2 ^ k) = data_of data /\
     Z.of_nat (length data) = 2 ^ k) /\
  prepare_data_to_write RAMP_UP (2 ^ k)
    = data_of (map Z.of_nat (seq 0 (Z.to_nat (2 ^ k)))) /\
  prepare_data_to_write RAMP_DOWN (2 ^ k)
    = data_of (map (fun i => 2 ^ k - Z.of_nat i) (seq 0 (Z.to_nat (2 ^ k)))) /\
  (exists data : list Z,
     prepare_data_to_write data_pattern 1 = data_of data /\
     length data = 2%nat) /\
  (forall size : Z,
     0 <= size < 2 ^ 32 ->
     (forall j : Z, 0 <= j < 32 -> size <> 2 ^ j) ->
     prepare_data_to_write data_pattern size
       = invalid_argument "Test data must have a size that's a power of 2!!").
Proof.
  intros Hk.
  assert (2 ^ k = 2 * Z.of_nat (0 + Z.to_nat (2 ^ (k - 1)))) as Hsize.
  { cbn [Nat.add]. rewrite Z2Nat.id by (apply Z.pow_nonneg; lia).
    replace k with (1 + (k - 1)) at 1 by lia.
    rewrite Z.pow_add_r by lia. reflexivity. }
  assert (2 ^ k <= 2 ^ 31) as Hle by (apply Z.pow_le_mono_r; lia).
  assert (0 < 2 ^ (k - 1)) as Hpos by (apply Z.pow_pos_nonneg; lia).
  assert (forall p, prepare_data_to_write p (2 ^ k) =
            data_of (flat_map (fun i => emplace_pair p (2 ^ k) (2 * Z.of_nat i))
                       (seq 0 (Z.to_nat (2 ^ (k - 1)))))) as Hprep.
  { intros p. unfold prepare_data_to_write.
    assert (verify_power_of_two (2 ^ k) = true) as ->.
    { apply power_of_two_test; [lia |]. exists k. split; [lia | reflexivity]. }
    cbn [negb].
    pose proof (data_loop_even p (Z.to_nat (2 ^ (k - 1)))
                  (Z.to_nat (2 ^ k)) 0 ltac:(lia) ltac:(lia)) as Hloop.
    rewrite <- Hsize in Hloop. change (2 * Z.of_nat 0) with 0 in Hloop.
    rewrite Hloop. reflexivity. }
  assert ((2 * Z.to_nat (2 ^ (k - 1)))%nat = Z.to_nat (2 ^ k)) as Hm by lia.
  split; [| split; [| split; [| split]]].
  - eexists. split; [apply Hprep |].
    rewrite length_emplace_pairs, length_seq. lia.
  - rewrite Hprep. rewrite ramp_up_pairs by lia.
    change (2 * 0)%nat with 0%nat. rewrite Hm. reflexivity.
  - rewrite Hprep. rewrite (ramp_down_pairs (2 ^ k)) by lia.
    change (2 * 0)%nat with 0%nat. rewrite Hm. reflexivity.
  - destruct data_pattern; eexists; split; vm_compute; reflexivity.
  - intros size Hs Hnot. unfold prepare_data_to_write.
    destruct (verify_power_of_two size) eqn:Hp; [| reflexivity].
    apply power_of_two_test in Hp as (j & Hj & ->); [| exact Hs].
    exfalso. apply (Hnot j Hj). reflexivity.
Qed.

Lemma prepare_data_to_write_spec_witness :
  1 <= 3 < 32 /\
  prepare_data_to_write RAMP_UP (2 ^ 3)
    = data_of (map Z.of_nat (seq 0 (Z.to_nat (2 ^ 3)))).
Proof.
  assert (1 <= 3 < 32) as H by lia.
  split; [exact H |].
  exact (proj1 (proj2 (prepare_data_to_write_spec RAMP_UP 3 H))).
Defined.

(** The loop of [verify_data_read] counts the positions from [idx] on at
    which the arrays differ. *)
Lemma count_errors_spec (n : nat) :
  forall (idx : nat) (expected returned : list Z) (error_count : Z),
    (idx + n <= length expected)%nat ->
    (idx + n <= length returned)%nat ->
    0 <= error_count -> error_count + Z.of_nat n < 2 ^ 32 ->
    exists d : Z,
      count_errors n idx expected returned error_count
        = Some (error_count + d) /\
      0 <= d <= Z.of_nat n /\
      (d = 0 <-> take n (drop idx expected) = take n (drop idx returned)).
Proof.
  induction n as [| n IH]; intros idx expected returned error_count He Hr H0 Hb.
  - exists 0. cbn [count_errors take]. rewrite Z.add_0_r.
    split; [reflexivity |]. split; [lia | tauto].
  - destruct (lookup_lt_is_Some_2 expected idx ltac:(lia)) as [e Hle].
    destruct (lookup_lt_is_Some_2 returned idx ltac:(lia)) as [r Hlr].
    cbn [count_errors]. rewrite Hle, Hlr.
    rewrite (drop_S _ _ _ Hle), (drop_S _ _ _ Hlr). cbn [take].
    destruct (Z.eqb_spec e r) as [-> | Hne]; cbn [negb].
    + destruct (IH (S idx) expected returned error_count) as (d & -> & Hd & Hiff);
        try lia.
      exists d. split; [reflexivity |]. split; [lia |].
      rewrite Hiff. split; [intros ->; reflexivity | intros H; injection H; auto].
    + rewrite uint_small by lia.
      destruct (IH (S idx) expected returned (error_count + 1))
        as (d & -> & Hd & _); try lia.
      exists (1 + d). split; [f_equal; lia |]. split; [lia |].
      split; [lia | intros H; injection H; intros; contradiction].
Qed.

(** X5.  On arrays of at least [size] words, [size] below 2^31,
    [verify_data_read] returns a count between 0 and [size], and 0 exactly
    when the first [size] words agree; read against itself any data gives
    0. *)
Theorem verify_data_read_spec (expected returned : list Z) (size : nat) :
  (size <= length expected)%nat ->
  (size <= length returned)%nat ->
  Z.of_nat size < 2 ^ 31 ->
  (exists d : Z,
     verify_data_read expected returned size = Some d /\
     0 <= d <= Z.of_nat size /\
     (d = 0 <-> take size expected = take size returned)) /\
  verify_data_read expected expected size = Some 0.
Proof.
  intros He Hr Hs.
  destruct (count_errors_spec size 0 expected returned 0) as (d & Hc & Hd & Hiff);
    try lia.
  destruct (count_errors_spec size 0 expected expected 0) as (d' & Hc' & Hd' & Hiff');
    try lia.
  unfold verify_data_read. rewrite Hc, Hc'. cbn [drop Z.add] in *.
  split.
  - exists d. rewrite to_int_small by lia. auto.
  - assert (d' = 0) as -> by (apply Hiff'; reflexivity). reflexivity.
Qed.

Lemma verify_data_read_spec_witness :
  (2 <= length [5; 6; 7])%nat /\
  (2 <= length [5; 6; 8])%nat /\
  Z.of_nat 2 < 2 ^ 31 /\
  verify_data_read [5; 6; 7] [5; 6; 7] 2 = Some 0.
Proof.
  assert (2 <= length [5; 6; 7])%nat as H1 by (cbn; lia).
  assert (2 <= length [5; 6; 8])%nat as H2 by (cbn; lia).
  assert (Z.of_nat 2 < 2 ^ 31) as H3 by lia.
  split; [exact H1 |]. split; [exact H2 |]. split; [exact H3 |].
  exact (proj2 (verify_data_read_spec [5; 6; 7] [5; 6; 8] 2 H1 H2 H3)).
Defined.

(** X6.  The return code of an error is what [verify_api_return_value]
    takes for a failure: for every code but [success] the negated result
    is refused, for [success] it is accepted. *)
Theorem verify_api_return_value_of_error (c : Error.code) :
  exists rc : Z,
    ErrorApi.error_return_code c = Error.Ok rc /\
    (verify_api_return_value rc = false <-> c <> Error.success).
Proof.
  destruct (result_and_return_code c)
    as (r & _ & Hr & Hz & Hrc & _ & Hneg).
  exists (- r). split; [exact Hrc |].
  unfold verify_api_return_value.
  destruct (Z.ltb_spec (- r) 0) as [Hlt | Hge]; cbn [negb].
  - split; [intros _ E; apply Hz in E; lia | reflexivity].
  - split; [discriminate |].
    intros Hc. specialize (Hneg Hc). lia.
Qed.

End TestData.

(** ** Users of the pool and the queue *)
Section PoolUse.
Import Error Buffer BufferUse.

Lemma pool_step_accounted (N C : nat) (op : pool_op)
    (st : pool.t * list handle) :
  Z.of_nat N < 2 ^ 64 ->
  accounted N C st -> accounted N C (pool_step op st).
Proof.
  intros HN. destruct st as [p held].
  intros (Hn & Hs & Hc & Hl & Hb & Hh). cbn [fst snd] in *.
  destruct op as [| i ws | i]; cbn [pool_step].
  - destruct (pool.buffers p) as [| buf rest] eqn:Hbufs.
    + rewrite (request_exhausted p Hc).
      unfold accounted. cbn [fst snd]. rewrite Hbufs. auto 10.
    + rewrite (request_nonempty p buf rest);
        [| split; [rewrite Hbufs |]; lia | exact Hbufs].
      cbn [length] in *. inversion Hb as [| ? ? [_ Hcap] Hrest]; subst.
      repeat split; cbn [fst snd pool.number pool.size pool.count_ pool.buffers];
        auto; try lia.
      * rewrite length_app. cbn [length]. lia.
      * apply Forall_app. split; [exact Hh | repeat constructor; exact Hcap].
  - destruct (held !! i) as [h |] eqn:Hi; repeat split; cbn [fst snd]; auto.
    + rewrite length_insert. exact Hl.
    + apply Forall_insert; [exact Hh |].
      pose proof (Forall_lookup_1 _ _ _ _ Hh Hi) as Hcap.
      unfold fill, insert_end. cbn [capacity] in *. lia.
  - destruct (held !! i) as [h |] eqn:Hi;
      [| repeat split; cbn [fst snd]; auto].
    pose proof (lookup_lt_Some _ _ _ Hi) as Hlt.
    pose proof (Forall_lookup_1 _ _ _ _ Hh Hi) as Hcap. cbn beta in Hcap.
    unfold pool.release, accounted.
    cbn [fst snd pool.number pool.size pool.count_ pool.buffers].
    split; [exact Hn |]. split; [exact Hs |].
    split; [rewrite wrap_small by lia; cbn [length]; lia |].
    split; [cbn [length]; rewrite length_delete by (eexists; exact Hi); lia |].
    split; [| apply Forall_delete; exact Hh].
    constructor; [| exact Hb]. cbn [clear data capacity]. auto.
Qed.

Lemma pool_run_accounted (N C : nat) (ops : list pool_op) :
  forall st : pool.t * list handle,
    Z.of_nat N < 2 ^ 64 ->
    accounted N C st -> accounted N C (pool_run ops st).
Proof.
  induction ops as [| op ops IH]; intros st HN Hacc; [exact Hacc |].
  cbn [pool_run foldl]. apply IH; [exact HN |].
  apply pool_step_accounted; assumption.
Qed.

Lemma create_accounted (N C : nat) (p : pool.t) :
  pool.create N C pool.new = Ok p -> accounted N C (p, []).
Proof.
  intros H. cbn in H. injection H as <-.
  repeat split; cbn [fst snd pool.number pool.size pool.count_ pool.buffers
                       pool.new length]; auto.
  - rewrite push_fresh_replicate, app_nil_r, length_replicate. reflexivity.
  - rewrite push_fresh_replicate, app_nil_r, length_replicate. lia.
  - rewrite push_fresh_replicate, app_nil_r.
    apply Forall_replicate. cbn. auto.
Qed.

(** X7.  Whatever a user of a pool of [N] buffers of capacity [C] does,
    in any order (request, write into a buffer it holds, release a buffer
    it holds): the available count is the length of the free list, free
    and held buffers together are [N], every free buffer is empty and has
    kept at least the capacity [C]; and the next request succeeds exactly
    when fewer than [N] buffers are held, else it throws
    [buffer_pool_empty]. *)
Theorem pool_accounting (N C : nat) (ops : list pool_op) (p0 : pool.t) :
  Z.of_nat N < 2 ^ 64 ->
  pool.create N C pool.new = Ok p0 ->
  accounted N C (pool_run ops (p0, [])) /\
  ((length (pool_run ops (p0, [])).2 < N)%nat ->
   exists (h : handle) (p' : pool.t),
     pool.request (pool_run ops (p0, [])).1 = Ok (h, p') /\
     data h = [] /\ (C <= capacity h)%nat) /\
  (length (pool_run ops (p0, [])).2 = N ->
   pool.request (pool_run ops (p0, [])).1
     = Throw (sdk_error buffer_pool_empty "no buffers avaliable")).
Proof.
  intros HN Hcreate.
  pose proof (pool_run_accounted N C ops (p0, []) HN
                (create_accounted N C p0 Hcreate)) as Hacc.
  split; [exact Hacc |].
  destruct (pool_run ops (p0, [])) as [p held].
  destruct Hacc as (Hn & Hs & Hc & Hl & Hb & Hh). cbn [fst snd] in *.
  split.
  - intros Hlt.
    destruct (pool.buffers p) as [| buf rest] eqn:Hbufs;
      [cbn [length] in Hl; lia |].
    rewrite (request_nonempty p buf rest);
        [| split; [rewrite Hbufs |]; lia | exact Hbufs].
    inversion Hb as [| ? ? [Hd Hcap] _]; subst. eauto.
  - intros Hall. apply request_exhausted. lia.
Qed.

Lemma pool_accounting_witness :
  Z.of_nat 2 < 2 ^ 64 /\
  pool.create 2 8 pool.new
    = Ok {| pool.number := 2; pool.size := 8; pool.count_ := 2;
            pool.buffers := [new_buffer 8; new_buffer 8] |} /\
  accounted 2 8
    (pool_run [op_request; op_fill 0 [1; 2; 3]; op_request; op_release 0]
       ({| pool.number := 2; pool.size := 8; pool.count_ := 2;
           pool.buffers := [new_buffer 8; new_buffer 8] |}, [])).
Proof.
  assert (Z.of_nat 2 < 2 ^ 64) as H1 by lia.
  assert (pool.create 2 8 pool.new
          = Ok {| pool.number := 2; pool.size := 8; pool.count_ := 2;
                  pool.buffers := [new_buffer 8; new_buffer 8] |}) as H2
    by reflexivity.
  split; [exact H1 |]. split; [exact H2 |].
  exact (proj1 (pool_accounting 2 8
                  [op_request; op_fill 0 [1; 2; 3]; op_request; op_release 0]
                  _ H1 H2)).
Defined.

(** X8.  [destroy] of such a pool returns exactly when no buffer is held,
    and then leaves the pool as [pool::pool()] made it, on which the same
    [create] gives the pool it gave the first time; while a buffer is held
    [destroy] throws [buffer_pool_busy].  A second [create] on a created
    pool throws [buffer_pool_not_empty]. *)
Theorem pool_destroy_create (N C : nat) (ops : list pool_op) (p0 : pool.t) :
  (0 < N)%nat ->
  Z.of_nat N < 2 ^ 64 ->
  pool.create N C pool.new = Ok p0 ->
  ((pool_run ops (p0, [])).2 = [] ->
   pool.destroy (pool_run ops (p0, [])).1 = Ok pool.new /\
   pool.create N C pool.new = Ok p0) /\
  ((pool_run ops (p0, [])).2 <> [] ->
   pool.destroy (pool_run ops (p0, [])).1
     = Throw (sdk_error buffer_pool_busy "pool destroy made while busy")) /\
  (forall N' C' : nat,
     pool.create N' C' (pool_run ops (p0, [])).1
       = Throw (sdk_error buffer_pool_not_empty "pool is already created")).
Proof.
  intros Hpos HN Hcreate.
  pose proof (pool_run_accounted N C ops (p0, []) HN
                (create_accounted N C p0 Hcreate)) as Hacc.
  destruct (pool_run ops (p0, [])) as [p held].
  destruct Hacc as (Hn & Hs & Hc & Hl & Hb & Hh). cbn [fst snd] in *.
  unfold pool.destroy, pool.create. rewrite Hn.
  destruct (Z.ltb_spec 0 (Z.of_nat N)) as [_ | ?]; [| lia].
  destruct (Z.eqb_spec (Z.of_nat N) 0) as [? | _]; [lia |]. cbn [negb].
  split; [| split].
  - intros ->. cbn [length] in Hl.
    destruct (Z.eqb_spec (pool.count_ p) (Z.of_nat N)) as [_ | ?]; [| lia].
    cbn [negb]. split; [reflexivity | exact Hcreate].
  - intros Hne.
    destruct (Z.eqb_spec (pool.count_ p) (Z.of_nat N)) as [E | _];
      [| reflexivity].
    destruct held; [contradiction | cbn [length] in Hl; lia].
  - reflexivity.
Qed.

Lemma pool_destroy_create_witness :
  (0 < 2)%nat /\
  Z.of_nat 2 < 2 ^ 64 /\
  pool.destroy
    (pool_run [op_request; op_request; op_release 1; op_release 0]
       ({| pool.number := 2; pool.size := 8; pool.count_ := 2;
           pool.buffers := [new_buffer 8; new_buffer 8] |}, [])).1
    = Ok pool.new.
Proof.
  assert (0 < 2)%nat as H0 by lia.
  assert (Z.of_nat 2 < 2 ^ 64) as H1 by lia.
  split; [exact H0 |]. split; [exact H1 |].
  exact (proj1 (proj1 (pool_destroy_create 2 8
                  [op_request; op_request; op_release 1; op_release 0]
                  _ H0 H1 eq_refl) eq_refl)).
Defined.

End PoolUse.

(** ** The queue in use *)
Section QueueUse.
Import Error Buffer BufferUse.

Lemma push_all_app (bufs : list handle) (b : handle) (q : queue.t) :
  push_all (bufs ++ [b]) q = queue.push b (push_all bufs q).
Proof. unfold push_all. rewrite foldl_app. reflexivity. Qed.

(** A run of pushes appends the buffers that are not empty, in order,
    and keeps the invariant of the counters. *)
Lemma push_all_buffers (bufs : list handle) :
  Z.of_nat (queue.words_in bufs) < 2 ^ 64 ->
  Z.of_nat (length bufs) < 2 ^ 64 ->
  queue.buffers (push_all bufs queue.new)
    = filter (fun b => (0 < buffer_size b)%nat) bufs /\
  queue.inv (push_all bufs queue.new) /\
  queue.in_range (push_all bufs queue.new).
Proof.
  induction bufs as [| b bufs IH] using rev_ind; intros Hw Hl.
  - split; [reflexivity | exact new_inv].
  - unfold queue.words_in in *.
    rewrite flat_map_app, !length_app in *. cbn [flat_map length] in *.
    rewrite app_nil_r in *. fold (buffer_size b) in *.
    destruct IH as (Hb & Hinv & Hr); try lia.
    rewrite push_all_app, filter_app.
    assert (length (flat_map data
                      (filter (fun b => (0 < buffer_size b)%nat) bufs))
            <= length (flat_map data bufs))%nat as Hle.
    { clear. induction bufs as [| a l IH]; [reflexivity |].
      rewrite filter_cons. destruct (decide (0 < buffer_size a)%nat);
        cbn [flat_map]; rewrite ?length_app; lia. }
    pose proof (length_filter (fun b => (0 < buffer_size b)%nat) bufs) as Hlf.
    destruct Hinv as [Hs Hc]. destruct Hr as [Hrs Hrc].
    unfold queue.size, queue.count, queue.held_size, queue.held_words in *.
    rewrite Hb in *.
    split.
    + unfold queue.push.
      rewrite filter_cons, filter_nil.
      destruct (Nat.ltb_spec 0 (buffer_size b)) as [Hpos | Hz].
      * rewrite decide_True by exact Hpos.
        cbn [queue.buffers]. rewrite Hb. reflexivity.
      * rewrite decide_False by lia. rewrite app_nil_r. exact Hb.
    + apply push_inv.
      * split; unfold queue.size, queue.count, queue.held_size,
          queue.held_words; rewrite Hb; assumption.
      * split; assumption.
      * lia.
      * lia.
Qed.

(** Popping as often as there are buffers hands them out front first and
    leaves the queue as new. *)
Lemma pop_n_all (bufs : list handle) :
  forall q : queue.t,
    queue.buffers q = bufs ->
    queue.inv q -> queue.in_range q ->
    pop_n (length bufs) q = Ok (bufs, queue.new).
Proof.
  induction bufs as [| b bufs IH]; intros q Hb Hinv Hr.
  - cbn [length pop_n]. destruct Hinv as [Hs Hc].
    unfold queue.size, queue.count, queue.held_size, queue.held_words in *.
    rewrite Hb in *. cbn in Hs, Hc.
    destruct q as [bs s c]. cbn in *. subst. reflexivity.
  - cbn [length pop_n].
    assert (queue.pop q =
              Ok (b, {| queue.buffers := bufs;
                        queue.size_ :=
                          wrap (queue.size_ q - Z.of_nat (buffer_size b));
                        queue.count_ := wrap (queue.count_ q - 1) |})) as Hpop
      by (unfold queue.pop; rewrite Hb; reflexivity).
    rewrite Hpop.
    destruct (pop_inv _ _ _ Hinv Hr Hpop) as [Hinv' Hr'].
    rewrite (IH {| queue.buffers := bufs |} eq_refl Hinv' Hr'). reflexivity.
Qed.

(** X9.  The queue is first in, first out: after pushing any buffers on
    a new queue it holds those that are not empty, in the order pushed
    (a push of an empty buffer changes nothing), and as many pops as it
    holds buffers return them in that order and leave the queue as
    [queue::queue()] made it, with [size()] and [count()] 0. *)
Theorem queue_first_in_first_out (bufs : list handle) :
  Z.of_nat (queue.words_in bufs) < 2 ^ 64 ->
  Z.of_nat (length bufs) < 2 ^ 64 ->
  queue.buffers (push_all bufs queue.new)
    = filter (fun b => (0 < buffer_size b)%nat) bufs /\
  pop_n (length (filter (fun b => (0 < buffer_size b)%nat) bufs))
        (push_all bufs queue.new)
    = Ok (filter (fun b => (0 < buffer_size b)%nat) bufs, queue.new) /\
  (forall (b : handle) (q : queue.t),
     buffer_size b = 0%nat -> queue.push b q = q).
Proof.
  intros Hw Hl.
  destruct (push_all_buffers bufs Hw Hl) as (Hb & Hinv & Hr).
  split; [exact Hb |].
  split; [apply pop_n_all; assumption |].
  intros b q Hz. unfold queue.push. rewrite Hz. reflexivity.
Qed.

Lemma queue_first_in_first_out_witness :
  Z.of_nat (queue.words_in
              [mk_buffer [1; 2] 4; mk_buffer [] 4; mk_buffer [3] 4]) < 2 ^ 64 /\
  Z.of_nat (length [mk_buffer [1; 2] 4; mk_buffer [] 4; mk_buffer [3] 4])
    < 2 ^ 64 /\
  queue.buffers
    (push_all [mk_buffer [1; 2] 4; mk_buffer [] 4; mk_buffer [3] 4] queue.new)
    = filter (fun b => (0 < buffer_size b)%nat)
        [mk_buffer [1; 2] 4; mk_buffer [] 4; mk_buffer [3] 4].
Proof.
  assert (Z.of_nat (queue.words_in
                      [mk_buffer [1; 2] 4; mk_buffer [] 4; mk_buffer [3] 4])
          < 2 ^ 64) as H1 by (vm_compute; reflexivity).
  assert (Z.of_nat (length [mk_buffer [1; 2] 4; mk_buffer [] 4;
                            mk_buffer [3] 4]) < 2 ^ 64) as H2
    by (vm_compute; reflexivity).
  split; [exact H1 |]. split; [exact H2 |].
  exact (proj1 (queue_first_in_first_out _ H1 H2)).
Defined.

End QueueUse.

(** ** Copy into a buffer, and what compact leaves *)
Section CopyTo.
Import Error Buffer BufferUse.

(** The byte [i / 8] of a word, put back in its place. *)
Lemma byte_in_place (w i n : Z) :
  0 <= i -> 0 <= n ->
  Z.testbit (Z.shiftl (Z.land (Z.shiftr w i) 255) i) n
    = Z.testbit w n && (i <=? n) && (n <? i + 8).
Proof.
  intros Hi Hn. rewrite Z.shiftl_spec by lia.
  destruct (Z.leb_spec i n) as [Hle | Hlt].
  - rewrite Z.land_spec, Z.shiftr_spec by lia.
    replace (n - i + i) with n by lia.
    change 255 with (Z.ones 8).
    rewrite Z.testbit_ones_nonneg by lia.
    destruct (Z.ltb_spec (n - i) 8); destruct (Z.ltb_spec n (i + 8)); try lia;
      rewrite ?andb_true_r, ?andb_false_r; reflexivity.
  - rewrite Z.testbit_neg_r by lia.
    rewrite andb_false_r. reflexivity.
Qed.

Lemma word_bytes_back (w : Z) (rest : list Z) :
  is_word w ->
  bytes_words (queue.word_bytes w ++ rest) = w :: bytes_words rest.
Proof.
  intros [Hlo Hhi]. unfold queue.word_bytes. cbn [app bytes_words].
  f_equal. apply Z.bits_inj'. intros n Hn.
  rewrite !Z.lor_spec.
  rewrite <- (Z.shiftr_0_r w) at 1. rewrite <- (Z.shiftl_0_r (Z.land _ 255)).
  rewrite !byte_in_place by lia.
  destruct (Z.lt_ge_cases n 32) as [Hsmall | Hbig].
  - destruct (Z.testbit w n); [| reflexivity]. cbn [andb].
    destruct (Z.leb_spec 0 n); destruct (Z.leb_spec 8 n);
      destruct (Z.leb_spec 16 n); destruct (Z.leb_spec 24 n);
      destruct (Z.ltb_spec n (0 + 8)); destruct (Z.ltb_spec n (8 + 8));
      destruct (Z.ltb_spec n (16 + 8)); destruct (Z.ltb_spec n (24 + 8));
      try lia; reflexivity.
  - assert (Z.testbit w n = false) as ->.
    { rewrite <- (Z.mod_small w (2 ^ 32)) by lia.
      apply Z.mod_pow2_bits_high. lia. }
    reflexivity.
Qed.

(** What [words_bytes] writes, [bytes_words] reads back. *)
Lemma bytes_words_back (ws : list Z) :
  Forall is_word ws -> bytes_words (queue.words_bytes ws) = ws.
Proof.
  induction 1 as [| w ws Hw _ IH]; [reflexivity |].
  unfold queue.words_bytes in *. cbn [flat_map].
  rewrite word_bytes_back by exact Hw. rewrite IH. reflexivity.
Qed.

(** An empty [to] takes all the words and leaves the queue as new. *)
Lemma copy_to_drains (to : buffer) (q : queue.t) :
  buffer_size to = 0%nat ->
  queue.inv q -> queue.in_range q ->
  Forall (fun b => (0 < buffer_size b)%nat) (queue.buffers q) ->
  Forall is_word (queue.held_words q) ->
  exists to1 : buffer,
    copy_to to q = Ok (to1, queue.new, map clear (queue.buffers q)) /\
    data to1 = queue.held_words q.
Proof.
  intros Hto Hinv Hr Hne Hwords.
  unfold copy_to. rewrite Hto. cbn [Nat.eqb].
  pose proof Hinv as [Hs Hc].
  unfold queue.size, queue.count, queue.held_size, queue.held_words in *.
  assert (Z.to_nat (queue.size_ q) = queue.words_in (queue.buffers q)) as HW
    by (unfold queue.words_in; lia).
  rewrite HW.
  assert (data (resize (queue.words_in (queue.buffers q)) to)
          = replicate (queue.words_in (queue.buffers q)) 0) as Hdata.
  { unfold resize, buffer_size in *. cbn [data].
    destruct (data to); [| discriminate Hto].
    rewrite take_nil. cbn [length app]. rewrite Nat.sub_0_r. reflexivity. }
  rewrite Hdata.
  destruct (copy_whole_buffers (queue.buffers q) []
              (queue.words_bytes
                 (replicate (queue.words_in (queue.buffers q)) 0))
              [] q) as [Hcopy _].
  - rewrite app_nil_r. reflexivity.
  - exact Hne.
  - exact Hinv.
  - exact Hr.
  - rewrite length_words_bytes, length_replicate. reflexivity.
  - rewrite app_nil_r in Hcopy. unfold queue.copy in Hcopy. rewrite Hcopy.
    cbn [queue.to_mem queue.after queue.erased].
    rewrite app_nil_r, bytes_words_back by exact Hwords.
    exists {| data := flat_map data (queue.buffers q);
              capacity :=
                capacity (resize (queue.words_in (queue.buffers q)) to) |}.
    split; [| reflexivity].
    unfold queue.new. do 3 f_equal. f_equal; unfold queue.words_in; lia.
Qed.

(** X10.  [copy(buffer& to)] with an empty [to], on a queue whose
    counters are right and whose buffers are not empty: [to] is resized
    to [size()] and receives all the words of the queue, front first; the
    queue is left without buffers, [size()] and [count()] 0, and every
    buffer it held is emptied and dropped.  With a [to] that holds more
    words than [size()] the call throws [buffer_pool_not_enough]. *)
Theorem copy_to_empty_takes_all (to : buffer) (q : queue.t) :
  buffer_size to = 0%nat ->
  queue.inv q -> queue.in_range q ->
  Forall (fun b => (0 < buffer_size b)%nat) (queue.buffers q) ->
  Forall is_word (queue.held_words q) ->
  (exists to1 : buffer,
     copy_to to q = Ok (to1, queue.new, map clear (queue.buffers q)) /\
     data to1 = queue.held_words q) /\
  (forall to' : buffer,
     Z.of_nat (buffer_size to') > queue.size_ q ->
     copy_to to' q
       = Throw (sdk_error buffer_pool_not_enough "not enough data in queue")).
Proof.
  intros Hto Hinv Hr Hne Hwords. split.
  - apply copy_to_drains; assumption.
  - intros to' Hbig. unfold copy_to.
    destruct (Nat.eqb_spec (buffer_size to') 0) as [E | _];
      [rewrite E in Hbig; destruct Hr; lia |].
    unfold queue.copy_unprotected.
    destruct (Z.gtb_spec (Z.of_nat (buffer_size to')) (queue.size_ q));
      [reflexivity | lia].
Qed.

Lemma copy_to_empty_takes_all_witness :
  buffer_size (new_buffer 0) = 0%nat /\
  queue.inv (push_all [mk_buffer [7; 8] 4; mk_buffer [9] 4] queue.new) /\
  exists to1 : buffer,
    copy_to (new_buffer 0)
      (push_all [mk_buffer [7; 8] 4; mk_buffer [9] 4] queue.new) =
      Ok (to1, queue.new, [mk_buffer [] 4; mk_buffer [] 4]) /\
    data to1 = [7; 8; 9].
Proof.
  assert (queue.inv (push_all [mk_buffer [7; 8] 4; mk_buffer [9] 4] queue.new))
    as Hinv by (split; vm_compute; reflexivity).
  assert (queue.in_range
            (push_all [mk_buffer [7; 8] 4; mk_buffer [9] 4] queue.new)) as Hr
    by (repeat split; vm_compute; congruence).
  assert (Forall (fun b => (0 < buffer_size b)%nat)
            (queue.buffers
               (push_all [mk_buffer [7; 8] 4; mk_buffer [9] 4] queue.new)))
    as Hne by (repeat constructor; vm_compute; lia).
  assert (Forall is_word
            (queue.held_words
               (push_all [mk_buffer [7; 8] 4; mk_buffer [9] 4] queue.new)))
    as Hw by (repeat constructor; vm_compute; congruence).
  split; [reflexivity |]. split; [exact Hinv |].
  exact (proj1 (copy_to_empty_takes_all (new_buffer 0) _
                  eq_refl Hinv Hr Hne Hw)).
Defined.

(** Buffers that are not empty and within the capacity [C] stay so
    through [compact]. *)
Lemma compact_fill_packed (C to_move : nat) (to : handle)
    (froms : list handle) (cnt : Z) :
  forall (to' : handle) (er ahead : list handle) (cnt' : Z),
    capacity to = C -> (0 < buffer_size to)%nat ->
    (buffer_size to + to_move <= C)%nat ->
    Forall (packed_in C) froms ->
    queue.compact_fill to_move to froms cnt = (to', er, ahead, cnt') ->
    packed_in C to' /\ Forall (packed_in C) ahead.
Proof.
  revert to_move to cnt.
  induction froms as [| from rest IH];
    intros to_move to cnt to' er ahead cnt' Hcap Hpos Hroom Hp H.
  - cbn in H. injection H as <- <- <- <-.
    split; [split; [exact Hcap | lia] | constructor].
  - inversion Hp as [| ? ? [Hfc Hfs] Hrest]; subst.
    cbn [queue.compact_fill] in H.
    destruct (0 <? to_move)%nat.
    + destruct (Nat.leb_spec (buffer_size from) to_move) as [Hle | Hgt].
      * destruct (queue.compact_fill (to_move - buffer_size from)
                    (insert_end to (data from)) rest (wrap (cnt - 1)))
          as [[[to1 er1] ahead1] cnt1] eqn:Hrec.
        injection H as <- <- <- <-.
        apply (IH _ _ _ _ _ _ _) in Hrec; [exact Hrec | | | | exact Hrest];
          unfold insert_end, buffer_size in *; cbn [data capacity];
          rewrite ?length_app; lia.
      * injection H as <- <- <- <-.
        unfold packed_in, insert_end, erase_front, buffer_size in *.
        cbn [data capacity]. rewrite length_app, length_take.
        split; [lia |].
        constructor; [| exact Hrest].
        cbn [data capacity]. rewrite length_drop. lia.
    + injection H as <- <- <- <-.
      split; [split; [reflexivity | lia] | exact Hp].
Qed.

Lemma compact_pass_packed (C n : nat) :
  forall (before to_bi : list handle) (cnt : Z)
         (bufs' : list handle) (cnt' : Z) (rerun : bool),
    Forall (packed_in C) before -> Forall (packed_in C) to_bi ->
    queue.compact_pass n before to_bi cnt = Some (bufs', cnt', rerun) ->
    Forall (packed_in C) bufs'.
Proof.
  induction n as [| n IH];
    intros before to_bi cnt bufs' cnt' rerun Hb Ht H.
  - destruct to_bi; [| discriminate H].
    cbn in H. injection H as <- <- <-. exact Hb.
  - destruct to_bi as [| to rest].
    { cbn in H. injection H as <- <- <-. exact Hb. }
    inversion Ht as [| ? ? Hto Hrest]; subst.
    cbn [queue.compact_pass] in H.
    destruct (0 <? capacity to - buffer_size to)%nat.
    + destruct (queue.compact_fill (capacity to - buffer_size to) to rest cnt)
        as [[[to' er] ahead] cnt1] eqn:Hfill.
      destruct Hto as [Hc Hs].
      assert (packed_in C to' /\ Forall (packed_in C) ahead) as (Hw & Ha).
      { apply (compact_fill_packed C (capacity to - buffer_size to) to rest
                 cnt to' er ahead cnt1);
          [exact Hc | lia | lia | exact Hrest | exact Hfill]. }
      assert (Forall (packed_in C) (before ++ [to'])) as Hb'
        by (apply Forall_app; auto).
      destruct er.
      * apply (IH _ _ _ _ _ _ Hb' Ha H).
      * injection H as <- <- <-. apply Forall_app. auto.
    + assert (Forall (packed_in C) (before ++ [to])) as Hb'
        by (apply Forall_app; auto).
      apply (IH _ _ _ _ _ _ Hb' Hrest H).
Qed.

Lemma compact_loop_packed (C n : nat) :
  forall (bufs : list handle) (cnt : Z) (bufs' : list handle) (cnt' : Z),
    Forall (packed_in C) bufs ->
    queue.compact_loop n bufs cnt = Some (bufs', cnt') ->
    Forall (packed_in C) bufs'.
Proof.
  induction n as [| n IH]; intros bufs cnt bufs' cnt' Hp H;
    [discriminate H |].
  cbn [queue.compact_loop] in H.
  destruct (queue.compact_pass (length bufs) [] bufs cnt)
    as [[[bufs1 cnt1] rerun] |] eqn:Hpass; [| discriminate H].
  pose proof (compact_pass_packed C _ _ _ _ _ _ _ (Forall_nil_2 _) Hp Hpass)
    as Hp1.
  destruct rerun.
  - apply (IH _ _ _ _ Hp1 H).
  - injection H as <- <-. exact Hp1.
Qed.

(** Settled buffers of capacity [C] are as few as can hold their
    words. *)
Lemma settled_length (C : nat) (bufs : list handle) :
  Forall (packed_in C) bufs -> queue.settled bufs ->
  length bufs = ((queue.words_in bufs + C - 1) / C)%nat.
Proof.
  unfold queue.words_in.
  induction bufs as [| b bufs IH]; intros Hp Hs.
  - cbn [flat_map length]. destruct C as [| C]; [reflexivity |].
    symmetry. apply Nat.div_small. lia.
  - inversion Hp as [| ? ? [Hc Hsz] Hrest]; subst.
    apply settled_cons in Hs as [Hlast Hs].
    cbn [flat_map length]. rewrite length_app. fold (buffer_size b).
    destruct Hlast as [-> | Hfull].
    + cbn [flat_map length]. rewrite Nat.add_0_r.
      apply (Nat.div_unique _ _ 1 (buffer_size b - 1)); lia.
    + unfold queue.full in Hfull.
      assert (buffer_size b = capacity b) as E by lia.
      rewrite (IH Hrest Hs), E.
      replace (capacity b + length (flat_map data bufs) + capacity b - 1)%nat
        with (1 * capacity b
              + (length (flat_map data bufs) + capacity b - 1))%nat by lia.
      rewrite Nat.div_add_l by lia. reflexivity.
Qed.

(** X11.  [compact] packs: on a queue whose buffers are not empty and
    all have the capacity [C], it leaves every buffer but the last filled
    to the capacity, none empty, and so the fewest buffers that can hold
    the words of the queue: their number is the number of words divided by
    [C], rounded up. *)
Theorem compact_packs (C : nat) (q : queue.t) :
  Forall (packed_in C) (queue.buffers q) ->
  exists q1 : queue.t,
    queue.compact q = Some q1 /\
    Forall (packed_in C) (queue.buffers q1) /\
    queue.settled (queue.buffers q1) /\
    queue.held_words q1 = queue.held_words q /\
    length (queue.buffers q1)
      = ((length (queue.held_words q) + C - 1) / C)%nat.
Proof.
  intros Hp.
  destruct (compact_returns q) as (bufs' & Hc & Hset & Hw & _).
  eexists. split; [exact Hc |]. cbn [queue.buffers].
  assert (Forall (packed_in C) bufs') as Hp'.
  { unfold queue.compact in Hc.
    destruct (queue.compact_loop _ _ _) as [[bufs1 cnt1] |] eqn:Hloop;
      [| discriminate Hc].
    injection Hc as -> _.
    apply (compact_loop_packed C _ _ _ _ _ Hp Hloop). }
  split; [exact Hp' |]. split; [exact Hset |]. split; [exact Hw |].
  rewrite (settled_length C bufs' Hp' Hset).
  unfold queue.words_in, queue.held_words. rewrite Hw. reflexivity.
Qed.

Lemma compact_packs_witness :
  Forall (packed_in 4)
    [mk_buffer [1] 4; mk_buffer [2; 3] 4; mk_buffer [4; 5; 6] 4] /\
  exists q1 : queue.t,
    queue.compact
      {| queue.buffers :=
           [mk_buffer [1] 4; mk_buffer [2; 3] 4; mk_buffer [4; 5; 6] 4];
         queue.size_ := 6; queue.count_ := 3 |} = Some q1 /\
    length (queue.buffers q1) = 2%nat.
Proof.
  assert (Forall (packed_in 4)
            [mk_buffer [1] 4; mk_buffer [2; 3] 4; mk_buffer [4; 5; 6] 4])
    as H by (repeat constructor; cbn; lia).
  split; [exact H |].
  destruct (compact_packs 4
              {| queue.buffers :=
                   [mk_buffer [1] 4; mk_buffer [2; 3] 4; mk_buffer [4; 5; 6] 4];
                 queue.size_ := 6; queue.count_ := 3 |} H)
    as (q1 & Hc & _ & _ & _ & Hl).
  exists q1. split; [exact Hc | exact Hl].
Defined.

End CopyTo.

(** ** The sync-wait flags of the backplane *)
Section SyncFlags.
Import Error Backplane.

Lemma popcount_none (l : list bool) :
  popcount l = 0 <-> Forall (fun w => w = false) l.
Proof.
  induction l as [| w l IH].
  - split; [constructor | reflexivity].
  - rewrite popcount_cons. pose proof (popcount_bounds l) as Hb. split.
    + intros H. destruct w; [lia |].
      constructor; [reflexivity | apply IH; lia].
    + intros H. inversion H as [| ? ? Hw Hl]; subst.
      apply IH in Hl. lia.
Qed.

Lemma popcount_all (l : list bool) :
  popcount l = Z.of_nat (length l) <-> Forall (fun w => w = true) l.
Proof.
  induction l as [| w l IH].
  - split; [constructor | reflexivity].
  - rewrite popcount_cons. cbn [length].
    pose proof (popcount_bounds l) as Hb. split.
    + intros H. destruct w; [| lia].
      constructor; [reflexivity | apply IH; lia].
    + intros H. inversion H as [| ? ? Hw Hl]; subst.
      apply IH in Hl. lia.
Qed.

(** X12.  A module that is not waiting writes SYNCH_WAIT = 1 and then 0,
    on a backplane whose counter is the number of flags set: the first
    call returns with the flag of the module set and the counter one
    higher, the second returns and leaves the backplane exactly as it was
    before the two calls. *)
Theorem sync_wait_set_then_clear (b : t) (m : module) :
  Z.of_nat (length (sync_waiters b)) < 2 ^ 31 ->
  sync_inv b ->
  0 <= number m ->
  sync_waiters b !! Z.to_nat (number m) = Some false ->
  exists b1 : t,
    sync_wait m 1 b = (b1, Ok tt) /\
    sync_waiters b1 !! Z.to_nat (number m) = Some true /\
    sync_waits b1 = sync_waits b + 1 /\
    sync_wait m 0 b1 = (b, Ok tt).
Proof.
  intros Hlen Hinv Hm Hw.
  pose proof (lookup_lt_Some _ _ _ Hw) as Hlt.
  assert (slot_call b (m, 1)) as Hc1.
  { split; cbn [fst snd]; [lia | auto]. }
  destruct (sync_wait_step b m 1 Hlen Hinv Hc1)
    as (w1 & Hw1 & Hstep1 & Hinv1 & Hlen1).
  rewrite Hw in Hw1. injection Hw1 as <-.
  change (1 =? 1) with true in Hstep1. cbn [Bool.eqb] in Hstep1.
  rewrite Hstep1 in Hinv1, Hlen1. cbn [fst] in Hinv1, Hlen1.
  eexists. split; [exact Hstep1 |].
  cbn [set_sync sync_waiters sync_waits].
  split; [apply list_lookup_insert_eq; exact Hlt |].
  split; [reflexivity |].
  set (b1 := set_sync _ _ b) in *.
  assert (slot_call b1 (m, 0)) as Hc0.
  { split; cbn [fst snd]; [lia | auto]. }
  destruct (sync_wait_step b1 m 0 ltac:(lia) Hinv1 Hc0)
    as (w0 & Hw0 & Hstep0 & _).
  assert (w0 = true) as ->.
  { subst b1. cbn [set_sync sync_waiters] in Hw0.
    rewrite list_lookup_insert_eq in Hw0 by exact Hlt. congruence. }
  change (0 =? 1) with false in Hstep0. cbn [Bool.eqb] in Hstep0.
  rewrite Hstep0. f_equal.
  subst b1. destruct b as [r1 r2 r3 sw ws].
  unfold set_sync. cbn [wired_or_triggers_pullup run director sync_waits
                        sync_waiters] in *.
  f_equal; [lia |].
  rewrite list_insert_insert_eq. apply list_insert_id. exact Hw.
Qed.

Lemma sync_wait_set_then_clear_witness :
  Z.of_nat (length (sync_waiters (new 13))) < 2 ^ 31 /\
  sync_inv (new 13) /\
  0 <= number (mk_module 4) /\
  sync_waiters (new 13) !! Z.to_nat (number (mk_module 4)) = Some false /\
  exists b1 : t,
    sync_wait (mk_module 4) 1 (new 13) = (b1, Ok tt) /\
    sync_waiters b1 !! Z.to_nat (number (mk_module 4)) = Some true /\
    sync_waits b1 = sync_waits (new 13) + 1 /\
    sync_wait (mk_module 4) 0 b1 = (new 13, Ok tt).
Proof.
  assert (Z.of_nat (length (sync_waiters (new 13))) < 2 ^ 31) as H1
    by (vm_compute; reflexivity).
  assert (sync_inv (new 13)) as H2
    by (split; [vm_compute; reflexivity | cbn; lia]).
  assert (0 <= number (mk_module 4)) as H3 by (cbn; lia).
  assert (sync_waiters (new 13) !! Z.to_nat (number (mk_module 4))
          = Some false) as H4 by reflexivity.
  split; [exact H1 |]. split; [exact H2 |]. split; [exact H3 |].
  split; [exact H4 |].
  exact (sync_wait_set_then_clear (new 13) (mk_module 4) H1 H2 H3 H4).
Defined.

(** X13.  [sync_wait] does not undo what it did when it throws.  For a
    module whose number is a position of [sync_waiters], on any backplane:
    after the call, returned or thrown, the flag of the module is the value
    written, and the same call made again returns and changes nothing. *)
Theorem sync_wait_not_rolled_back (b : t) (m : module) (v : Z) :
  0 <= number m < Z.of_nat (length (sync_waiters b)) ->
  sync_waiters (sync_wait m v b).1 !! Z.to_nat (number m) = Some (v =? 1) /\
  sync_wait m v (sync_wait m v b).1 = ((sync_wait m v b).1, Ok tt).
Proof.
  intros Hm.
  destruct (lookup_lt_is_Some_2 (sync_waiters b) (Z.to_nat (number m)))
    as [waiting Hw]; [lia |].
  assert (forall b' : t,
            sync_waiters b' !! Z.to_nat (number m) = Some (v =? 1) ->
            sync_wait m v b' = (b', Ok tt)) as Hsame.
  { intros b' Hb'. unfold sync_wait.
    destruct (Z.ltb_spec (number m) 0) as [? | _]; [lia |].
    rewrite Hb', Bool.eqb_reflx. reflexivity. }
  assert (sync_waiters (sync_wait m v b).1 !! Z.to_nat (number m)
          = Some (v =? 1)) as Hflag.
  { unfold sync_wait.
    destruct (Z.ltb_spec (number m) 0) as [? | _]; [lia |].
    rewrite Hw.
    destruct (Bool.eqb (v =? 1) waiting) eqn:Heq; cbn [negb].
    - apply Bool.eqb_prop in Heq. cbn [fst]. congruence.
    - match goal with
      | |- context [if ?c then (?x, _) else (?x, _)] =>
          destruct c; cbn [fst set_sync sync_waiters];
            apply list_lookup_insert_eq; lia
      end. }
  split; [exact Hflag | apply Hsame; exact Hflag].
Qed.

Lemma sync_wait_not_rolled_back_witness :
  0 <= number (mk_module 0)
    < Z.of_nat (length (sync_waiters (set_sync 0 [true; false] (new 2)))) /\
  (exists what : string,
     (sync_wait (mk_module 0) 0 (set_sync 0 [true; false] (new 2))).2
       = Throw (sdk_error internal_failure what)) /\
  sync_wait (mk_module 0) 0
    (sync_wait (mk_module 0) 0 (set_sync 0 [true; false] (new 2))).1
    = (set_sync (-1) [false; false] (new 2), Ok tt).
Proof.
  assert (0 <= number (mk_module 0)
          < Z.of_nat (length (sync_waiters (set_sync 0 [true; false] (new 2)))))
    as H by (cbn; lia).
  split; [exact H |].
  split; [eexists; vm_compute; reflexivity |].
  exact (proj2 (sync_wait_not_rolled_back
                  (set_sync 0 [true; false] (new 2)) (mk_module 0) 0 H)).
Defined.

(** X14.  After any run of [sync_wait] calls on a new backplane, by
    modules whose numbers are positions of [sync_waiters] and with values
    0 or 1, [sync_wait_valid] returns exactly when no flag is set or every
    flag of [sync_waiters] is set. *)
Theorem sync_wait_valid_all_or_none (max_slots : nat)
    (calls : list (module * Z)) :
  Z.of_nat max_slots < 2 ^ 31 ->
  Forall (slot_call (new max_slots)) calls ->
  exists b : t,
    sync_wait_all calls (new max_slots) = (b, Ok tt) /\
    length (sync_waiters b) = max_slots /\
    (sync_wait_valid b = Ok tt <->
     Forall (fun w => w = false) (sync_waiters b) \/
     Forall (fun w => w = true) (sync_waiters b)).
Proof.
  intros Hlen Hcalls.
  assert (length (sync_waiters (new max_slots)) = max_slots) as Hnew
    by (cbn [new sync_waiters]; apply length_replicate).
  destruct (sync_wait_all_inv calls (new max_slots)) as (b & Hrun & Hinv & Hl).
  - rewrite Hnew. exact Hlen.
  - apply new_sync_inv.
  - exact Hcalls.
  - exists b. split; [exact Hrun |]. split; [congruence |].
    destruct Hinv as [Hpop Hrange].
    rewrite sync_wait_valid_spec by lia.
    rewrite <- popcount_none, <- popcount_all, <- Hpop.
    destruct (Z.eqb_spec (sync_waits b) 0);
      destruct (Z.eqb_spec (sync_waits b)
                  (Z.of_nat (length (sync_waiters b))));
      cbn [orb]; split; intros H; auto; try discriminate H.
    destruct H; contradiction.
Qed.

Lemma sync_wait_valid_all_or_none_witness :
  Z.of_nat 2 < 2 ^ 31 /\
  Forall (slot_call (new 2)) [(mk_module 1, 1); (mk_module 0, 1)] /\
  exists b : t,
    sync_wait_all [(mk_module 1, 1); (mk_module 0, 1)] (new 2) = (b, Ok tt) /\
    length (sync_waiters b) = 2%nat /\
    (sync_wait_valid b = Ok tt <->
     Forall (fun w => w = false) (sync_waiters b) \/
     Forall (fun w => w = true) (sync_waiters b)).
Proof.
  assert (Z.of_nat 2 < 2 ^ 31) as H1 by (vm_compute; reflexivity).
  assert (Forall (slot_call (new 2)) [(mk_module 1, 1); (mk_module 0, 1)])
    as H2 by (repeat constructor; cbn; lia).
  split; [exact H1 |]. split; [exact H2 |].
  exact (sync_wait_valid_all_or_none 2 _ H1 H2).
Defined.

End SyncFlags.

(** ** The command line of the test tool *)
Section CommandLine.
Import Error TestCommands.
Local Open Scope string_scope.

Lemma substring_all (s : string) : substring 0 (String.length s) s = s.
Proof.
  induction s as [| c s IH]; [reflexivity |].
  change (String c (substring 0 (String.length s) s) = String c s).
  rewrite IH. reflexivity.
Qed.

Lemma substring_prefix (a b : string) :
  substring 0 (String.length a) (a ++ b) = a.
Proof.
  induction a as [| c a IH].
  - destruct b; reflexivity.
  - change (String c (substring 0 (String.length a) (a ++ b)) = String c a).
    rewrite IH. reflexivity.
Qed.

Lemma substring_suffix (a b : string) :
  substring (String.length a) (String.length b) (a ++ b) = b.
Proof.
  induction a as [| c a IH]; cbn; [apply substring_all | exact IH].
Qed.

Lemma length_append (a b : string) :
  String.length (a ++ b) = (String.length a + String.length b)%nat.
Proof.
  induction a as [| c a IH]; [reflexivity |].
  change (S (String.length (a ++ b))
          = S (String.length a + String.length b)).
  rewrite IH. reflexivity.
Qed.

Lemma substring_split (n : nat) (s : string) :
  (n <= String.length s)%nat ->
  s = substring 0 n s ++ substring n (String.length s - n) s.
Proof.
  revert n. induction s as [| c s IH]; intros n Hn.
  - destruct n; [reflexivity | cbn in Hn; lia].
  - destruct n as [| n].
    + change (String c s
              = substring 0 (String.length (String c s)) (String c s)).
      rewrite substring_all. reflexivity.
    + cbn [String.length] in Hn.
      change (String c s
              = String c (substring 0 n s
                          ++ substring n (String.length s - n) s)).
      rewrite <- IH by lia. reflexivity.
Qed.

(** [starts_with] is the test for a prefix. *)
Lemma starts_with_prefix (s1 s2 : string) :
  starts_with s1 s2 = true <-> exists rest : string, s1 = s2 ++ rest.
Proof.
  unfold starts_with. split.
  - intros H. apply andb_true_iff in H as [Hlen Heq].
    apply Nat.leb_le in Hlen. apply String.eqb_eq in Heq.
    exists (substring (String.length s2)
              (String.length s1 - String.length s2) s1).
    rewrite <- Heq at 1. apply substring_split. exact Hlen.
  - intros [rest ->]. apply andb_true_iff. split.
    + apply Nat.leb_le. rewrite length_append. lia.
    + rewrite substring_prefix. apply String.eqb_refl.
Qed.

(** X15.  [starts_with(s1, s2)] holds exactly when [s1] is [s2] followed
    by some text, which may be empty. *)
Theorem starts_with_spec (s1 s2 : string) :
  starts_with s1 s2 = true <-> exists rest : string, s1 = s2 ++ rest.
Proof. exact (starts_with_prefix s1 s2). Qed.

Lemma find_from_in (cmds : command_map) (opt : string)
    (e : string * command.t) :
  find_from cmds opt = Some e ->
  In e cmds /\ (command.name e.2 = opt \/ In opt (command.aliases e.2)).
Proof.
  induction cmds as [| e0 cmds IH]; intros H; [discriminate H |].
  cbn [find_from] in H.
  destruct (String.eqb_spec (command.name e0.2) opt) as [Hname | _].
  - injection H as <-. split; [left; reflexivity | left; exact Hname].
  - destruct (existsb _ (command.aliases e0.2)) eqn:Halias.
    + injection H as <-. split; [left; reflexivity |]. right.
      apply existsb_exists in Halias as (alias & Hin & Heq).
      apply String.eqb_eq in Heq. subst alias. exact Hin.
    + destruct (IH H) as [Hin Hor]. split; [right; exact Hin | exact Hor].
Qed.

(** X16.  The keys of [commands] are in increasing order as the
    initializer lists them, so that is the order [find_command] visits
    them in.  Every command of the table is found under its key, which is
    its name; whatever [find_command] finds is a command of the table
    that has the argument as its name or as one of its aliases.  The
    alias "re" is declared by [report] and by [run-end]: it finds
    [report], and [run-end] is found under its full name only. *)
Theorem find_command_spec :
  Sorted (fun a b : string => String.ltb a b = true) (map fst commands) /\
  (forall (k : string) (cmd : command.t),
     In (k, cmd) commands ->
     find_command k = Some (k, cmd) /\ command.name cmd = k) /\
  (forall (opt : string) (e : string * command.t),
     find_command opt = Some e ->
     In e commands /\
     (command.name e.2 = opt \/ In opt (command.aliases e.2))) /\
  In "re" (command.aliases report_cmd) /\
  In "re" (command.aliases run_end_cmd) /\
  find_command "re" = Some ("report", report_cmd) /\
  (forall opt : string,
     find_command opt = Some ("run-end", run_end_cmd) <-> opt = "run-end").
Proof.
  split; [repeat constructor |].
  split.
  { intros k cmd Hin. cbn [In commands] in Hin.
    repeat (destruct Hin as [Hin | Hin];
            [injection Hin as <- <-; split; reflexivity |]).
    contradiction. }
  split; [intros opt e; apply find_from_in |].
  split; [left; reflexivity |].
  split; [left; reflexivity |].
  split; [reflexivity |].
  intros opt. split; [| intros ->; reflexivity].
  intros H. destruct (find_from_in _ _ _ H) as [_ [Hname | Halias]].
  - symmetry. exact Hname.
  - cbn in Halias. destruct Halias as [<- | []].
    vm_compute in H. discriminate H.
Qed.

Lemma append_empty_r (s : string) : s ++ "" = s.
Proof.
  induction s as [| c s IH]; [reflexivity |].
  change (String c (s ++ "") = String c s). rewrite IH. reflexivity.
Qed.

(** What is left of an argument that starts with the switch and is not
    the switch. *)
Lemma attached_option (opt opt_switch : string) :
  starts_with opt opt_switch = true ->
  (opt =? opt_switch) = false ->
  exists value : string,
    opt = opt_switch ++ value /\ value <> "" /\
    substring (String.length opt_switch)
      (String.length opt - String.length opt_switch) opt = value.
Proof.
  intros Hstart Hneq. apply starts_with_prefix in Hstart as [value ->].
  exists value. split; [reflexivity |]. split.
  - intros ->. rewrite append_empty_r, String.eqb_refl in Hneq.
    discriminate Hneq.
  - rewrite length_append.
    replace (String.length opt_switch + String.length value
             - String.length opt_switch)%nat
      with (String.length value) by lia.
    apply substring_suffix.
Qed.

(** X17.  [switch_option] with [has_opt] takes the value of a switch
    written in one argument with the switch or in the argument after it,
    and the two spellings give the same value and leave the same
    arguments; without [has_opt] a bare switch gives "true".  The first
    argument is left where it is when it is a command or does not start
    with the switch.  The call throws only when [has_opt] is set and the
    switch is the last argument, and it never reads past the end. *)
Theorem switch_option_spec (opt_switch value : string)
    (rest : list string) :
  value <> "" ->
  find_command opt_switch = None ->
  find_command (opt_switch ++ value) = None ->
  switch_option opt_switch ((opt_switch ++ value) :: rest) true
    = Ok (value, rest) /\
  (forall next : string,
     switch_option opt_switch (opt_switch :: next :: rest) true
       = Ok (next, rest)) /\
  switch_option opt_switch [opt_switch] true
    = Throw (runtime_error ("no option with switch: " ++ opt_switch)) /\
  switch_option opt_switch (opt_switch :: rest) false = Ok ("true", rest) /\
  switch_option opt_switch ((opt_switch ++ value) :: rest) false
    = Ok (value, rest) /\
  (forall (opt : string) (ci : list string) (has_opt : bool),
     valid_command (find_command opt) = true \/
     starts_with opt opt_switch = false ->
     switch_option opt_switch (opt :: ci) has_opt = Ok ("", opt :: ci)) /\
  (forall (sw : string) (ci : list string) (has_opt : bool),
     switch_option sw ci has_opt <> Undefined /\
     forall e : exn,
       switch_option sw ci has_opt = Throw e ->
       has_opt = true /\ ci = [sw]).
Proof.
  intros Hvalue Hsw Hattached.
  assert (starts_with (opt_switch ++ value) opt_switch = true) as Hstart
    by (apply starts_with_prefix; exists value; reflexivity).
  assert (starts_with opt_switch opt_switch = true) as Hself
    by (apply starts_with_prefix; exists ""; symmetry; apply append_empty_r).
  assert ((opt_switch ++ value =? opt_switch) = false) as Hneq.
  { apply String.eqb_neq. intros Heq.
    apply (f_equal String.length) in Heq. rewrite length_append in Heq.
    destruct value; [contradiction | cbn in Heq; lia]. }
  destruct (attached_option _ _ Hstart Hneq) as (v & Hv & Hne & Hsub).
  assert (v = value) as ->.
  { clear - Hv. induction opt_switch as [| c s IH]; [symmetry; exact Hv |].
    injection Hv as Hv. apply IH. exact Hv. }
  assert ((value =? "") = false) as Hnonempty by (apply String.eqb_neq; exact Hne).
  split.
  { unfold switch_option. rewrite Hattached, Hstart, Hneq. cbn [valid_command negb andb].
    cbv zeta. rewrite Hsub, Hnonempty. reflexivity. }
  split.
  { intros next. unfold switch_option.
    rewrite Hsw, Hself, String.eqb_refl. reflexivity. }
  split.
  { unfold switch_option. rewrite Hsw, Hself, String.eqb_refl. reflexivity. }
  split.
  { unfold switch_option. rewrite Hsw, Hself, String.eqb_refl. reflexivity. }
  split.
  { unfold switch_option. rewrite Hattached, Hstart, Hneq. cbn [valid_command negb andb].
    cbv zeta. rewrite Hsub. cbn [bind fst snd]. rewrite Hnonempty. reflexivity. }
  split.
  { intros opt ci has_opt [Hcmd | Hno]; unfold switch_option.
    - rewrite Hcmd. reflexivity.
    - rewrite Hno, andb_false_r. reflexivity. }
  intros sw ci has_opt. unfold switch_option.
  destruct ci as [| opt ci1]; [split; [discriminate | intros e H; discriminate H] |].
  destruct (negb (valid_command (find_command opt)) && starts_with opt sw)
    eqn:Htake; [| split; [discriminate | intros e H; discriminate H]].
  apply andb_true_iff in Htake as [_ Hst].
  destruct (String.eqb_spec opt sw) as [-> | Hdiff].
  - destruct has_opt.
    + destruct ci1 as [| next ci2].
      * split; [discriminate | intros e _; auto].
      * split; [discriminate | intros e H; discriminate H].
    + cbn [bind fst snd negb andb]. rewrite String.eqb_refl.
      split; [discriminate | intros e H; discriminate H].
  - assert ((opt =? sw) = false) as Hn by (apply String.eqb_neq; exact Hdiff).
    destruct (attached_option _ _ Hst Hn) as (v & _ & Hvne & Hs).
    cbv zeta. rewrite Hs.
    assert ((v =? "") = false) as Hv' by (apply String.eqb_neq; exact Hvne).
    rewrite Hv'.
    destruct has_opt; cbn [andb negb bind fst snd]; rewrite ?Hv';
      (split; [discriminate | intros e H; discriminate H]).
Qed.

Lemma switch_option_spec_witness :
  "100" <> "" /\
  find_command "-b" = None /\
  find_command ("-b" ++ "100") = None /\
  switch_option "-b" ["-b100"; "0"; "hist-start"] true
    = Ok ("100", ["0"; "hist-start"]) /\
  switch_option "-b" ["-b"; "100"; "0"; "hist-start"] true
    = Ok ("100", ["0"; "hist-start"]).
Proof.
  assert ("100" <> "") as H1 by discriminate.
  assert (find_command "-b" = None) as H2 by reflexivity.
  assert (find_command ("-b" ++ "100") = None) as H3 by reflexivity.
  pose proof (switch_option_spec "-b" "100" ["0"; "hist-start"] H1 H2 H3)
    as (Ha & Hb & _).
  split; [exact H1 |]. split; [exact H2 |]. split; [exact H3 |].
  split; [exact Ha | exact (Hb "100")].
Defined.

End CommandLine.

(** ** Running the commands *)
Section Process.
Import Error TestCommands.
Local Open Scope string_scope.
Context {crate : Type}
        (crate_initialize : bool -> crate -> outcome crate)
        (crate_assign : list (Z * Z) -> crate -> outcome crate)
        (crate_set_firmware : crate -> outcome crate)
        (crate_probe : crate -> outcome crate)
        (num_modules_of : crate -> nat)
        (modules_online : crate -> list bool)
        (call : handler.t -> list string -> crate ->
                outcome (list string * crate)).

(** No command of the table asks for the probe without asking for the
    initialisation. *)
Lemma boot_of_commands (opt : string) (e : string * command.t) :
  find_command opt = Some e ->
  contains "init" (command.boot e.2) = true \/
  contains "probe" (command.boot e.2) = false.
Proof.
  intros H. apply find_from_in in H as [Hin _].
  assert (forallb (fun e : string * command.t =>
                     contains "init" (command.boot e.2)
                     || negb (contains "probe" (command.boot e.2)))
                  commands = true) as Hall by reflexivity.
  rewrite forallb_forall in Hall. specialize (Hall e Hin).
  apply orb_true_iff in Hall as [Hi | Hp]; [left; exact Hi |].
  right. apply negb_true_iff. exact Hp.
Qed.

Lemma process_loop_no_probe (num_modules : nat) (slot_map : list (Z * Z))
    (reg_trace : bool) (set_firmware' probe' : crate -> outcome crate)
    (steps : nat) :
  forall (ci : list string) (init_done probe_done probe_done' : bool)
         (c : crate),
    process_loop crate_initialize crate_assign crate_set_firmware crate_probe
      num_modules_of call steps num_modules slot_map reg_trace
      ci init_done probe_done c
    = process_loop crate_initialize crate_assign set_firmware' probe'
        num_modules_of call steps num_modules slot_map reg_trace
        ci init_done probe_done' c.
Proof.
  induction steps as [| steps IH]; intros ci init_done pd pd' c;
    [reflexivity |].
  cbn [process_loop]. destruct ci as [| opt ci]; [reflexivity |].
  destruct (find_command opt) as [fci |] eqn:Hfind; [| reflexivity].
  pose proof (boot_of_commands _ _ Hfind) as Hboot.
  destruct init_done; cbn [negb andb bind fst snd].
  - destruct (call (command.call fci.2) ci c) as [[ci' c'] | e |];
      cbn [bind fst snd]; [apply IH | reflexivity | reflexivity].
  - destruct (contains "init" (command.boot fci.2)) eqn:Hinit.
    + destruct (initialize crate_initialize crate_assign num_modules_of
                  num_modules slot_map reg_trace c) as [c1 | e |];
        cbn [bind fst snd negb andb]; [| reflexivity | reflexivity].
      destruct (call (command.call fci.2) ci c1) as [[ci' c'] | e |];
        cbn [bind fst snd]; [apply IH | reflexivity | reflexivity].
    + destruct Hboot as [Hi | Hp]; [discriminate Hi |].
      rewrite Hp. cbn [bind fst snd negb andb].
      destruct (call (command.call fci.2) ci c) as [[ci' c'] | e |];
        cbn [bind fst snd]; [apply IH | reflexivity | reflexivity].
Qed.

Lemma process_loop_one_initialize (num_modules : nat)
    (slot_map : list (Z * Z)) (reg_trace : bool)
    (initialize' : bool -> crate -> outcome crate)
    (assign' : list (Z * Z) -> crate -> outcome crate)
    (steps : nat) :
  forall (ci : list string) (probe_done : bool) (c : crate),
    process_loop crate_initialize crate_assign crate_set_firmware crate_probe
      num_modules_of call steps num_modules slot_map reg_trace
      ci true probe_done c
    = process_loop initialize' assign' crate_set_firmware crate_probe
        num_modules_of call steps num_modules slot_map reg_trace
        ci true probe_done c.
Proof.
  induction steps as [| steps IH]; intros ci pd c; [reflexivity |].
  cbn [process_loop]. destruct ci as [| opt ci]; [reflexivity |].
  destruct (find_command opt) as [fci |]; [| reflexivity].
  cbn [negb andb bind fst snd].
  destruct (call (command.call fci.2) ci c) as [[ci' c'] | e |];
    cbn [bind fst snd]; [apply IH | reflexivity | reflexivity].
Qed.

Lemma process_loop_returns (num_modules : nat) (slot_map : list (Z * Z))
    (reg_trace : bool) (steps : nat) :
  moves_on call ->
  forall (ci : list string) (init_done probe_done : bool) (c : crate),
    (length ci < steps)%nat ->
    exists r : outcome crate,
      process_loop crate_initialize crate_assign crate_set_firmware
        crate_probe num_modules_of call steps num_modules slot_map reg_trace
        ci init_done probe_done c = Some r.
Proof.
  intros Hcall.
  induction steps as [| steps IH]; intros ci init_done pd c Hlen; [lia |].
  cbn [process_loop]. destruct ci as [| opt ci]; [eexists; reflexivity |].
  cbn [length] in Hlen.
  destruct (find_command opt) as [fci |]; [| eexists; reflexivity].
  assert (forall (c0 : crate) (i p : bool),
            exists r : outcome crate,
              match
                bind (call (command.call fci.2) ci c0)
                  (fun r => Ok (r, i, p))
              with
              | Ok (ci', c', init_done', probe_done') =>
                  process_loop crate_initialize crate_assign
                    crate_set_firmware crate_probe num_modules_of call steps
                    num_modules slot_map reg_trace ci' init_done'
                    probe_done' c'
              | Throw e => Some (Throw e)
              | Undefined => Some Undefined
              end = Some r) as Hrest.
  { intros c0 i p.
    destruct (call (command.call fci.2) ci c0) as [[ci' c'] | e |] eqn:Hc;
      cbn [bind]; [| eexists; reflexivity | eexists; reflexivity].
    apply IH. pose proof (Hcall _ _ _ _ _ Hc). lia. }
  destruct (negb init_done && contains "init" (command.boot fci.2)).
  - destruct (initialize crate_initialize crate_assign num_modules_of
                num_modules slot_map reg_trace c) as [c1 | e |];
      cbn [bind fst snd negb andb];
      [apply Hrest | eexists; reflexivity | eexists; reflexivity].
  - cbn [bind fst snd].
    destruct (negb init_done && contains "probe" (command.boot fci.2)).
    + destruct (probe crate_set_firmware crate_probe c) as [c1 | e |];
        cbn [bind fst snd];
        [apply Hrest | eexists; reflexivity | eexists; reflexivity].
    + cbn [bind fst snd]. apply Hrest.
Qed.

(** X18.  [process_commands] with handlers that do not move the
    argument iterator back: the loop ends.  What it does is the same
    whatever [crate.set_firmware] and [crate.probe] do, since no command
    of the table reaches the call of [probe]; once a command has
    initialised the crate, what follows is the same whatever
    [crate.initialize] and [crate.assign] do.  A first argument that is
    no command throws "invalid command: " with the argument, before the
    crate is used. *)
Theorem process_commands_spec (opts : list string) (num_modules : nat)
    (slot_map : list (Z * Z)) (reg_trace : bool) (c : crate) :
  moves_on call ->
  (exists r : outcome crate,
     process_commands crate_initialize crate_assign crate_set_firmware
       crate_probe num_modules_of call opts num_modules slot_map reg_trace c
     = Some r) /\
  (forall set_firmware' probe' : crate -> outcome crate,
     process_commands crate_initialize crate_assign crate_set_firmware
       crate_probe num_modules_of call opts num_modules slot_map reg_trace c
     = process_commands crate_initialize crate_assign set_firmware' probe'
         num_modules_of call opts num_modules slot_map reg_trace c) /\
  (forall (initialize' : bool -> crate -> outcome crate)
          (assign' : list (Z * Z) -> crate -> outcome crate)
          (steps : nat) (ci : list string) (probe_done : bool) (c' : crate),
     process_loop crate_initialize crate_assign crate_set_firmware
       crate_probe num_modules_of call steps num_modules slot_map reg_trace
       ci true probe_done c'
     = process_loop initialize' assign' crate_set_firmware crate_probe
         num_modules_of call steps num_modules slot_map reg_trace
         ci true probe_done c') /\
  (forall (opt : string) (rest : list string),
     find_command opt = None ->
     process_commands crate_initialize crate_assign crate_set_firmware
       crate_probe num_modules_of call (opt :: rest) num_modules slot_map
       reg_trace c
     = Some (Throw (runtime_error ("invalid command: " ++ opt)))).
Proof.
  intros Hcall. split; [| split; [| split]].
  - apply process_loop_returns; [exact Hcall | lia].
  - intros sf pr. apply process_loop_no_probe.
  - intros i a. apply process_loop_one_initialize.
  - intros opt rest Hno. unfold process_commands. cbn [process_loop].
    rewrite Hno. reflexivity.
Qed.

(** X19.  [module_check] returns exactly when every number is at most
    [crate.num_modules] and the position of a module of [crate.modules]
    that is online.  A number greater than [crate.num_modules], after
    numbers that pass, throws "invalid module number: " with the number.
    The number [crate.num_modules] itself is not refused: when
    [crate.modules] has [crate.num_modules] entries the check reads past
    the last of them. *)
Theorem module_check_spec (c : crate) :
  let passes := fun n : nat =>
    (n <= num_modules_of c)%nat /\ modules_online c !! n = Some true in
  (forall mod_nums : list nat,
     module_check num_modules_of modules_online c mod_nums = Ok tt <->
     Forall passes mod_nums) /\
  (forall (pre rest : list nat) (n : nat),
     Forall passes pre -> (num_modules_of c < n)%nat ->
     module_check num_modules_of modules_online c (pre ++ n :: rest)
       = Throw (runtime_error
                  ("invalid module number: " ++ to_string (Z.of_nat n)))) /\
  (forall (pre rest : list nat) (n : nat),
     Forall passes pre -> modules_online c !! n = Some false ->
     (n <= num_modules_of c)%nat ->
     module_check num_modules_of modules_online c (pre ++ n :: rest)
       = Throw (runtime_error
                  ("module offline: " ++ to_string (Z.of_nat n)))) /\
  (forall pre rest : list nat,
     Forall passes pre ->
     length (modules_online c) = num_modules_of c ->
     module_check num_modules_of modules_online c
       (pre ++ num_modules_of c :: rest) = Undefined).
Proof.
  intros passes.
  assert (forall (pre tail : list nat),
            Forall passes pre ->
            module_check num_modules_of modules_online c (pre ++ tail)
            = module_check num_modules_of modules_online c tail) as Hpre.
  { intros pre tail Hp. induction Hp as [| n pre [Hle Hon] _ IH];
      [reflexivity |].
    cbn [app module_check].
    destruct (Nat.ltb_spec (num_modules_of c) n); [lia |].
    rewrite Hon. cbn [negb]. exact IH. }
  split; [| split; [| split]].
  - intros mod_nums. induction mod_nums as [| n rest IH].
    + split; [constructor | reflexivity].
    + cbn [module_check].
      destruct (Nat.ltb_spec (num_modules_of c) n) as [Hgt | Hle].
      { split; [discriminate |].
        intros H. inversion H as [| ? ? [Hn _] _]; subst. lia. }
      destruct (modules_online c !! n) as [[|] |] eqn:Hon; cbn [negb].
      * rewrite IH. split.
        -- intros H. constructor; [split; [exact Hle | exact Hon] | exact H].
        -- intros H. inversion H; subst. assumption.
      * split; [discriminate |].
        intros H. inversion H as [| ? ? [_ Hn] _]; subst. congruence.
      * split; [discriminate |].
        intros H. inversion H as [| ? ? [_ Hn] _]; subst. congruence.
  - intros pre rest n Hp Hgt. rewrite (Hpre _ _ Hp). cbn [module_check].
    destruct (Nat.ltb_spec (num_modules_of c) n); [reflexivity | lia].
  - intros pre rest n Hp Hoff Hle. rewrite (Hpre _ _ Hp). cbn [module_check].
    destruct (Nat.ltb_spec (num_modules_of c) n); [lia |].
    rewrite Hoff. reflexivity.
  - intros pre rest Hp Hlen. rewrite (Hpre _ _ Hp). cbn [module_check].
    rewrite Nat.ltb_irrefl.
    rewrite (lookup_ge_None_2 (modules_online c) (num_modules_of c)) by lia.
    reflexivity.
Qed.

(** X20.  What [main] returns for the way its second [try] block ends:
    0 when the block ends normally; for an SDK error of a code other than
    [success] a negative value, 0 minus the result of the code; for any
    other exception 900, a positive value.  So an argument that is no
    command, where a command is due first, makes [main] return 900. *)
Theorem main_exit_code :
  (forall c : crate, main_try (Ok c) = Ok 0) /\
  (forall (type : code) (what : string),
     type <> success ->
     exists r : Z,
       api_result type = Ok r /\ 0 < r /\
       main_try (crate := crate) (Throw (sdk_error type what)) = Ok (- r)) /\
  (forall e : exn,
     (forall (type : code) (what : string), e <> sdk_error type what) ->
     main_try (crate := crate) (Throw e) = Ok 900) /\
  (forall (opt : string) (rest : list string) (num_modules : nat)
          (slot_map : list (Z * Z)) (reg_trace : bool) (c : crate),
     find_command opt = None ->
     exists e : exn,
       process_commands crate_initialize crate_assign crate_set_firmware
         crate_probe num_modules_of call (opt :: rest) num_modules slot_map
         reg_trace c = Some (Throw e) /\
       main_try (crate := crate) (Throw e) = Ok 900).
Proof.
  split; [reflexivity |].
  split.
  { intros type what Hne. exists (ErrorApi.result_of type).
    split; [apply api_result_result_of |].
    unfold main_try, ErrorApi.error_return_code, ErrorApi.error_result.
    rewrite api_result_result_of.
    destruct type; try (contradiction Hne; reflexivity);
      (split; [vm_compute; reflexivity | vm_compute; reflexivity]). }
  split.
  { intros e He. destruct e as [type what | what | what |];
      [contradiction (He type what); reflexivity | | |];
      vm_compute; reflexivity. }
  intros opt rest num_modules slot_map reg_trace c Hno.
  eexists. split.
  - unfold process_commands. cbn [process_loop]. rewrite Hno. reflexivity.
  - vm_compute. reflexivity.
Qed.

End Process.

(** The loop on handlers that take no argument. *)
Lemma process_commands_spec_witness :
  TestCommands.moves_on (crate := unit) (fun _ ci c => Error.Ok (ci, c)) /\
  exists r : Error.outcome unit,
    TestCommands.process_commands
      (fun _ c => Error.Ok c) (fun _ c => Error.Ok c)
      (fun c => Error.Ok c) (fun c => Error.Ok c) (fun _ => 0%nat)
      (fun _ ci c => Error.Ok (ci, c))
      ["wait"%string; "boot"%string] 0 [] false tt = Some r.
Proof.
  assert (TestCommands.moves_on (crate := unit)
            (fun _ ci c => Error.Ok (ci, c))) as H.
  { intros h ci ci' c c' Heq. injection Heq as <- _. lia. }
  split; [exact H |].
  exact (proj1 (process_commands_spec
                  (fun _ c => Error.Ok c) (fun _ c => Error.Ok c)
                  (fun c => Error.Ok c) (fun c => Error.Ok c)
                  (fun _ => 0%nat) (fun _ ci c => Error.Ok (ci, c))
                  ["wait"%string; "boot"%string] 0%nat [] false tt H)).
Defined.

(** ** The supervisor of the module threads *)
Section Supervisor.
Import Error TestApi ModuleThreads.

(** One pass over the threads. *)
Lemma poll_at_pass (p : nat) (ws : list (nat * promise)) :
  forall (fe : code) (fin : Z),
    Z.of_nat (length ws) <= fin < 2 ^ 64 ->
    match poll p (at_pass p ws) fe fin with
    | None =>
        Exists (fun w => w.1 = p /\ exists e, w.2 = set_exception e) ws
    | Some (ts', fe', fin') =>
        ts' = at_pass (S p) ws /\
        fin' = fin - Z.of_nat (length (filter (fun w => (p < w.1)%nat) ws)) /\
        Forall (fun w => w.1 = p -> exists c, w.2 = set_value c) ws /\
        (fe <> success -> fe' = fe) /\
        (fe = success ->
         (fe' = success /\
          Forall (fun w => w.1 = p -> w.2 = set_value success) ws) \/
         (fe' <> success /\
          Exists (fun w => w.1 = p /\ w.2 = set_value fe') ws))
    end.
Proof.
  induction ws as [| [r h] ws IH]; intros fe fin Hfin.
  - cbn. repeat split; auto. lia.
  - cbn [length] in Hfin. cbn [at_pass map poll valid ready_at held fst snd].
    destruct (Nat.leb_spec p r) as [Hle | Hgt].
    + destruct (Nat.leb_spec r p) as [Hrp | Hpr].
      * assert (r = p) as -> by lia.
        destruct h as [c | e]; cbn [future_get].
        -- specialize (IH (if bool_decide (fe = success) then c else fe) fin
                         ltac:(lia)).
           fold (at_pass p ws).
           destruct (poll p (at_pass p ws) _ fin) as [[[ts' fe'] fin'] |].
           ++ destruct IH as (-> & -> & Hall & Hkeep & Hfirst).
              rewrite filter_cons_False by (cbn; lia).
              split.
              { cbn [at_pass map fst snd]. unfold got. cbn [ready_at held].
                destruct (Nat.leb_spec (S p) p); [lia | reflexivity]. }
              split; [reflexivity |].
              split; [constructor; [intros _; eauto | exact Hall] |].
              split.
              { intros Hfe. rewrite bool_decide_eq_false_2 in Hkeep by exact Hfe.
                apply Hkeep. exact Hfe. }
              intros Hfe. rewrite bool_decide_eq_true_2 in Hkeep, Hfirst
                by exact Hfe.
              destruct (decide (c = success)) as [-> | Hc].
              ** destruct (Hfirst eq_refl) as [[-> Hs] | [Hne Hex]].
                 --- left. split; [reflexivity |].
                     constructor; [intros _; reflexivity | exact Hs].
                 --- right. split; [exact Hne |]. right. exact Hex.
              ** right. rewrite (Hkeep Hc). split; [exact Hc |].
                 left. split; reflexivity.
           ++ right. exact IH.
        -- left. split; [reflexivity | eauto].
      * specialize (IH fe (Buffer.wrap (fin - 1))).
        rewrite wrap_small in IH |- * by lia.
        specialize (IH ltac:(lia)).
        fold (at_pass p ws).
        destruct (poll p (at_pass p ws) fe (fin - 1)) as [[[ts' fe'] fin'] |].
        -- destruct IH as (-> & -> & Hall & Hkeep & Hfirst).
           rewrite filter_cons_True by (cbn; lia).
           split.
           { cbn [at_pass map fst snd].
             destruct (Nat.leb_spec (S p) r); [reflexivity | lia]. }
           split; [cbn [length]; lia |].
           split; [constructor; [cbn; intros; lia | exact Hall] |].
           split; [exact Hkeep |].
           intros Hfe. destruct (Hfirst Hfe) as [[-> Hs] | [Hne Hex]].
           ++ left. split; [reflexivity |].
              constructor; [cbn; intros; lia | exact Hs].
           ++ right. split; [exact Hne | right; exact Hex].
        -- right. exact IH.
    + specialize (IH fe fin ltac:(lia)). fold (at_pass p ws).
      destruct (poll p (at_pass p ws) fe fin) as [[[ts' fe'] fin'] |].
      * destruct IH as (-> & -> & Hall & Hkeep & Hfirst).
        rewrite filter_cons_False by (cbn; lia).
        split.
        { cbn [at_pass map fst snd].
          destruct (Nat.leb_spec (S p) r); [lia | reflexivity]. }
        split; [reflexivity |].
        split; [constructor; [cbn; intros; lia | exact Hall] |].
        split; [exact Hkeep |].
        intros Hfe. destruct (Hfirst Hfe) as [[-> Hs] | [Hne Hex]].
        -- left. split; [reflexivity |].
           constructor; [cbn; intros; lia | exact Hs].
        -- right. split; [exact Hne | right; exact Hex].
      * right. exact IH.
Qed.

Lemma length_at_pass (p : nat) (ws : list (nat * promise)) :
  length (at_pass p ws) = length ws.
Proof. apply length_map. Qed.

Lemma none_waiting (p : nat) (ws : list (nat * promise)) :
  length (filter (fun w => (p <= w.1)%nat) ws) = 0%nat <->
  Forall (fun w => (w.1 < p)%nat) ws.
Proof.
  induction ws as [| w ws IH]; [split; [constructor | reflexivity] |].
  destruct (decide (p <= w.1)%nat) as [Hle | Hgt].
  - rewrite filter_cons_True by exact Hle. cbn [length]. split; [lia |].
    intros H. inversion H; subst. lia.
  - rewrite filter_cons_False by exact Hgt. rewrite IH. split.
    + intros H. constructor; [lia | exact H].
    + intros H. inversion H; subst. assumption.
Qed.

Lemma waiting_after (p : nat) (ws : list (nat * promise)) :
  filter (fun w => (p < w.1)%nat) ws = filter (fun w => (S p <= w.1)%nat) ws.
Proof. apply list_filter_iff. intros w. lia. Qed.

(** The loop from the pass [p] on. *)
Lemma supervise_from (ws : list (nat * promise)) (passes : nat) :
  Z.of_nat (length ws) < 2 ^ 64 ->
  forall (p : nat) (fe : code),
    (1 <= passes)%nat ->
    Forall (fun w => (w.1 + 2 <= passes + p)%nat) ws ->
    exists r : option code,
      supervise passes p (at_pass p ws) fe
        (Z.of_nat (length ws)
         - Z.of_nat (length (filter (fun w => (p <= w.1)%nat) ws))) = Some r /\
      (r = None <->
       Exists (fun w => (p <= w.1)%nat /\ exists e, w.2 = set_exception e) ws) /\
      (forall c : code,
         r = Some c ->
         (fe <> success -> c = fe) /\
         (fe = success ->
          (c = success /\
           Forall (fun w => (p <= w.1)%nat -> w.2 = set_value success) ws) \/
          (c <> success /\
           exists w, w ∈ ws /\ (p <= w.1)%nat /\ w.2 = set_value c /\
             Forall (fun w' => (p <= w'.1)%nat -> w'.2 <> set_value success ->
                               (w.1 <= w'.1)%nat) ws))).
Proof.
  intros Hn. induction passes as [| passes IH]; intros p fe Hpos Hfuel; [lia |].
  cbn [supervise]. rewrite length_at_pass.
  pose proof (length_filter (fun w => (p <= w.1)%nat) ws) as Hcount.
  destruct (Z.eqb_spec
              (Z.of_nat (length ws)
               - Z.of_nat (length (filter (fun w => (p <= w.1)%nat) ws)))
              (Z.of_nat (length ws))) as [Hdone | Hmore].
  - assert (Forall (fun w => (w.1 < p)%nat) ws) as Hall
      by (apply none_waiting; lia).
    exists (Some fe). split; [reflexivity |]. split.
    + split; [discriminate |]. intros Hex. exfalso.
      apply Exists_exists in Hex as (w & Hin & Hle & _).
      rewrite Forall_forall in Hall. specialize (Hall w Hin). lia.
    + intros c Hc. injection Hc as <-. split; [auto |].
      intros ->. left. split; [reflexivity |].
      eapply Forall_impl; [exact Hall |]. cbn. intros w Hlt Hle. lia.
  - assert (~ Forall (fun w => (w.1 < p)%nat) ws) as Hsome.
    { intros Hall. apply none_waiting in Hall. lia. }
    assert (1 <= passes)%nat as Hpos'.
    { destruct passes as [| passes']; [| lia]. exfalso. apply Hsome.
      eapply Forall_impl; [exact Hfuel |]. cbn. intros w Hw. lia. }
    pose proof (poll_at_pass p ws fe (Z.of_nat (length ws)) ltac:(lia)) as Hpoll.
    destruct (poll p (at_pass p ws) fe (Z.of_nat (length ws)))
      as [[[ts' fe'] fin'] |].
    + destruct Hpoll as (-> & -> & Hvalues & Hkeep & Hfirst).
      rewrite waiting_after.
      destruct (IH (S p) fe' Hpos') as (r & Hrun & Hnone & Hsome').
      { eapply Forall_impl; [exact Hfuel |]. cbn. intros w Hw. lia. }
      exists r. split; [exact Hrun |]. split.
      * rewrite Hnone. split.
        -- intros Hex. apply Exists_exists in Hex as (w & Hin & Hle & He).
           apply Exists_exists. exists w. split; [exact Hin |].
           split; [lia | exact He].
        -- intros Hex. apply Exists_exists in Hex as (w & Hin & Hle & [e He]).
           apply Exists_exists. exists w. split; [exact Hin |].
           split; [| eauto].
           destruct (decide (w.1 = p)) as [Heq | Hne]; [| lia].
           rewrite Forall_forall in Hvalues.
           destruct (Hvalues w Hin Heq) as [c Hc]. congruence.
      * intros c Hc. destruct (Hsome' c Hc) as [Hkeep' Hfirst'].
        split.
        { intros Hfe. rewrite <- (Hkeep Hfe). apply Hkeep'.
          rewrite (Hkeep Hfe). exact Hfe. }
        intros Hfe. destruct (Hfirst Hfe) as [[-> Hnow] | [Hne Hnow]].
        -- destruct (Hfirst' eq_refl) as [[-> Hlater] | (Hc' & w & Hin & Hle & Hw & Hmin)].
           ++ left. split; [reflexivity |].
              rewrite Forall_forall in Hnow, Hlater |- *. intros w Hin Hle.
              destruct (decide (w.1 = p)) as [Heq | Hneq];
                [apply Hnow; assumption | apply Hlater; [assumption | lia]].
           ++ right. split; [exact Hc' |]. exists w.
              split; [exact Hin |]. split; [lia |]. split; [exact Hw |].
              rewrite Forall_forall in Hnow, Hmin |- *. intros w' Hin' Hle' Hbad.
              destruct (decide (w'.1 = p)) as [Heq | Hneq].
              ** contradiction Hbad. apply Hnow; assumption.
              ** apply Hmin; [assumption | lia | assumption].
        -- assert (c = fe') as -> by (apply Hkeep'; exact Hne).
           right. split; [exact Hne |].
           apply Exists_exists in Hnow as (w & Hin & Heq & Hw).
           exists w. split; [exact Hin |]. split; [lia |]. split; [exact Hw |].
           apply Forall_forall. intros w' _ Hle' _. lia.
    + exists None. split; [reflexivity |]. split; [| discriminate].
      split; [intros _ | reflexivity].
      apply Exists_exists in Hpoll as (w & Hin & Heq & He).
      apply Exists_exists. exists w. split; [exact Hin |].
      split; [lia | exact He].
Qed.

Lemma last_ready_bound (ws : list (nat * promise)) :
  Forall (fun w => (w.1 <= last_ready ws)%nat) ws.
Proof.
  induction ws as [| w ws IH]; [constructor |].
  unfold last_ready in *. cbn [map foldr].
  constructor; [lia |].
  eapply Forall_impl; [exact IH |]. cbn. intros w' Hw'. lia.
Qed.

Lemma all_waiting (ws : list (nat * promise)) :
  filter (fun w : nat * promise => (0 <= w.1)%nat) ws = ws.
Proof.
  induction ws as [| w ws IH]; [reflexivity |].
  rewrite filter_cons_True by (cbn; lia). rewrite IH. reflexivity.
Qed.

(** X21.  [module_threads] with as many workers as module numbers, all
    of them positions of [crate.modules]: the loop ends, whatever the
    order in which the futures turn ready.  The call returns exactly when
    every worker set [success]; it ends in [std::terminate] exactly when
    some promise holds an exception; and else it throws an SDK error with
    the message of the caller and the code of a worker that failed, one
    whose future was ready no later than that of any other worker that
    failed.  With a different number of workers it throws
    [std::runtime_error] before a thread is started. *)
Theorem module_threads_spec (modules_count : nat) (mod_nums : list nat)
    (ws : list (nat * promise)) (error_message : string) :
  length ws = length mod_nums ->
  Forall (fun n => (n < modules_count)%nat) mod_nums ->
  Z.of_nat (length ws) < 2 ^ 64 ->
  (exists r : ending,
     module_threads modules_count mod_nums ws error_message = Some r /\
     r <> undefined /\
     (r = returns <-> Forall (fun w => w.2 = set_value success) ws) /\
     (r = terminates <-> Exists (fun w => exists e, w.2 = set_exception e) ws) /\
     (forall e : exn,
        r = throws e ->
        exists c : code,
          e = sdk_error c error_message /\ c <> success /\
          exists w, w ∈ ws /\ w.2 = set_value c /\
            Forall (fun w' => w'.2 <> set_value success ->
                              (w.1 <= w'.1)%nat) ws)) /\
  (forall ws' : list (nat * promise),
     length ws' <> length mod_nums ->
     module_threads modules_count mod_nums ws' error_message
       = Some (throws (runtime_error "workers and modules counts mismatch"))).
Proof.
  intros Hlen Hmods Hn. split.
  - unfold module_threads.
    rewrite Hlen, Nat.eqb_refl. cbn [negb].
    assert (forallb (fun n => n <? modules_count)%nat mod_nums = true) as ->.
    { apply forallb_forall. intros n Hin. apply Nat.ltb_lt.
      rewrite Forall_forall in Hmods. apply Hmods.
      apply list_elem_of_In. exact Hin. }
    cbn [negb].
    destruct (supervise_from ws (2 + last_ready ws) Hn 0 success ltac:(lia))
      as (r & Hrun & Hnone & Hsome).
    { eapply Forall_impl; [apply last_ready_bound |]. cbn. intros w Hw. lia. }
    rewrite all_waiting, Z.sub_diag in Hrun. rewrite Hrun.
    destruct r as [c |].
    + destruct (Hsome c eq_refl) as [_ Hfirst].
      assert (~ Exists (fun w => exists e, w.2 = set_exception e) ws) as Hnoexn.
      { intros Hex. assert (@None code = Some c) as Habs; [| discriminate Habs].
        symmetry. apply Hnone. apply Exists_exists in Hex as (w & Hin & He).
        apply Exists_exists. exists w. split; [exact Hin |].
        split; [lia | exact He]. }
      destruct (Hfirst eq_refl) as [[-> Hgood] | (Hc & w & Hin & _ & Hw & Hmin)].
      * exists returns. rewrite bool_decide_eq_true_2 by reflexivity.
        split; [reflexivity |]. split; [discriminate |].
        split.
        { split; [intros _ | reflexivity].
          eapply Forall_impl; [exact Hgood |]. cbn. intros w Hw. apply Hw. lia. }
        split; [split; [discriminate | intros Hex; contradiction] |].
        intros e He. discriminate He.
      * exists (throws (sdk_error c error_message)).
        rewrite bool_decide_eq_false_2 by exact Hc.
        split; [reflexivity |]. split; [discriminate |].
        split.
        { split; [discriminate |]. intros Hgood. exfalso.
          rewrite Forall_forall in Hgood. specialize (Hgood w Hin).
          congruence. }
        split; [split; [discriminate | intros Hex; contradiction] |].
        intros e He. injection He as <-. exists c.
        split; [reflexivity |]. split; [exact Hc |].
        exists w. split; [exact Hin |]. split; [exact Hw |].
        eapply Forall_impl; [exact Hmin |]. cbn. intros w' Hw' Hbad.
        apply Hw'; [lia | exact Hbad].
    + exists terminates. split; [reflexivity |]. split; [discriminate |].
      assert (Exists (fun w => exists e, w.2 = set_exception e) ws) as Hex.
      { destruct Hnone as [Hnone _]. specialize (Hnone eq_refl).
        apply Exists_exists in Hnone as (w & Hin & _ & He).
        apply Exists_exists. exists w. auto. }
      split.
      { split; [discriminate |]. intros Hgood. exfalso.
        apply Exists_exists in Hex as (w & Hin & e & He).
        rewrite Forall_forall in Hgood. specialize (Hgood w Hin). congruence. }
      split; [split; [intros _; exact Hex | reflexivity] |].
      intros e He. discriminate He.
  - intros ws' Hdiff. unfold module_threads.
    destruct (Nat.eqb_spec (length ws') (length mod_nums));
      [contradiction | reflexivity].
Qed.

Lemma module_threads_spec_witness :
  length [(2%nat, set_value success); (0%nat, set_value module_offline);
          (0%nat, set_value device_dma_failure)] = length [0%nat; 1%nat; 2%nat] /\
  Forall (fun n => (n < 3)%nat) [0%nat; 1%nat; 2%nat] /\
  Z.of_nat (length [(2%nat, set_value success); (0%nat, set_value module_offline);
                    (0%nat, set_value device_dma_failure)]) < 2 ^ 64 /\
  module_threads 3 [0%nat; 1%nat; 2%nat]
    [(2%nat, set_value success); (0%nat, set_value module_offline);
     (0%nat, set_value device_dma_failure)] "list mode run error"
    = Some (throws (sdk_error module_offline "list mode run error")) /\
  exists r : ending,
    module_threads 3 [0%nat; 1%nat; 2%nat]
      [(2%nat, set_value success); (0%nat, set_value module_offline);
       (0%nat, set_value device_dma_failure)] "list mode run error" = Some r /\
    r <> undefined.
Proof.
  assert (length [(2%nat, set_value success); (0%nat, set_value module_offline);
                  (0%nat, set_value device_dma_failure)]
          = length [0%nat; 1%nat; 2%nat]) as H1 by reflexivity.
  assert (Forall (fun n => (n < 3)%nat) [0%nat; 1%nat; 2%nat]) as H2
    by (repeat constructor).
  assert (Z.of_nat (length [(2%nat, set_value success);
                            (0%nat, set_value module_offline);
                            (0%nat, set_value device_dma_failure)]) < 2 ^ 64)
    as H3 by (vm_compute; reflexivity).
  split; [exact H1 |]. split; [exact H2 |]. split; [exact H3 |].
  split; [vm_compute; reflexivity |].
  destruct (proj1 (module_threads_spec 3 [0%nat; 1%nat; 2%nat] _
                     "list mode run error" H1 H2 H3)) as (r & Hr & Hu & _).
  exists r. split; [exact Hr | exact Hu].
Defined.

End Supervisor.

(** ** The legacy crate, device by device *)
Section LegacyCrateScan.
Import Error LegacyCrate.
Context {device : Type} (fresh : device)
        (pci_find_module : nat -> device -> bool * device)
        (pci_bus pci_slot : device -> Z).

(** X22.  [crate::initialize] on a crate state with [num_modules] above
    0 looks at device 0 and at no other: it pushes one module, filled in
    by [pci_find_module(0, ...)], and what it does is the same for every
    search that gives the same answer for device 0.  When the device is
    not found it throws "Pixie16 module(s) not found" unless the one
    module pushed brings [modules] to [num_modules] entries.  So with no
    module held and [num_modules] 2 or more it throws, found or not. *)
Theorem legacy_initialize_stops_at_device_0 (c : crate) :
  (0 < num_modules c)%nat ->
  let dev := (pci_find_module 0%nat fresh).2 in
  let pushed := modules c ++ [mk_module dev] in
  (initialize fresh pci_find_module pci_bus pci_slot c).1
    = {| num_modules := num_modules c; modules := pushed |} /\
  (forall pci_find_module' : nat -> device -> bool * device,
     pci_find_module' 0%nat fresh = pci_find_module 0%nat fresh ->
     initialize fresh pci_find_module' pci_bus pci_slot c
       = initialize fresh pci_find_module pci_bus pci_slot c) /\
  ((pci_find_module 0%nat fresh).1 = false ->
   (initialize fresh pci_find_module pci_bus pci_slot c).2
     = if (length pushed =? num_modules c)%nat then Ok tt
       else Throw (crate_error
                     (found_of "Pixie16 module(s) not found"
                               (length pushed) (num_modules c)))) /\
  (modules c = [] -> (2 <= num_modules c)%nat ->
   exists what : string,
     (initialize fresh pci_find_module pci_bus pci_slot c).2
       = Throw (crate_error what)).
Proof.
  intros Hnum dev pushed.
  destruct (num_modules c) as [| n] eqn:Hn; [lia |].
  assert (forall find : nat -> device -> bool * device,
            (find 0%nat fresh).1 = false ->
            initialize fresh find pci_bus pci_slot c
            = ({| num_modules := S n;
                  modules := modules c ++ [mk_module (find 0%nat fresh).2] |},
               if (length (modules c ++ [mk_module (find 0%nat fresh).2])
                   =? S n)%nat
               then Ok tt
               else Throw (crate_error
                             (found_of "Pixie16 module(s) not found"
                                (length (modules c ++
                                           [mk_module (find 0%nat fresh).2]))
                                (S n))))) as Hmiss.
  { intros find Hno. unfold initialize. rewrite Hn. cbn [scan].
    destruct (find 0%nat fresh) as [found d]. cbn [fst snd] in *. subst found.
    cbn [negb].
    destruct (length (modules c ++ [mk_module d]) =? S n)%nat; reflexivity. }
  assert (forall find : nat -> device -> bool * device,
            (find 0%nat fresh).1 = true ->
            initialize fresh find pci_bus pci_slot c
            = ({| num_modules := S n;
                  modules := modules c ++ [mk_module (find 0%nat fresh).2] |},
               Throw (crate_error
                        (found_of "duplicate Pixie16 module found"
                                  (S (length (modules c))) (S n))))) as Hhit.
  { intros find Hyes. unfold initialize. rewrite Hn.
    rewrite (scan_found fresh find pci_bus pci_slot (S n) n 0 (modules c) Hyes).
    reflexivity. }
  split; [| split; [| split]].
  - destruct (pci_find_module 0%nat fresh).1 eqn:Hfound.
    + rewrite (Hhit _ Hfound). reflexivity.
    + rewrite (Hmiss _ Hfound). reflexivity.
  - intros find' Hsame.
    destruct (pci_find_module 0%nat fresh).1 eqn:Hfound.
    + rewrite (Hhit pci_find_module Hfound), (Hhit find'), Hsame;
        [reflexivity | rewrite Hsame; exact Hfound].
    + rewrite (Hmiss pci_find_module Hfound), (Hmiss find'), Hsame;
        [reflexivity | rewrite Hsame; exact Hfound].
  - intros Hfound. rewrite (Hmiss _ Hfound). reflexivity.
  - intros Hempty Htwo.
    destruct (pci_find_module 0%nat fresh).1 eqn:Hfound.
    + rewrite (Hhit _ Hfound). eexists. reflexivity.
    + rewrite (Hmiss _ Hfound), Hempty. cbn [app length snd].
      destruct (Nat.eqb_spec 1 (S n)); [lia |]. eexists. reflexivity.
Qed.

End LegacyCrateScan.

Lemma legacy_initialize_stops_at_device_0_witness :
  (0 < LegacyCrate.num_modules (device := Z)
         {| LegacyCrate.num_modules := 2; LegacyCrate.modules := [] |})%nat /\
  (LegacyCrate.initialize 0 (fun (_ : nat) (d : Z) => (false, d))
     (fun _ => 0) (fun d => d)
     {| LegacyCrate.num_modules := 2; LegacyCrate.modules := [] |}).1
  = {| LegacyCrate.num_modules := 2;
       LegacyCrate.modules := [LegacyCrate.mk_module 0] |}.
Proof.
  assert (0 < LegacyCrate.num_modules (device := Z)
                {| LegacyCrate.num_modules := 2;
                   LegacyCrate.modules := [] |})%nat
    as H by (cbn; lia).
  split; [exact H |].
  exact (proj1 (legacy_initialize_stops_at_device_0 0
                  (fun (_ : nat) (d : Z) => (false, d))
                  (fun _ => 0) (fun d => d) _ H)).
Defined.

(** ** Handlers that take a file *)
Section FileHandlers.
Import Error TestCommands.
Local Open Scope string_scope.
Context {crate : Type}
        (crate_initialize : bool -> crate -> outcome crate)
        (crate_assign : list (Z * Z) -> crate -> outcome crate)
        (crate_set_firmware : crate -> outcome crate)
        (crate_probe : crate -> outcome crate)
        (num_modules_of : crate -> nat)
        (crate_boot : crate -> outcome crate)
        (crate_export_config : string -> crate -> outcome crate)
        (crate_import_config : string -> crate -> outcome crate)
        (crate_initialize_afe : crate -> outcome crate)
        (other : handler.t -> list string -> crate ->
                 outcome (list string * crate)).

Lemma valid_option_one (opt : string) (rest : list string) :
  valid_option (opt :: rest) 1 = negb (valid_command (find_command opt)).
Proof.
  unfold valid_option. cbn [args_count length take forallb].
  destruct (Nat.ltb_spec (S (length rest)) 1); [lia |].
  apply andb_true_r.
Qed.

(** X23.  [export] and [import] take the argument after them as the
    file, unless there is none or it is spelled like a command or an alias
    of the table: then they throw "not enough options", and no file of
    such a name can be written or read.  On the command line of the two
    arguments "export" and a file, [process_commands] initialises the crate
    first, and then exports to the file or throws, by the same rule. *)
Theorem export_import_take_a_file (c : crate) :
  TestHandlers.export_ crate_export_config [] c
    = Throw (runtime_error "export: not enough options") /\
  TestHandlers.import crate_import_config crate_initialize_afe [] c
    = Throw (runtime_error "import: not enough options") /\
  (forall (file : string) (rest : list string),
     TestHandlers.export_ crate_export_config (file :: rest) c
       = (if valid_command (find_command file)
          then Throw (runtime_error "export: not enough options")
          else bind (crate_export_config file c)
                 (fun c' => Ok (rest, c'))) /\
     TestHandlers.import crate_import_config crate_initialize_afe
         (file :: rest) c
       = (if valid_command (find_command file)
          then Throw (runtime_error "import: not enough options")
          else bind (crate_import_config file c)
                 (fun c' => bind (crate_initialize_afe c')
                    (fun c'' => Ok (rest, c''))))) /\
  (forall (file : string) (num_modules : nat) (slot_map : list (Z * Z))
          (reg_trace : bool),
     process_commands crate_initialize crate_assign crate_set_firmware
       crate_probe num_modules_of
       (TestHandlers.call crate_boot crate_export_config crate_import_config
          crate_initialize_afe other)
       ["export"; file] num_modules slot_map reg_trace c
     = Some (bind (initialize crate_initialize crate_assign num_modules_of
                     num_modules slot_map reg_trace c)
               (fun c1 =>
                  if valid_command (find_command file)
                  then Throw (runtime_error "export: not enough options")
                  else crate_export_config file c1))) /\
  (forall (opt : string) (e : string * command.t),
     find_command opt = Some e ->
     forall rest : list string,
       TestHandlers.export_ crate_export_config (opt :: rest) c
         = Throw (runtime_error "export: not enough options")).
Proof.
  split; [reflexivity |]. split; [reflexivity |].
  split.
  { intros file rest. unfold TestHandlers.export_, TestHandlers.import.
    rewrite valid_option_one, negb_involutive.
    destruct (valid_command (find_command file)); split; reflexivity. }
  split.
  { intros file num_modules slot_map reg_trace. unfold process_commands.
    cbn [length process_loop].
    change (find_command "export") with (Some ("export", export_cmd)).
    cbn [snd command.boot command.call export_cmd negb andb].
    change (contains "init" "init,probe") with true.
    cbn [bind fst snd].
    destruct (initialize crate_initialize crate_assign num_modules_of
                num_modules slot_map reg_trace c) as [c1 | e |];
      cbn [bind fst snd negb andb]; [| reflexivity | reflexivity].
    cbn [TestHandlers.call]. unfold TestHandlers.export_.
    rewrite valid_option_one, negb_involutive.
    destruct (valid_command (find_command file)); [reflexivity |].
    destruct (crate_export_config file c1) as [c2 | e |];
      cbn [bind fst snd]; reflexivity. }
  intros opt e Hfind rest. unfold TestHandlers.export_.
  rewrite valid_option_one, Hfind. reflexivity.
Qed.

End FileHandlers.

(** ** From the pool through the queue and back *)
Section Cycle.
Import Error Buffer BufferUse.

Lemma filter_all_nonempty (bufs : list handle) :
  Forall (fun b => (0 < buffer_size b)%nat) bufs ->
  filter (fun b => (0 < buffer_size b)%nat) bufs = bufs.
Proof.
  induction 1 as [| b bufs Hb _ IH]; [reflexivity |].
  rewrite filter_cons_True by exact Hb. rewrite IH. reflexivity.
Qed.

(** The handles the queue drops go back to their pool. *)
Lemma release_all_accounted (N C : nat) (held : list handle) :
  Z.of_nat N < 2 ^ 64 ->
  forall p : pool.t,
    accounted N C (p, held) ->
    accounted N C
      (foldl (fun p h => pool.release h p) p (map clear held), []).
Proof.
  intros HN. induction held as [| h held IH]; intros p Hacc; [exact Hacc |].
  cbn [map foldl]. apply IH.
  pose proof (pool_step_accounted N C (op_release 0) (p, h :: held) HN Hacc)
    as Hstep.
  exact Hstep.
Qed.

(** X24.  Buffers go round without loss.  A user takes buffers from a
    pool of [N], fills them, releases some, and pushes the ones it holds,
    none of them empty, on a new queue; [copy] into an empty buffer then
    hands over all their words in the order pushed and leaves the queue
    as new, and when the handles the queue dropped are released the pool
    has all its [N] buffers again, each empty. *)
Theorem pool_queue_cycle (N C : nat) (ops : list pool_op) (p0 : pool.t) :
  Z.of_nat N < 2 ^ 64 ->
  pool.create N C pool.new = Ok p0 ->
  Forall (fun b => (0 < buffer_size b)%nat) (pool_run ops (p0, [])).2 ->
  Forall is_word (flat_map data (pool_run ops (p0, [])).2) ->
  Z.of_nat (length (flat_map data (pool_run ops (p0, [])).2)) < 2 ^ 64 ->
  exists to1 : buffer,
    copy_to (new_buffer 0) (push_all (pool_run ops (p0, [])).2 queue.new)
      = Ok (to1, queue.new, map clear (pool_run ops (p0, [])).2) /\
    data to1 = flat_map data (pool_run ops (p0, [])).2 /\
    accounted N C
      (foldl (fun p h => pool.release h p) (pool_run ops (p0, [])).1
         (map clear (pool_run ops (p0, [])).2), []) /\
    length (pool.buffers
              (foldl (fun p h => pool.release h p) (pool_run ops (p0, [])).1
                 (map clear (pool_run ops (p0, [])).2))) = N.
Proof.
  intros HN Hcreate Hne Hwords Htotal.
  pose proof (pool_run_accounted N C ops (p0, []) HN
                (create_accounted N C p0 Hcreate)) as Hacc.
  destruct (pool_run ops (p0, [])) as [p held]. cbn [fst snd] in *.
  assert (Z.of_nat (length held) < 2 ^ 64) as Hcount.
  { destruct Hacc as (_ & _ & _ & Hl & _). cbn [fst snd] in Hl. lia. }
  destruct (push_all_buffers held Htotal Hcount) as (Hbufs & Hinv & Hr).
  rewrite filter_all_nonempty in Hbufs by exact Hne.
  destruct (copy_to_drains (new_buffer 0) (push_all held queue.new))
    as (to1 & Hcopy & Hdata).
  - reflexivity.
  - exact Hinv.
  - exact Hr.
  - rewrite Hbufs. exact Hne.
  - unfold queue.held_words. rewrite Hbufs. exact Hwords.
  - unfold queue.held_words in Hdata. rewrite Hbufs in Hcopy, Hdata.
    exists to1. split; [exact Hcopy |]. split; [exact Hdata |].
    pose proof (release_all_accounted N C held HN p Hacc) as Hback.
    split; [exact Hback |].
    destruct Hback as (_ & _ & _ & Hl & _). cbn [fst snd length] in Hl. lia.
Qed.

Lemma pool_queue_cycle_witness :
  Z.of_nat 2 < 2 ^ 64 /\
  pool.create 2 4 pool.new
    = Ok {| pool.number := 2; pool.size := 4; pool.count_ := 2;
            pool.buffers := [new_buffer 4; new_buffer 4] |} /\
  (pool_run [op_request; op_fill 0 [7; 8]; op_request; op_fill 1 [9]]
     ({| pool.number := 2; pool.size := 4; pool.count_ := 2;
         pool.buffers := [new_buffer 4; new_buffer 4] |}, [])).2
    = [mk_buffer [7; 8] 4; mk_buffer [9] 4] /\
  exists to1 : buffer,
    copy_to (new_buffer 0)
      (push_all [mk_buffer [7; 8] 4; mk_buffer [9] 4] queue.new)
      = Ok (to1, queue.new, [mk_buffer [] 4; mk_buffer [] 4]) /\
    data to1 = [7; 8; 9].
Proof.
  assert (Z.of_nat 2 < 2 ^ 64) as H1 by lia.
  assert (pool.create 2 4 pool.new
          = Ok {| pool.number := 2; pool.size := 4; pool.count_ := 2;
                  pool.buffers := [new_buffer 4; new_buffer 4] |}) as H2
    by reflexivity.
  assert (Forall (fun b => (0 < buffer_size b)%nat)
            (pool_run [op_request; op_fill 0 [7; 8]; op_request;
                       op_fill 1 [9]]
               ({| pool.number := 2; pool.size := 4; pool.count_ := 2;
                   pool.buffers := [new_buffer 4; new_buffer 4] |}, [])).2)
    as H3 by (repeat constructor; vm_compute; lia).
  assert (Forall is_word
            (flat_map data
               (pool_run [op_request; op_fill 0 [7; 8]; op_request;
                          op_fill 1 [9]]
                  ({| pool.number := 2; pool.size := 4; pool.count_ := 2;
                      pool.buffers := [new_buffer 4; new_buffer 4] |}, [])).2))
    as H4 by (repeat constructor; vm_compute; congruence).
  assert (Z.of_nat
            (length
               (flat_map data
                  (pool_run [op_request; op_fill 0 [7; 8]; op_request;
                             op_fill 1 [9]]
                     ({| pool.number := 2; pool.size := 4; pool.count_ := 2;
                         pool.buffers := [new_buffer 4; new_buffer 4] |},
                      [])).2)) < 2 ^ 64) as H5 by (vm_compute; reflexivity).
  split; [exact H1 |]. split; [exact H2 |]. split; [reflexivity |].
  destruct (pool_queue_cycle 2 4 _ _ H1 H2 H3 H4 H5) as (to1 & Hc & Hd & _).
  exists to1. split; [exact Hc | exact Hd].
Defined.

End Cycle.

(** ** The help of the test tool *)
Section Help.
Import Error TestCommands TestHandlers.
Local Open Scope string_scope.

Lemma command_not_empty (opt : string) (e : string * command.t) :
  find_command opt = Some e -> (opt =? "") = false.
Proof.
  intros H. apply String.eqb_neq. intros ->. vm_compute in H. discriminate H.
Qed.

(** X25.  [help] takes the argument after it as the name to explain and
    does not run it.  With a name or an alias of the table it prints the
    entry found, the name padded to one more than the longest key, which
    has 11 characters; after the switch [-l] it prints the name, the
    aliases, the help and the usage.  With an argument that is no command
    and no alias it reads the command through [commands.end()], which is
    not defined.  With no argument it returns, every key being found. *)
Theorem help_spec :
  max_key_size = 11%nat /\
  (forall (opt : string) (e : string * command.t) (rest : list string),
     find_command opt = Some e ->
     help (opt :: rest)
       = Ok (rest,
             "Command help:" ++ endl ++
             setw_left 12 (command.name e.2) ++ " - " ++
             command.help e.2 ++ endl) /\
     help ("-l" :: opt :: rest)
       = Ok (rest,
             "Command help:" ++ endl ++
             command.name e.2 ++ " : " ++
             foldr (fun a s => a ++ " " ++ s) "" (command.aliases e.2) ++
             endl ++ " " ++ command.help e.2 ++ endl ++
             "  # " ++ command.help_cmd e.2 ++ endl)) /\
  (forall (opt : string) (rest : list string),
     find_command opt = None -> starts_with opt "-l" = false -> opt <> "" ->
     help (opt :: rest) = Undefined) /\
  (exists out : string, help [] = Ok ([], out)).
Proof.
  split; [reflexivity |].
  split.
  { intros opt e rest Hfind.
    pose proof (command_not_empty _ _ Hfind) as Hne. split.
    - unfold help, switch_option. rewrite Hfind.
      cbn [valid_command negb andb bind fst snd]. rewrite Hne.
      cbn [negb help_lines]. rewrite Hfind.
      change ("" =? "true") with false. cbn [bind].
      change (max_key_size + 1)%nat with 12%nat.
      rewrite !append_empty_r. reflexivity.
    - assert (switch_option "-l" ("-l" :: opt :: rest) false
              = Ok ("true", opt :: rest)) as Hsw by reflexivity.
      unfold help. rewrite Hsw. cbn [bind fst snd]. rewrite Hne.
      cbn [negb help_lines]. rewrite Hfind.
      change ("true" =? "true") with true. cbn [bind].
      rewrite !append_empty_r. reflexivity. }
  split.
  { intros opt rest Hfind Hstart Hne.
    unfold help, switch_option. rewrite Hfind, Hstart.
    cbn [valid_command negb andb bind fst snd].
    assert ((opt =? "") = false) as -> by (apply String.eqb_neq; exact Hne).
    cbn [negb help_lines]. rewrite Hfind. reflexivity. }
  eexists. vm_compute. reflexivity.
Qed.

End Help.
